(** * Image pyramids of sol3.py: Gaussian and Laplacian pyramids, reconstruction
    and blending, embedded as executable definitions.

    Numeric model.  The samples of an image are float64 in the source; here a
    sample is an exact rational ([Qc]), so rounding is not modelled: an
    equality of samples is an equality of the exact values, which the float64
    code meets up to rounding.  Where rounding decides a statement, the
    functions are given on binary64 numbers as well ([reduce_float64] and the
    functions around it).  A NumPy operation whose result would hold [inf] or
    [nan] (a division by zero, which NumPy reports as a RuntimeWarning before
    it goes on) has no value in [Qc]: the model stops there with the outcome
    [NonFinite], so that [Ok r] is an array of finite numbers, and the
    statements that need such an array say when there is one.  The kernel row
    of [_get_filer_row] is
    an integer array, [np.array([1])]: its elements are 64-bit signed integers
    (NumPy's default integer on 64-bit Linux and macOS), modelled as [Z] with the
    wrap-around written out ([int64]).

    A 2-D array is a list of rows.  An array with no row has width 0. *)

From Stdlib Require Import List ZArith QArith Qcanon Lia Bool Arith.
From Stdlib Require Floats Uint63.
Import PrimFloat.
Import ListNotations.

Set Implicit Arguments.
Close Scope Qc_scope.
Close Scope Q_scope.
Open Scope nat_scope.

(** ** Outcomes *)

Inductive exn : Type :=
| IndexError      (* list index out of range *)
| ValueError      (* operands could not be broadcast together, empty reduction,
                     negative dimension *)
| RuntimeError    (* ndimage: filter weights array has incorrect shape *)
| RecursionError  (* maximum recursion depth exceeded *)
| NonFinite.      (* the array would hold inf or nan *)

Inductive result (A : Type) : Type :=
| Ok (a : A)
| Raise (e : exn).

Arguments Raise {A} e.

Definition bind {A B : Type} (m : result A) (k : A -> result B) : result B :=
  match m with
  | Ok a => k a
  | Raise e => Raise e
  end.

Notation "x <- m ;; k" := (bind m (fun x => k))
  (at level 61, m at next level, right associativity).
Notation "' pat <- m ;; k" := (bind m (fun x => match x with pat => k end))
  (at level 61, pat pattern, m at next level, right associativity).

(** [l[i]] for a Python list and an index [i >= 0]. *)
Definition py_index {A : Type} (l : list A) (i : nat) : result A :=
  match nth_error l i with
  | Some a => Ok a
  | None => Raise IndexError
  end.

(** ** Arrays *)

Definition Z2Qc (z : Z) : Qc := Q2Qc (inject_Z z).

Abbreviation image := (list (list Qc)).

Definition height (im : image) : nat := length im.
Definition width (im : image) : nat := length (hd [] im).
Definition shape (im : image) : nat * nat := (height im, width im).

Definition get (im : image) (i j : nat) : Qc := nth j (nth i im []) 0%Qc.

(** The array of shape [(h, w)] whose element [(i, j)] is [f i j]. *)
Definition mk_image (h w : nat) (f : nat -> nat -> Qc) : image :=
  map (fun i => map (f i) (seq 0 w)) (seq 0 h).

(** Every row has the width of the array (true of every NumPy 2-D array). *)
Definition rect (im : image) : Prop :=
  Forall (fun r => length r = width im) im.

Definition sum_upto (n : nat) (f : nat -> Qc) : Qc :=
  fold_right Qcplus 0%Qc (map f (seq 0 n)).

(** [im.sum()] *)
Definition np_sum (im : image) : Qc :=
  sum_upto (height im) (fun i => sum_upto (width im) (fun j => get im i j)).

(** [c * im] and [im * c] for a scalar [c]. *)
Definition scale (c : Qc) (im : image) : image := map (map (Qcmult c)) im.
Definition scale_r (im : image) (c : Qc) : image := map (map (fun x => (x * c)%Qc)) im.

(** [im.T] *)
Definition transpose (im : image) : image :=
  mk_image (width im) (height im) (fun i j => get im j i).

(** NumPy broadcasting of one dimension: equal, or one of them is 1. *)
Definition bdim (a b : nat) : result nat :=
  if a =? b then Ok a
  else if a =? 1 then Ok b
  else if b =? 1 then Ok a
  else Raise ValueError.

Definition bidx (dim i : nat) : nat := if dim =? 1 then 0 else i.

(** An elementwise binary operation of two 2-D arrays, with broadcasting. *)
Definition broadcast2 (op : Qc -> Qc -> Qc) (a b : image) : result image :=
  h <- bdim (height a) (height b) ;;
  w <- bdim (width a) (width b) ;;
  Ok (mk_image h w (fun i j =>
        op (get a (bidx (height a) i) (bidx (width a) j))
           (get b (bidx (height b) i) (bidx (width b) j)))).

Definition np_add : image -> image -> result image := broadcast2 Qcplus.
Definition np_sub : image -> image -> result image := broadcast2 Qcminus.
Definition np_mul : image -> image -> result image := broadcast2 Qcmult.

(** ** scipy.ndimage.convolve, mode 'reflect' *)

(** The index of the input that position [c] of the extended input reads:
    (d c b a | a b c d | d c b a). *)
Definition reflect (n : nat) (c : Z) : nat :=
  let m := (c mod (2 * Z.of_nat n))%Z in
  Z.to_nat (if (m <? Z.of_nat n)%Z then m else (2 * Z.of_nat n - 1 - m)%Z).

(** Where the flipped filter is anchored along an axis of length [len]:
    [len // 2], one less when [len] is even. *)
Definition anchor (len : nat) : Z :=
  (Z.of_nat (len / 2) + (if Nat.even len then -1 else 0))%Z.

(** The filtered array, for weights with no empty axis. *)
Definition convolve_reflect (input weights : image) : image :=
  let kh := height weights in
  let kw := width weights in
  let h := height input in
  let w := width input in
  mk_image h w (fun i j =>
    sum_upto kh (fun a =>
      sum_upto kw (fun b =>
        (get weights (kh - 1 - a) (kw - 1 - b) *
         get input
           (reflect h (Z.of_nat i + Z.of_nat a - anchor kh))
           (reflect w (Z.of_nat j + Z.of_nat b - anchor kw)))%Qc))).

Definition convolve (input weights : image) : result image :=
  if (height weights =? 0) || (width weights =? 0) then Raise RuntimeError
  else Ok (convolve_reflect input weights).

(** ** The functions of sol3.py *)

Definition MIN_IMG_SIZE : nat := 16.

(** [im[::2, ::2]] *)
Definition subsample (im : image) : image :=
  mk_image ((height im + 1) / 2) ((width im + 1) / 2)
           (fun i j => get im (2 * i) (2 * j)).

Definition reduce (im blur_filter : image) : result image :=
  r <- convolve im blur_filter ;;
  c <- convolve r (transpose blur_filter) ;;
  Ok (subsample c).

(** [np.zeros((2h, 2w))] with [expanded_image[::2, ::2] = im]. *)
Definition zero_interleave (im : image) : image :=
  mk_image (height im * 2) (width im * 2)
           (fun i j => if Nat.even i && Nat.even j
                       then get im (i / 2) (j / 2) else 0%Qc).

Definition expand (im blur_filter : image) : result image :=
  let expanded_image := zero_interleave im in
  r <- convolve expanded_image (scale (Z2Qc 2) blur_filter) ;;
  convolve r (scale (Z2Qc 2) (transpose blur_filter)).

(** The value a 64-bit signed integer keeps of [z]. *)
Definition int64 (z : Z) : Z := ((z + 2 ^ 63) mod 2 ^ 64 - 2 ^ 63)%Z.

Definition zsum (l : list Z) : Z := fold_right Z.add 0%Z l.

(** [scipy.signal.convolve] of two 1-D integer arrays (mode 'full'). *)
Definition convolve1d (a b : list Z) : list Z :=
  map (fun n => int64 (zsum (map (fun k => (nth k a 0 * nth (n - k) b 0)%Z)
                                 (seq 0 (n + 1)))))
      (seq 0 (length a + length b - 1)).

(** [filter_row] after [n] iterations of the loop of [_get_filer_row]. *)
Definition filter_row_after (n : nat) : list Z :=
  let base_row := [1; 1]%Z in
  Nat.iter n (fun filter_row => convolve1d filter_row base_row) [1%Z].

(** [filter_row / s] for an integer row and an integer scalar.  For [s = 0]
    NumPy returns a row of [inf] and [nan], with a RuntimeWarning, and the
    code goes on with it: the outcome [NonFinite], with which the model
    stops. *)
Definition np_true_divide (filter_row : list Z) (s : Z) : result (list Qc) :=
  if (s =? 0)%Z then Raise NonFinite
  else Ok (map (fun x => (Z2Qc x / Z2Qc s)%Qc) filter_row).

Definition _get_filer_row (filter_size : Z) : result image :=
  let filter_row := filter_row_after (Z.to_nat (filter_size - 1)) in
  row <- np_true_divide filter_row (int64 (zsum filter_row)) ;;
  Ok [row].

(** The loop of [build_gaussian_pyramid]: [n] iterations are left. *)
Fixpoint gaussian_loop (n : nat) (pyr : list image) (filter_vec : image)
  : result (list image) :=
  match n with
  | O => Ok pyr
  | S n' =>
      let lst := last pyr [] in
      if (height lst <=? MIN_IMG_SIZE) || (width lst <=? MIN_IMG_SIZE)
      then Ok pyr
      else
        r <- reduce lst filter_vec ;;
        gaussian_loop n' (pyr ++ [r]) filter_vec
  end.

Definition build_gaussian_pyramid (im : image) (max_levels filter_size : Z)
  : result (list image * image) :=
  let pyr := [im] in
  filter_vec <- _get_filer_row filter_size ;;
  pyr <- gaussian_loop (Z.to_nat (max_levels - 1)) pyr filter_vec ;;
  Ok (pyr, filter_vec).

(** [[f(i) for i in l]], left to right; the first exception ends it. *)
Fixpoint comprehension {A B : Type} (f : A -> result B) (l : list A)
  : result (list B) :=
  match l with
  | [] => Ok []
  | a :: l' =>
      b <- f a ;;
      bs <- comprehension f l' ;;
      Ok (b :: bs)
  end.

Definition build_laplacian_pyramid (im : image) (max_levels filter_size : Z)
  : result (list image * image) :=
  '(gauss_pyr, filter_vec) <- build_gaussian_pyramid im max_levels filter_size ;;
  lap_pyr <- comprehension
               (fun i =>
                  g <- py_index gauss_pyr i ;;
                  g' <- py_index gauss_pyr (i + 1) ;;
                  e <- expand g' filter_vec ;;
                  np_sub g e)
               (seq 0 (length gauss_pyr - 1)) ;;
  g <- py_index gauss_pyr (length gauss_pyr - 1) ;;
  Ok (lap_pyr ++ [g], filter_vec).

(** [_get_gauss(n)], the nested function of [laplacian_to_image].  Every call
    takes one frame of the interpreter's stack, that of [_get_gauss] and those
    of the functions it calls: [frames] is the number of frames that are left
    when [_get_gauss] is called, and [callee] the number of frames that a call
    of [expand] needs, for itself and for [ndimage.convolve] below it (a
    number that the source of sol3.py does not fix).  A call that finds no
    frame raises [RecursionError]. *)
Fixpoint _get_gauss (callee frames : nat) (lpyr : list image)
    (filter_vec : image) (coeff : list Qc) (n : nat) : result image :=
  match frames with
  | O => Raise RecursionError
  | S frames' =>
      if (Z.of_nat n =? Z.of_nat (length lpyr) - 1)%Z
      then
        l <- py_index lpyr n ;;
        c <- py_index coeff n ;;
        Ok (scale_r l c)
      else
        l <- py_index lpyr n ;;
        c <- py_index coeff n ;;
        g <- _get_gauss callee frames' lpyr filter_vec coeff (n + 1) ;;
        e <- (if frames' <? callee then Raise RecursionError
              else expand g filter_vec) ;;
        np_add (scale_r l c) e
  end.

(** [laplacian_to_image], run with a stack that is deep enough: a frame for
    every level of the pyramid, and no limit on the frames of [expand]
    ([callee = 0] charges none). *)
Definition laplacian_to_image (lpyr : list image) (filter_vec : image)
    (coeff : list Qc) : result image :=
  _get_gauss 0 (S (length lpyr)) lpyr filter_vec coeff 0.

Definition Qcleb (a b : Qc) : bool := Qle_bool a b.
Definition Qcmin (a b : Qc) : Qc := if Qcleb a b then a else b.
Definition Qcmax (a b : Qc) : Qc := if Qcleb a b then b else a.

(** [im.min()] and [im.max()]: an empty array has none. *)
Definition np_min (im : image) : result Qc :=
  match concat im with
  | [] => Raise ValueError
  | x :: l => Ok (fold_left Qcmin l x)
  end.

Definition np_max (im : image) : result Qc :=
  match concat im with
  | [] => Raise ValueError
  | x :: l => Ok (fold_left Qcmax l x)
  end.

(** [im / d] for a scalar [d].  For [d = 0] NumPy returns an array of [inf]
    and [nan], with a RuntimeWarning, and the code goes on with it: the
    outcome [NonFinite], with which the model stops. *)
Definition np_div_scalar (im : image) (d : Qc) : result image :=
  if Qc_eq_bool d 0 then Raise NonFinite
  else Ok (map (map (fun x => (x / d)%Qc)) im).

Definition _stretch_image (im : image) : result image :=
  lo <- np_min im ;;
  hi <- np_max im ;;
  lo' <- np_min im ;;
  np_div_scalar (map (map (fun x => (x - lo)%Qc)) im) (hi - lo')%Qc.

Definition zeros (h w : nat) : image := mk_image h w (fun _ _ => 0%Qc).

(** [np.concatenate((a, b), 1)] for arrays with as many rows. *)
Definition hconcat (a b : image) : image :=
  map (fun rs => fst rs ++ snd rs) (combine a b).

(** The loop of [render_pyramid] over the indices [idxs]. *)
Fixpoint render_loop (pyr : list image) (res : image) (idxs : list nat)
  : result image :=
  match idxs with
  | [] => Ok res
  | i :: idxs' =>
      if i =? length pyr then Ok res
      else
        p <- py_index pyr i ;;
        image_to_add <- _stretch_image p ;;
        let rows_to_add :=
          (Z.of_nat (height res) - Z.of_nat (height image_to_add))%Z in
        if (rows_to_add <? 0)%Z then Raise ValueError
        else
          let image_to_add :=
            image_to_add ++ zeros (Z.to_nat rows_to_add) (width image_to_add) in
          render_loop pyr (hconcat res image_to_add) idxs'
  end.

Definition render_pyramid (pyr : list image) (levels : Z) : result image :=
  if (levels <? 1)%Z then Ok []
  else
    p <- py_index pyr 0 ;;
    res <- _stretch_image p ;;
    render_loop pyr res (seq 1 (Z.to_nat levels - 1)).

(** [mask.astype(np.float64)] for a boolean mask. *)
Definition astype_float64 (mask : list (list bool)) : image :=
  map (map (fun b : bool => if b then 1%Qc else 0%Qc)) mask.

(** [np.clip(im, 0, 1)] *)
Definition clip01 (im : image) : image :=
  map (map (fun x => Qcmin (Qcmax x 0) 1)) im.

(** [gm[i] * l1[i] + ((-1 * gm[i]) + 1) * l2[i]], an element of the
    comprehension of [pyramid_blending]. *)
Definition blend_level (gm l1 l2 : list image) (i : nat) : result image :=
  g <- py_index gm i ;;
  a <- py_index l1 i ;;
  ga <- np_mul g a ;;
  g' <- py_index gm i ;;
  let w := map (map (fun x => (x + 1)%Qc)) (scale (- (1)) g') in
  b <- py_index l2 i ;;
  wb <- np_mul w b ;;
  np_add ga wb.

Definition pyramid_blending (im1 im2 : image) (mask : list (list bool))
    (max_levels filter_size_im filter_size_mask : Z) : result image :=
  '(l1, _) <- build_laplacian_pyramid im1 max_levels filter_size_im ;;
  '(l2, fil) <- build_laplacian_pyramid im2 max_levels filter_size_im ;;
  '(gm, _) <- build_gaussian_pyramid (astype_float64 mask) max_levels
                                     filter_size_mask ;;
  out_lap <- comprehension (blend_level gm l1 l2) (seq 0 (length l1)) ;;
  r <- laplacian_to_image out_lap fil (repeat 1%Qc (Z.to_nat max_levels)) ;;
  Ok (clip01 r).

(** ** The accumulation of the specification

    The Reconstructor as the specification words it: the accumulator starts at
    the last level, [acc = L[n-1] * c[n-1]], and for [i] from [n - 2] down to 0,
    [acc = L[i] * c[i] + Expand(acc, kernel)].  A loop; the addition is the
    uncropped one of the code. *)

(** The iterations for the levels [i - 1], ..., 0. *)
Fixpoint accumulate_down (lpyr : list image) (filter_vec : image)
    (coeff : list Qc) (i : nat) (acc : image) : result image :=
  match i with
  | O => Ok acc
  | S i' =>
      l <- py_index lpyr i' ;;
      c <- py_index coeff i' ;;
      e <- expand acc filter_vec ;;
      acc' <- np_add (scale_r l c) e ;;
      accumulate_down lpyr filter_vec coeff i' acc'
  end.

Definition laplacian_to_image_iterative (lpyr : list image) (filter_vec : image)
    (coeff : list Qc) : result image :=
  let n := length lpyr in
  if n =? 0 then Raise IndexError
  else
    l <- py_index lpyr (n - 1) ;;
    c <- py_index coeff (n - 1) ;;
    accumulate_down lpyr filter_vec coeff (n - 1) (scale_r l c).

(** ** Predicates of the statements *)

(** The array of shape [(h, w)] whose elements are all [c]. *)
Definition constant_image (h w : nat) (c : Qc) : image :=
  mk_image h w (fun _ _ => c).

(** The recursion of [laplacian_to_image] from level [i], with a stack that
    is deep enough. *)
Definition get_gauss_from (lpyr : list image) (filter_vec : image)
    (coeff : list Qc) (i : nat) : result image :=
  _get_gauss 0 (S (length lpyr)) lpyr filter_vec coeff i.

(** A filter that [convolve] accepts: no axis of the weights is empty. *)
Definition filter_ok (k : image) : Prop := height k <> 0 /\ width k <> 0.

(** The element before position [n] of [r]; there is none before the first. *)
Definition before (r : list Z) (n : nat) : Z :=
  match n with
  | O => 0%Z
  | S m => nth m r 0%Z
  end.

(** The integer row [r] divides by its sum into a kernel whose elements sum
    to 1. *)
Definition normalized_row (r : list Z) : bool :=
  match np_true_divide r (int64 (zsum r)) with
  | Ok row => Qc_eq_bool (np_sum [row]) 1
  | Raise _ => false
  end.

(** [normalized_row] of [r] and of the next [fuel - 1] rows of the loop. *)
Fixpoint normalized_from (fuel : nat) (r : list Z) : bool :=
  match fuel with
  | O => true
  | S fuel' => normalized_row r && normalized_from fuel' (convolve1d r [1; 1]%Z)
  end.

(** A Gaussian pyramid: every level but the last is larger than
    [MIN_IMG_SIZE] in both dimensions and reduces to the next one. *)
Inductive gaussian_levels (filter_vec : image) : list image -> Prop :=
| levels_one g : gaussian_levels filter_vec [g]
| levels_cons g g' l :
    MIN_IMG_SIZE < height g -> MIN_IMG_SIZE < width g ->
    reduce g filter_vec = Ok g' ->
    gaussian_levels filter_vec (g' :: l) ->
    gaussian_levels filter_vec (g :: g' :: l).

(** The kernel of [_get_filer_row], where there is one. *)
Definition kernel_of (filter_size : Z) : image :=
  match _get_filer_row filter_size with
  | Ok k => k
  | Raise _ => []
  end.

(** Level [i] of the Laplacian pyramid, as the comprehension of
    [build_laplacian_pyramid] computes it from two Gaussian levels. *)
Definition laplacian_level (filter_vec g g' : image) : result image :=
  e <- expand g' filter_vec ;;
  np_sub g e.

(** Level [i] of the Laplacian pyramid of the Gaussian pyramid [gauss], when
    it does not raise. *)
Definition laplacian_at (filter_vec : image) (gauss : list image) (i : nat)
  : image :=
  match laplacian_level filter_vec (nth i gauss []) (nth (i + 1) gauss []) with
  | Ok l => l
  | Raise _ => []
  end.

(** The pyramid and the filter of a returned pair. *)
Definition levels_of (r : result (list image * image)) : list image :=
  match r with
  | Ok (pyr, _) => pyr
  | Raise _ => []
  end.

(** The mask of shape [(h, w)] that is [b] everywhere. *)
Definition all_mask (b : bool) (h w : nat) : list (list bool) :=
  repeat (repeat b w) h.

(** Every sample lies in [[0, 1]]. *)
Definition in_unit (im : image) : Prop :=
  Forall (Forall (fun x => (0 <= x)%Qc /\ (x <= 1)%Qc)) im.

(** Dimensions compatible with [n] more halvings: every level that the loop
    of [build_gaussian_pyramid] reduces has an even height and an even
    width. *)
Fixpoint halvable (n h w : nat) : bool :=
  match n with
  | O => true
  | S n' =>
      if (h <=? MIN_IMG_SIZE) || (w <=? MIN_IMG_SIZE) then true
      else Nat.even h && Nat.even w && halvable n' ((h + 1) / 2) ((w + 1) / 2)
  end.

(** A checkerboard of zeros and ones. *)
Definition checkerboard (h w : nat) : image :=
  mk_image h w (fun i j => if Nat.even (i + j) then 1%Qc else 0%Qc).

(** Equality of arrays, decided element by element. *)
Definition row_eqb (a b : list Qc) : bool :=
  (length a =? length b)
  && forallb (fun p => Qc_eq_bool (fst p) (snd p)) (combine a b).

Definition image_eqb (a b : image) : bool :=
  (length a =? length b)
  && forallb (fun p => row_eqb (fst p) (snd p)) (combine a b).

(** [r] is the array [expected]. *)
Definition returns (r : result image) (expected : image) : bool :=
  match r with
  | Ok im => image_eqb im expected
  | Raise _ => false
  end.

(** The binomial coefficient C(n, k), by Pascal's rule. *)
Fixpoint binom (n k : nat) : Z :=
  match n, k with
  | _, O => 1%Z
  | O, S _ => 0%Z
  | S n', S k' => (binom n' k' + binom n' (S k'))%Z
  end.

(** The shapes of the levels of a pyramid of an image of shape [(h, w)], when
    the loop of [build_gaussian_pyramid] runs at most [n] times. *)
Fixpoint level_shapes (n h w : nat) : list (nat * nat) :=
  (h, w) ::
  match n with
  | O => []
  | S n' =>
      if (h <=? MIN_IMG_SIZE) || (w <=? MIN_IMG_SIZE) then []
      else level_shapes n' ((h + 1) / 2) ((w + 1) / 2)
  end.

(** ** Colour images

    An array of shape [(h, w, c)] is held as the list of its [c] planes
    [im[:, :, k]], each of shape [(h, w)]. *)

Definition R : nat := 0.
Definition G : nat := 1.
Definition B : nat := 2.

(** [np.empty(im.shape)]: an array of the shape of [im], whose content is
    what the memory it is given holds, [uninit]. *)
Definition np_empty (im : list image) (uninit : nat -> nat -> nat -> Qc)
  : list image :=
  map (fun cp => mk_image (height (snd cp)) (width (snd cp)) (uninit (fst cp)))
      (combine (seq 0 (length im)) im).

(** The value [v] as an assignment broadcasts it to the shape [(h, w)]. *)
Definition broadcast_to (v : image) (h w : nat) : result image :=
  if ((height v =? h) || (height v =? 1)) && ((width v =? w) || (width v =? 1))
  then Ok (mk_image h w (fun i j =>
             get v (bidx (height v) i) (bidx (width v) j)))
  else Raise ValueError.

(** [out[:, :, color] = v] *)
Definition set_plane (out : list image) (color : nat) (v : image)
  : result (list image) :=
  match nth_error out color with
  | None => Raise IndexError
  | Some p =>
      v' <- broadcast_to v (height p) (width p) ;;
      Ok (firstn color out ++ v' :: skipn (S color) out)
  end.

(** The loop of [_rgb_blend] over the colours that are left. *)
Fixpoint rgb_loop (colors : list nat) (out im1 im2 : list image)
    (mask : list (list bool))
    (max_levels filter_size_im filter_size_mask : Z) : result (list image) :=
  match colors with
  | [] => Ok out
  | color :: colors' =>
      c1 <- py_index im1 color ;;
      c2 <- py_index im2 color ;;
      blended <- pyramid_blending c1 c2 mask max_levels filter_size_im
                                  filter_size_mask ;;
      out' <- set_plane out color blended ;;
      rgb_loop colors' out' im1 im2 mask max_levels filter_size_im
               filter_size_mask
  end.

Definition _rgb_blend (im1 im2 : list image) (mask : list (list bool))
    (max_levels filter_size_im filter_size_mask : Z)
    (uninit : nat -> nat -> nat -> Qc) : result (list image) :=
  let out := np_empty im1 uninit in
  rgb_loop [R; G; B] out im1 im2 mask max_levels filter_size_im
           filter_size_mask.

(** ** The computation in float64

    The functions of the Gaussian pyramid on arrays of binary64 numbers, with
    the arithmetic of the processor: every operation rounds to the nearest
    number, ties to even ([PrimFloat]).  They are what the code computes
    where rounding decides, the arrays of rationals above being what it
    computes up to rounding.

    [ndimage.convolve] computes an element of its output as
    [tmp = 0.0; tmp += input * weight] over the weights of the flipped
    filter, in the order of its memory, and leaves out the weights that are
    not above [DBL_EPSILON] in magnitude.  Every product and every sum is
    rounded (no fused multiply-add, as on x86-64). *)

Abbreviation image64 := (list (list float)).

Definition height64 (im : image64) : nat := length im.
Definition width64 (im : image64) : nat := length (hd [] im).

Definition get64 (im : image64) (i j : nat) : float :=
  nth j (nth i im []) 0%float.

Definition mk_image64 (h w : nat) (f : nat -> nat -> float) : image64 :=
  map (fun i => map (f i) (seq 0 w)) (seq 0 h).

Definition transpose64 (im : image64) : image64 :=
  mk_image64 (width64 im) (height64 im) (fun i j => get64 im j i).

Definition DBL_EPSILON : float := 0x1p-52%float.

(** The weights that ndimage keeps, each with its position in the flipped
    filter, in the order in which they are added. *)
Definition taps (weights : image64) : list (nat * nat * float) :=
  let kh := height64 weights in
  let kw := width64 weights in
  filter (fun t => (DBL_EPSILON <? abs (snd t))%float)
         (flat_map (fun a =>
                      map (fun b =>
                             (a, b, get64 weights (kh - 1 - a) (kw - 1 - b)))
                          (seq 0 kw))
                   (seq 0 kh)).

Definition convolve_reflect64 (input weights : image64) : image64 :=
  let kh := height64 weights in
  let kw := width64 weights in
  let h := height64 input in
  let w := width64 input in
  mk_image64 h w (fun i j =>
    fold_left
      (fun tmp t =>
         (tmp + get64 input
                  (reflect h (Z.of_nat i + Z.of_nat (fst (fst t)) - anchor kh))
                  (reflect w (Z.of_nat j + Z.of_nat (snd (fst t)) - anchor kw))
                * snd t)%float)
      (taps weights) 0%float).

Definition convolve64 (input weights : image64) : result image64 :=
  if (height64 weights =? 0) || (width64 weights =? 0) then Raise RuntimeError
  else Ok (convolve_reflect64 input weights).

Definition subsample64 (im : image64) : image64 :=
  mk_image64 ((height64 im + 1) / 2) ((width64 im + 1) / 2)
             (fun i j => get64 im (2 * i) (2 * j)).

Definition reduce_float64 (im blur_filter : image64) : result image64 :=
  r <- convolve64 im blur_filter ;;
  c <- convolve64 r (transpose64 blur_filter) ;;
  Ok (subsample64 c).

(** The float64 nearest to a 64-bit integer. *)
Definition Z2float (z : Z) : float :=
  match z with
  | Z0 => 0%float
  | Zpos _ => of_uint63 (Uint63.of_Z z)
  | Zneg p =>
      if (z =? - 2 ^ 63)%Z then (- 0x1p63)%float
      else (- of_uint63 (Uint63.of_Z (Zpos p)))%float
  end.

(** [filter_row / filter_row.sum()] is a true division: of the integers as
    float64, with [inf] and [nan] where the sum is 0. *)
Definition _get_filer_row_float64 (filter_size : Z) : image64 :=
  let filter_row := filter_row_after (Z.to_nat (filter_size - 1)) in
  let s := int64 (zsum filter_row) in
  [map (fun x => (Z2float x / Z2float s)%float) filter_row].

Fixpoint gaussian_loop_float64 (n : nat) (pyr : list image64)
    (filter_vec : image64) : result (list image64) :=
  match n with
  | O => Ok pyr
  | S n' =>
      let lst := last pyr [] in
      if (height64 lst <=? MIN_IMG_SIZE) || (width64 lst <=? MIN_IMG_SIZE)
      then Ok pyr
      else
        r <- reduce_float64 lst filter_vec ;;
        gaussian_loop_float64 n' (pyr ++ [r]) filter_vec
  end.

Definition build_gaussian_pyramid_float64 (im : image64)
    (max_levels filter_size : Z) : result (list image64 * image64) :=
  let pyr := [im] in
  let filter_vec := _get_filer_row_float64 filter_size in
  pyr <- gaussian_loop_float64 (Z.to_nat (max_levels - 1)) pyr filter_vec ;;
  Ok (pyr, filter_vec).

(** The array of shape [(h, w)] whose elements are all the float64 [c]. *)
Definition constant_image64 (h w : nat) (c : float) : image64 :=
  mk_image64 h w (fun _ _ => c).

(** What ndimage accumulates for an element whose taps all read [c]. *)
Definition accumulate (weights : image64) (c : float) : float :=
  fold_left (fun tmp t => (tmp + c * snd t)%float) (taps weights) 0%float.

(** The value of [reduce_float64] of a constant image: one pass along the
    rows, one along the columns. *)
Definition reduced_value (weights : image64) (c : float) : float :=
  accumulate (transpose64 weights) (accumulate weights c).

(** * Properties *)

Unset Implicit Arguments.

(** ** Arrays built by [mk_image] *)

Section MkImage.

Lemma bind_Ok {A B : Type} (m : result A) (k : A -> result B) (b : B) :
  bind m k = Ok b -> exists a, m = Ok a /\ k a = Ok b.
Proof.
  destruct m as [a|e]; simpl; intros H; [exists a; auto | discriminate].
Qed.

Lemma height_mk_image h w f : height (mk_image h w f) = h.
Proof. unfold height, mk_image. now rewrite length_map, length_seq. Qed.

Lemma width_mk_image h w f : h <> 0 -> width (mk_image h w f) = w.
Proof.
  unfold width, mk_image. destruct h as [|h]; [congruence|]. intros _.
  simpl. now rewrite length_map, length_seq.
Qed.

Lemma width_mk_image_0 w f : width (mk_image 0 w f) = 0.
Proof. reflexivity. Qed.

Lemma width_mk_image_le h w f : width (mk_image h w f) <= w.
Proof.
  destruct h; [rewrite width_mk_image_0; lia | rewrite width_mk_image; lia].
Qed.

Lemma nth_map_seq {A : Type} (f : nat -> A) (d : A) n s i :
  i < n -> nth i (map f (seq s n)) d = f (s + i).
Proof.
  revert s i. induction n as [|n IH]; intros s i Hi; [lia|].
  destruct i as [|i]; simpl.
  - now rewrite Nat.add_0_r.
  - rewrite IH by lia. f_equal. lia.
Qed.

Lemma nth_mk_image h w f i :
  i < h -> nth i (mk_image h w f) [] = map (f i) (seq 0 w).
Proof. intros Hi. unfold mk_image. now rewrite nth_map_seq. Qed.

Lemma get_mk_image h w f i j :
  i < h -> j < w -> get (mk_image h w f) i j = f i j.
Proof.
  intros Hi Hj. unfold get. rewrite nth_mk_image by assumption.
  now rewrite nth_map_seq.
Qed.

Lemma rect_mk_image h w f : rect (mk_image h w f).
Proof.
  unfold rect. apply Forall_forall. intros r Hr.
  destruct h as [|h]; [destruct Hr|].
  rewrite width_mk_image by lia.
  unfold mk_image in Hr. apply in_map_iff in Hr. destruct Hr as (i & <- & _).
  now rewrite length_map, length_seq.
Qed.

Lemma mk_image_ext h w f g :
  (forall i j, i < h -> j < w -> f i j = g i j) ->
  mk_image h w f = mk_image h w g.
Proof.
  intros H. unfold mk_image. apply map_ext_in. intros i Hi.
  apply in_seq in Hi. apply map_ext_in. intros j Hj. apply in_seq in Hj.
  apply H; lia.
Qed.

Lemma list_tabulate {A : Type} (d : A) (l : list A) :
  map (fun i => nth i l d) (seq 0 (length l)) = l.
Proof.
  induction l as [|a l IH]; simpl; [reflexivity|].
  f_equal. rewrite <- seq_shift, map_map. exact IH.
Qed.

Lemma mk_image_get im :
  rect im -> mk_image (height im) (width im) (get im) = im.
Proof.
  intros Hr. unfold mk_image, height.
  transitivity (map (fun i => nth i im []) (seq 0 (length im)));
    [|apply list_tabulate].
  apply map_ext_in. intros i Hi. apply in_seq in Hi.
  assert (Hlen : length (nth i im []) = width im).
  { unfold rect in Hr. rewrite Forall_forall in Hr. apply Hr, nth_In. lia. }
  rewrite <- Hlen. apply (list_tabulate 0%Qc).
Qed.

End MkImage.

(** ** Shapes *)

Section Shapes.

Lemma height_0_nil (im : image) : height im = 0 -> im = [].
Proof. destruct im; [reflexivity | discriminate]. Qed.

Lemma width_mk_image_same (im : image) f :
  width (mk_image (height im) (width im) f) = width im.
Proof.
  destruct im as [|r im]; [reflexivity|].
  now rewrite width_mk_image by (simpl; discriminate).
Qed.

Lemma height_convolve_reflect im k :
  height (convolve_reflect im k) = height im.
Proof. apply height_mk_image. Qed.

Lemma width_convolve_reflect im k :
  width (convolve_reflect im k) = width im.
Proof. apply width_mk_image_same. Qed.

Lemma height_scale c im : height (scale c im) = height im.
Proof. apply length_map. Qed.

Lemma width_scale c im : width (scale c im) = width im.
Proof. destruct im; [reflexivity | apply length_map]. Qed.

Lemma height_transpose k : height (transpose k) = width k.
Proof. apply height_mk_image. Qed.

Lemma width_transpose k : width k <> 0 -> width (transpose k) = height k.
Proof. intros H. now apply width_mk_image. Qed.

Lemma convolve_Ok im k :
  filter_ok k -> convolve im k = Ok (convolve_reflect im k).
Proof.
  intros [Hh Hw]. unfold convolve.
  apply Nat.eqb_neq in Hh, Hw. now rewrite Hh, Hw.
Qed.

Lemma filter_ok_transpose k : filter_ok k -> filter_ok (transpose k).
Proof.
  intros [Hh Hw]. split.
  - now rewrite height_transpose.
  - now rewrite width_transpose.
Qed.

Lemma filter_ok_scale c k : filter_ok k -> filter_ok (scale c k).
Proof.
  intros [Hh Hw]. split; [now rewrite height_scale | now rewrite width_scale].
Qed.

Lemma reduce_Ok im k :
  filter_ok k ->
  reduce im k =
  Ok (subsample (convolve_reflect (convolve_reflect im k) (transpose k))).
Proof.
  intros Hk. unfold reduce.
  rewrite (convolve_Ok _ _ Hk). simpl.
  now rewrite (convolve_Ok _ _ (filter_ok_transpose _ Hk)).
Qed.

Lemma expand_Ok im k :
  filter_ok k ->
  expand im k =
  Ok (convolve_reflect
        (convolve_reflect (zero_interleave im) (scale (Z2Qc 2) k))
        (scale (Z2Qc 2) (transpose k))).
Proof.
  intros Hk. unfold expand.
  rewrite (convolve_Ok _ _ (filter_ok_scale _ _ Hk)). simpl.
  now rewrite (convolve_Ok _ _ (filter_ok_scale _ _ (filter_ok_transpose _ Hk))).
Qed.

Lemma height_subsample im : height (subsample im) = (height im + 1) / 2.
Proof. apply height_mk_image. Qed.

Lemma width_subsample im : width (subsample im) = (width im + 1) / 2.
Proof.
  unfold subsample. destruct im as [|r im]; [reflexivity|].
  apply width_mk_image. simpl height.
  intros H. apply Nat.div_small_iff in H; lia.
Qed.

Lemma height_zero_interleave im :
  height (zero_interleave im) = height im * 2.
Proof. apply height_mk_image. Qed.

Lemma width_zero_interleave im :
  width (zero_interleave im) = width im * 2.
Proof.
  unfold zero_interleave. destruct im as [|r im]; [reflexivity|].
  apply width_mk_image. simpl. lia.
Qed.

(** The shape of a reduced array: [(ceil (h / 2), ceil (w / 2))]. *)
Lemma shape_reduce im k r :
  reduce im k = Ok r ->
  height r = (height im + 1) / 2 /\ width r = (width im + 1) / 2 /\ rect r.
Proof.
  unfold reduce, convolve. intros H.
  destruct ((height k =? 0) || (width k =? 0)); [discriminate|].
  simpl in H.
  destruct ((height (transpose k) =? 0) || (width (transpose k) =? 0));
    [discriminate|].
  simpl in H. injection H as <-.
  rewrite height_subsample, width_subsample.
  rewrite !height_convolve_reflect, !width_convolve_reflect.
  repeat split. apply rect_mk_image.
Qed.

(** The shape of an expanded array: [(2 h, 2 w)]. *)
Lemma shape_expand im k e :
  expand im k = Ok e ->
  height e = height im * 2 /\ width e = width im * 2 /\ rect e.
Proof.
  unfold expand, convolve. intros H.
  destruct ((height (scale (Z2Qc 2) k) =? 0) || (width (scale (Z2Qc 2) k) =? 0));
    [discriminate|].
  simpl in H.
  destruct ((height (scale (Z2Qc 2) (transpose k)) =? 0)
            || (width (scale (Z2Qc 2) (transpose k)) =? 0));
    [discriminate|].
  injection H as <-.
  rewrite !height_convolve_reflect, !width_convolve_reflect.
  rewrite height_zero_interleave, width_zero_interleave.
  repeat split. apply rect_mk_image.
Qed.

End Shapes.

(** ** The kernel row *)

Section Kernel.

Lemma zsum_cons a l : zsum (a :: l) = (a + zsum l)%Z.
Proof. reflexivity. Qed.

Lemma zsum_app l l' : zsum (l ++ l') = (zsum l + zsum l')%Z.
Proof. induction l as [|a l IH]; simpl; [reflexivity | rewrite IH; lia]. Qed.

Lemma zsum_map_zero {A : Type} (f : A -> Z) l :
  (forall k, In k l -> f k = 0%Z) -> zsum (map f l) = 0%Z.
Proof.
  induction l as [|a l IH]; intros H; simpl; [reflexivity|].
  rewrite H by now left. rewrite IH; [reflexivity|].
  intros k Hk. apply H. now right.
Qed.

Lemma int64_mod z : (int64 z mod 2 ^ 64 = z mod 2 ^ 64)%Z.
Proof.
  unfold int64. rewrite Zminus_mod_idemp_l. f_equal. lia.
Qed.

Lemma int64_zero z : (z mod 2 ^ 64 = 0)%Z -> int64 z = 0%Z.
Proof.
  intros H. unfold int64.
  rewrite <- Zplus_mod_idemp_l, H. reflexivity.
Qed.

Lemma zsum_map_int64 {A : Type} (f : A -> Z) l :
  (zsum (map (fun x => int64 (f x)) l) mod 2 ^ 64
   = zsum (map f l) mod 2 ^ 64)%Z.
Proof.
  induction l as [|a l IH]; [reflexivity|].
  rewrite !map_cons, !zsum_cons.
  rewrite Zplus_mod, IH, int64_mod, <- Zplus_mod. reflexivity.
Qed.

(** One output of the convolution with [[1; 1]] adds two neighbours. *)
Lemma convolve1d_term r n :
  zsum (map (fun k => (nth k r 0 * nth (n - k) [1; 1] 0)%Z) (seq 0 (n + 1)))
  = (before r n + nth n r 0)%Z.
Proof.
  destruct n as [|n].
  - simpl. lia.
  - replace (S n + 1) with (n + 2) by lia.
    rewrite seq_app, map_app, zsum_app. simpl seq.
    rewrite zsum_map_zero.
    + cbn [map zsum fold_right Nat.add before].
      replace (S n - n) with 1 by lia.
      replace (S n - S n) with 0 by lia.
      cbn [nth]. lia.
    + intros k Hk. apply in_seq in Hk.
      replace (S n - k) with (S (S (n - k - 1))) by lia.
      simpl. destruct (n - k - 1); lia.
Qed.

Lemma zsum_nth_seq r :
  zsum (map (fun n => nth n r 0%Z) (seq 0 (length r))) = zsum r.
Proof. now rewrite list_tabulate. Qed.

Lemma zsum_before_seq r :
  zsum (map (before r) (seq 0 (length r + 1))) = zsum r.
Proof.
  replace (length r + 1) with (S (length r)) by lia.
  simpl. rewrite <- seq_shift, map_map. simpl. apply zsum_nth_seq.
Qed.

Lemma zsum_map_add {A : Type} (f g : A -> Z) l :
  zsum (map (fun x => (f x + g x)%Z) l) = (zsum (map f l) + zsum (map g l))%Z.
Proof. induction l as [|a l IH]; simpl; [reflexivity | rewrite IH; lia]. Qed.

Lemma length_convolve1d a b :
  length (convolve1d a b) = length a + length b - 1.
Proof. unfold convolve1d. now rewrite length_map, length_seq. Qed.

Lemma length_filter_row_after n : length (filter_row_after n) = n + 1.
Proof.
  induction n as [|n IH]; [reflexivity|].
  unfold filter_row_after in *. simpl Nat.iter.
  rewrite length_convolve1d, IH. simpl. lia.
Qed.

(** Each iteration doubles the sum of the row, modulo [2 ^ 64]. *)
Lemma zsum_convolve1d r :
  r <> [] ->
  (zsum (convolve1d r [1; 1]) mod 2 ^ 64 = (2 * zsum r) mod 2 ^ 64)%Z.
Proof.
  intros Hr. unfold convolve1d.
  rewrite (zsum_map_int64
             (fun n => zsum (map (fun k => (nth k r 0 * nth (n - k) [1; 1] 0)%Z)
                                 (seq 0 (n + 1))))).
  f_equal.
  rewrite (map_ext _ (fun n => (before r n + nth n r 0)%Z))
    by (intros n; apply convolve1d_term).
  rewrite zsum_map_add.
  replace (length r + length [1%Z; 1%Z] - 1) with (length r + 1)
    by (simpl; lia).
  rewrite zsum_before_seq.
  rewrite seq_app, map_app, zsum_app, zsum_nth_seq.
  cbn [seq map zsum fold_right Nat.add].
  rewrite nth_overflow by lia. lia.
Qed.

Lemma zsum_filter_row_after n :
  (zsum (filter_row_after n) mod 2 ^ 64 = 2 ^ Z.of_nat n mod 2 ^ 64)%Z.
Proof.
  induction n as [|n IH]; [reflexivity|].
  assert (Hne : filter_row_after n <> []).
  { intros E. pose proof (length_filter_row_after n) as H.
    rewrite E in H. simpl in H. lia. }
  change (filter_row_after (S n))
    with (convolve1d (filter_row_after n) [1; 1]%Z).
  rewrite (zsum_convolve1d _ Hne).
  rewrite Zmult_mod, IH, <- Zmult_mod.
  f_equal. rewrite Nat2Z.inj_succ, Z.pow_succ_r by lia. reflexivity.
Qed.

(** From 64 iterations on, the sum of the row wraps around to 0. *)
Lemma int64_zsum_filter_row_large n :
  64 <= n -> int64 (zsum (filter_row_after n)) = 0%Z.
Proof.
  intros Hn. apply int64_zero. rewrite zsum_filter_row_after.
  replace (Z.of_nat n) with (64 + Z.of_nat (n - 64))%Z by lia.
  rewrite Z.pow_add_r by lia.
  rewrite Z.mul_comm. apply Z_mod_mult.
Qed.

Lemma normalized_from_iter fuel r n :
  normalized_from fuel r = true -> n < fuel ->
  normalized_row (Nat.iter n (fun x => convolve1d x [1; 1]%Z) r) = true.
Proof.
  revert r n. induction fuel as [|fuel IH]; intros r n H Hn; [lia|].
  simpl in H. apply andb_prop in H. destruct H as [H0 H1].
  destruct n as [|n]; [exact H0|].
  rewrite Nat.iter_succ_r. apply IH; [exact H1 | lia].
Qed.

Lemma normalized_upto_62 : normalized_from 63 [1%Z] = true.
Proof. vm_compute. reflexivity. Qed.

Lemma length_np_true_divide r s row :
  np_true_divide r s = Ok row -> length row = length r.
Proof.
  unfold np_true_divide. destruct (s =? 0)%Z; [discriminate|].
  intros H. injection H as <-. apply length_map.
Qed.

(** What [_get_filer_row] returns is a row vector of shape
    [(1, max filter_size 1)]. *)
Lemma shape_get_filer_row filter_size k :
  _get_filer_row filter_size = Ok k ->
  height k = 1 /\ width k = Z.to_nat (Z.max filter_size 1) /\ rect k.
Proof.
  unfold _get_filer_row. intros H.
  apply bind_Ok in H. destruct H as (row & Hrow & H). injection H as <-.
  apply length_np_true_divide in Hrow.
  rewrite length_filter_row_after in Hrow.
  repeat split.
  - unfold width. simpl. lia.
  - constructor; [reflexivity | constructor].
Qed.

Lemma filter_ok_get_filer_row filter_size k :
  _get_filer_row filter_size = Ok k -> filter_ok k.
Proof.
  intros H. apply shape_get_filer_row in H. destruct H as (Hh & Hw & _).
  split; lia.
Qed.

(** Up to [filter_size = 63] the kernel exists and its elements sum to 1. *)
Lemma get_filer_row_normalized filter_size :
  (filter_size <= 63)%Z ->
  exists k, _get_filer_row filter_size = Ok k /\ np_sum k = 1%Qc.
Proof.
  intros Hf.
  assert (Hn : Z.to_nat (filter_size - 1) < 63) by lia.
  pose proof (normalized_from_iter _ _ _ normalized_upto_62 Hn) as H.
  unfold normalized_row in H.
  unfold _get_filer_row, filter_row_after.
  destruct (np_true_divide _ _) as [row|e]; [|discriminate].
  exists [row]. split; [reflexivity|].
  now apply Qc_eq_bool_correct.
Qed.

Lemma sum_square_64 :
  match _get_filer_row 64 with
  | Ok k => Qc_eq_bool (np_sum k * np_sum k) 1
  | Raise _ => false
  end = true.
Proof. vm_compute. reflexivity. Qed.

(** From [filter_size = 65] on there is no finite kernel. *)
Lemma get_filer_row_overflow filter_size :
  (65 <= filter_size)%Z -> _get_filer_row filter_size = Raise NonFinite.
Proof.
  intros Hf. unfold _get_filer_row.
  rewrite int64_zsum_filter_row_large by lia. reflexivity.
Qed.

(** The square of the sum of a kernel that [_get_filer_row] returns is 1. *)
Lemma get_filer_row_sum_square filter_size k :
  _get_filer_row filter_size = Ok k -> (np_sum k * np_sum k)%Qc = 1%Qc.
Proof.
  intros Hk.
  destruct (Z_le_gt_dec filter_size 63) as [H|H].
  - destruct (get_filer_row_normalized filter_size H) as (k' & Hk' & Hs).
    rewrite Hk in Hk'. injection Hk' as <-. rewrite Hs. ring.
  - destruct (Z.eq_dec filter_size 64) as [->|Hne].
    + pose proof sum_square_64 as E. rewrite Hk in E.
      now apply Qc_eq_bool_correct.
    + rewrite get_filer_row_overflow in Hk by lia. discriminate.
Qed.

End Kernel.

(** ** The Gaussian pyramid *)

Section Gaussian.

Variable filter_vec : image.

Lemma gaussian_levels_nonempty pyr :
  gaussian_levels filter_vec pyr -> pyr <> [].
Proof. intros H; inversion H; discriminate. Qed.

Lemma gaussian_levels_snoc pyr r :
  gaussian_levels filter_vec pyr ->
  MIN_IMG_SIZE < height (last pyr []) ->
  MIN_IMG_SIZE < width (last pyr []) ->
  reduce (last pyr []) filter_vec = Ok r ->
  gaussian_levels filter_vec (pyr ++ [r]).
Proof.
  induction 1 as [g | g g' l Hh Hw Hr Hl IH]; intros Hbh Hbw Hred.
  - simpl in *. constructor; auto; constructor.
  - change (last (g :: g' :: l) []) with (last (g' :: l) []) in *.
    simpl app. constructor; auto.
Qed.

Lemma gaussian_levels_nth pyr i :
  gaussian_levels filter_vec pyr -> i + 1 < length pyr ->
  MIN_IMG_SIZE < height (nth i pyr []) /\
  MIN_IMG_SIZE < width (nth i pyr []) /\
  reduce (nth i pyr []) filter_vec = Ok (nth (i + 1) pyr []).
Proof.
  intros H. revert i.
  induction H as [g | g g' l Hh Hw Hr Hl IH]; intros i Hi.
  - simpl in Hi. lia.
  - destruct i as [|i]; [simpl; auto|].
    apply (IH i). simpl in Hi |- *. lia.
Qed.

(** What the loop of [build_gaussian_pyramid] returns. *)
Lemma gaussian_loop_spec n pyr pyr' :
  gaussian_levels filter_vec pyr ->
  gaussian_loop n pyr filter_vec = Ok pyr' ->
  gaussian_levels filter_vec pyr' /\
  hd [] pyr' = hd [] pyr /\
  length pyr <= length pyr' <= length pyr + n /\
  (length pyr' < length pyr + n ->
   height (last pyr' []) <= MIN_IMG_SIZE \/
   width (last pyr' []) <= MIN_IMG_SIZE).
Proof.
  revert pyr. induction n as [|n IH]; intros pyr Hl H.
  - injection H as <-. repeat split; auto; lia.
  - simpl in H.
    destruct (height (last pyr []) <=? MIN_IMG_SIZE) eqn:Eh.
    { injection H as <-. apply Nat.leb_le in Eh.
      repeat split; auto; lia. }
    destruct (width (last pyr []) <=? MIN_IMG_SIZE) eqn:Ew.
    { injection H as <-. apply Nat.leb_le in Ew.
      repeat split; auto; lia. }
    simpl in H. apply bind_Ok in H. destruct H as (r & Hr & H).
    apply Nat.leb_gt in Eh, Ew.
    apply IH in H; [|now apply gaussian_levels_snoc].
    destruct H as (H1 & H2 & H3 & H4).
    rewrite length_app in H3, H4. simpl in H3, H4.
    split; [exact H1|]. split; [|split; [lia|]].
    + rewrite H2. pose proof (gaussian_levels_nonempty _ Hl).
      destruct pyr; [congruence | reflexivity].
    + intros. apply H4. lia.
Qed.

(** The loop always returns when [reduce] accepts the filter. *)
Lemma gaussian_loop_total n pyr :
  filter_ok filter_vec -> exists pyr', gaussian_loop n pyr filter_vec = Ok pyr'.
Proof.
  intros Hk. revert pyr. induction n as [|n IH]; intros pyr.
  - now exists pyr.
  - simpl.
    destruct ((height (last pyr []) <=? MIN_IMG_SIZE)
              || (width (last pyr []) <=? MIN_IMG_SIZE)); [now exists pyr|].
    rewrite (reduce_Ok _ _ Hk). simpl. apply IH.
Qed.

End Gaussian.

Section GaussianPyramid.

Lemma build_gaussian_pyramid_spec im max_levels filter_size filter_vec :
  _get_filer_row filter_size = Ok filter_vec ->
  exists pyr,
    build_gaussian_pyramid im max_levels filter_size = Ok (pyr, filter_vec) /\
    gaussian_levels filter_vec pyr /\
    hd [] pyr = im /\
    1 <= length pyr <= 1 + Z.to_nat (max_levels - 1) /\
    (length pyr < 1 + Z.to_nat (max_levels - 1) ->
     height (last pyr []) <= MIN_IMG_SIZE \/
     width (last pyr []) <= MIN_IMG_SIZE).
Proof.
  intros Hk. unfold build_gaussian_pyramid. rewrite Hk. simpl.
  destruct (gaussian_loop_total filter_vec (Z.to_nat (max_levels - 1)) [im]
              (filter_ok_get_filer_row _ _ Hk)) as (pyr & Hp).
  exists pyr. rewrite Hp. simpl. split; [reflexivity|].
  apply gaussian_loop_spec in Hp; [|constructor].
  simpl in Hp. tauto.
Qed.

Lemma build_gaussian_pyramid_Ok im max_levels filter_size pyr filter_vec :
  build_gaussian_pyramid im max_levels filter_size = Ok (pyr, filter_vec) ->
  _get_filer_row filter_size = Ok filter_vec.
Proof.
  unfold build_gaussian_pyramid. intros H.
  apply bind_Ok in H. destruct H as (k & Hk & H).
  apply bind_Ok in H. destruct H as (p & Hp & H).
  injection H as _ <-. exact Hk.
Qed.

End GaussianPyramid.

(** C4.  With [1 <= max_levels] and a filter size for which the kernel exists,
    [build_gaussian_pyramid] returns a pyramid that starts with the image, has
    between 1 and [max_levels] levels, halves (rounding up) the height and the
    width from each level to the next, reduces only levels larger than
    [MIN_IMG_SIZE = 16] in both dimensions, and stops short of [max_levels]
    only at a level whose height or width is at most 16.  A 32x32 image with
    [max_levels = 3] gives two levels, 32x32 and 16x16. *)
Theorem gaussian_pyramid_shape_invariant :
  forall (im : image) (max_levels filter_size : Z) (filter_vec : image),
    (1 <= max_levels)%Z ->
    _get_filer_row filter_size = Ok filter_vec ->
    exists pyr,
      build_gaussian_pyramid im max_levels filter_size = Ok (pyr, filter_vec) /\
      nth 0 pyr [] = im /\
      1 <= length pyr /\
      (Z.of_nat (length pyr) <= max_levels)%Z /\
      (forall i, i + 1 < length pyr ->
         height (nth (i + 1) pyr []) = (height (nth i pyr []) + 1) / 2 /\
         width (nth (i + 1) pyr []) = (width (nth i pyr []) + 1) / 2 /\
         16 < height (nth i pyr []) /\ 16 < width (nth i pyr [])) /\
      ((Z.of_nat (length pyr) < max_levels)%Z ->
         height (last pyr []) <= 16 \/ width (last pyr []) <= 16) /\
      (height im = 32 -> width im = 32 -> max_levels = 3%Z ->
         map shape pyr = [(32, 32); (16, 16)]).
Proof.
  intros im max_levels filter_size filter_vec HL Hk.
  destruct (build_gaussian_pyramid_spec im max_levels _ _ Hk)
    as (pyr & Hb & Hlev & Hhd & Hlen & Hstop).
  assert (Hnth : forall i, i + 1 < length pyr ->
     height (nth (i + 1) pyr []) = (height (nth i pyr []) + 1) / 2 /\
     width (nth (i + 1) pyr []) = (width (nth i pyr []) + 1) / 2 /\
     16 < height (nth i pyr []) /\ 16 < width (nth i pyr [])).
  { intros i Hi. destruct (gaussian_levels_nth _ _ _ Hlev Hi) as (Hh & Hw & Hr).
    apply shape_reduce in Hr. unfold MIN_IMG_SIZE in *. tauto. }
  assert (H0 : nth 0 pyr [] = im).
  { destruct pyr; [simpl in Hlen; lia | exact Hhd]. }
  exists pyr. repeat split; try tauto; try lia.
  - apply Hnth; assumption.
  - apply Hnth; assumption.
  - apply Hnth; assumption.
  - apply Hnth; assumption.
  - intros H. apply Hstop. lia.
  - intros Hh Hw ->. simpl in Hlen, Hstop.
    destruct pyr as [|g0 [|g1 [|g2 [|g3 pyr]]]]; simpl in Hlen; try lia.
    + simpl in H0, Hstop. subst g0. unfold MIN_IMG_SIZE in Hstop. lia.
    + simpl in H0. subst g0.
      destruct (Hnth 0) as (E1 & E2 & _); [simpl; lia|].
      simpl in E1, E2. unfold shape. simpl map.
      rewrite E1, E2, Hh, Hw. reflexivity.
    + simpl in H0. subst g0.
      destruct (Hnth 0) as (E1 & E2 & _); [simpl; lia|].
      destruct (Hnth 1) as (_ & _ & E3 & _); [simpl; lia|].
      simpl in E1, E2, E3. rewrite Hh in E1. simpl in E1. lia.
Qed.

(** An instance: a 32x32 image of zeros, three levels asked, a kernel of size 3. *)
Lemma gaussian_pyramid_shape_invariant_witness :
  exists pyr,
    build_gaussian_pyramid (zeros 32 32) 3 3 = Ok (pyr, kernel_of 3) /\
    map shape pyr = [(32, 32); (16, 16)].
Proof.
  destruct (gaussian_pyramid_shape_invariant (zeros 32 32) 3 3 (kernel_of 3))
    as (pyr & Hb & _ & _ & _ & _ & _ & Hs).
  - lia.
  - vm_compute. reflexivity.
  - exists pyr. split; [exact Hb | apply Hs; reflexivity].
Defined.

(** ** Elementwise operations *)

Section Broadcast.

Lemma bidx_lt dim i : i < dim -> bidx dim i = i.
Proof.
  unfold bidx. intros H. destruct (dim =? 1) eqn:E; [|reflexivity].
  apply Nat.eqb_eq in E. lia.
Qed.

Lemma bdim_same a : bdim a a = Ok a.
Proof. unfold bdim. now rewrite Nat.eqb_refl. Qed.

Lemma bdim_mismatch a b : a <> b -> a <> 1 -> b <> 1 -> bdim a b = Raise ValueError.
Proof.
  unfold bdim. intros H Ha Hb.
  apply Nat.eqb_neq in H, Ha, Hb. now rewrite H, Ha, Hb.
Qed.

(** On arrays of one shape the operation is taken element by element. *)
Lemma broadcast2_same_shape op a b :
  height a = height b -> width a = width b ->
  broadcast2 op a b =
  Ok (mk_image (height a) (width a) (fun i j => op (get a i j) (get b i j))).
Proof.
  intros Hh Hw. unfold broadcast2.
  rewrite <- Hh, <- Hw, !bdim_same. simpl. f_equal.
  apply mk_image_ext. intros i j Hi Hj. now rewrite !bidx_lt.
Qed.

Lemma broadcast2_Raise_height op a b :
  height a <> height b -> height a <> 1 -> height b <> 1 ->
  broadcast2 op a b = Raise ValueError.
Proof.
  intros. unfold broadcast2. now rewrite bdim_mismatch.
Qed.

Lemma broadcast2_Raise_width op a b :
  width a <> width b -> width a <> 1 -> width b <> 1 ->
  broadcast2 op a b = Raise ValueError.
Proof.
  intros. unfold broadcast2.
  destruct (bdim (height a) (height b)) as [h|e] eqn:E; simpl.
  - now rewrite bdim_mismatch.
  - unfold bdim in E.
    destruct (height a =? height b); [discriminate|].
    destruct (height a =? 1); [discriminate|].
    destruct (height b =? 1); [discriminate|]. congruence.
Qed.

(** An operation of two arrays raises nothing but [ValueError]. *)
Lemma broadcast2_Raise op a b e : broadcast2 op a b = Raise e -> e = ValueError.
Proof.
  unfold broadcast2, bdim. intros H.
  repeat match type of H with
         | context [if ?c then _ else _] => destruct c; simpl in H
         end; congruence.
Qed.

Lemma scale_r_1 im : scale_r im 1%Qc = im.
Proof.
  unfold scale_r. rewrite <- (map_id im) at 2. apply map_ext. intros r.
  rewrite <- (map_id r) at 2. apply map_ext. intros x. ring.
Qed.

End Broadcast.

(** ** List comprehensions *)

Section Comprehension.

Context {A B : Type}.

Lemma comprehension_Ok (f : A -> result B) l bs (da : A) (db : B) :
  comprehension f l = Ok bs ->
  length bs = length l /\
  forall i, i < length l -> f (nth i l da) = Ok (nth i bs db).
Proof.
  revert bs. induction l as [|a l IH]; intros bs H; simpl in H.
  - injection H as <-. split; [reflexivity | simpl; lia].
  - apply bind_Ok in H. destruct H as (b & Hb & H).
    apply bind_Ok in H. destruct H as (bs' & Hbs & H). injection H as <-.
    destruct (IH _ Hbs) as (Hlen & Hnth). split; [simpl; lia|].
    intros [|i] Hi; simpl; [exact Hb | apply Hnth; simpl in Hi; lia].
Qed.

Lemma comprehension_intro (f : A -> result B) l bs (da : A) (db : B) :
  length bs = length l ->
  (forall i, i < length l -> f (nth i l da) = Ok (nth i bs db)) ->
  comprehension f l = Ok bs.
Proof.
  revert bs. induction l as [|a l IH]; intros bs Hlen H.
  - destruct bs; [reflexivity | discriminate].
  - destruct bs as [|b bs]; [discriminate|].
    assert (H0 : f a = Ok b) by (apply (H 0); simpl; lia).
    simpl. rewrite H0. simpl.
    rewrite (IH bs); [reflexivity | simpl in Hlen; lia |].
    intros i Hi. apply (H (S i)). simpl. lia.
Qed.

(** When an element raises [e] and no element raises anything else, the
    comprehension raises [e]. *)
Lemma comprehension_Raise (f : A -> result B) l e :
  (forall a, In a l -> forall e', f a = Raise e' -> e' = e) ->
  (exists a, In a l /\ f a = Raise e) ->
  comprehension f l = Raise e.
Proof.
  induction l as [|a l IH]; intros Hall (x & Hx & Hfx); [destruct Hx|].
  simpl. destruct (f a) as [b|e'] eqn:Ea; simpl.
  - rewrite IH; [reflexivity | |].
    + intros a' Ha'. apply Hall. now right.
    + destruct Hx as [->|Hx]; [congruence|]. now exists x.
  - f_equal. apply (Hall a); [now left | exact Ea].
Qed.

End Comprehension.

(** ** The Laplacian pyramid *)

Section LaplacianLevel.

Variable filter_vec : image.
Hypothesis filter_vec_ok : filter_ok filter_vec.

Variables g g' : image.
Hypothesis g_height : MIN_IMG_SIZE < height g.
Hypothesis g_width : MIN_IMG_SIZE < width g.
Hypothesis g_reduce : reduce g filter_vec = Ok g'.

Lemma even_half_double n : Nat.even n = true -> (n + 1) / 2 * 2 = n.
Proof.
  intros H. apply Nat.even_spec in H. destruct H as (m & ->).
  replace (2 * m + 1) with (1 + m * 2) by lia.
  rewrite Nat.div_add by lia. simpl. lia.
Qed.

Lemma odd_half_double n : Nat.odd n = true -> (n + 1) / 2 * 2 = n + 1.
Proof.
  intros H. apply Nat.odd_spec in H. destruct H as (m & ->).
  replace (2 * m + 1 + 1) with (0 + (m + 1) * 2) by lia.
  rewrite Nat.div_add by lia. simpl. lia.
Qed.

Lemma expand_next_level :
  exists e,
    expand g' filter_vec = Ok e /\ rect e /\
    height e = (height g + 1) / 2 * 2 /\ width e = (width g + 1) / 2 * 2.
Proof using filter_vec_ok g_height g_width g_reduce.
  destruct (shape_reduce _ _ _ g_reduce) as (Hh & Hw & _).
  rewrite (expand_Ok _ _ filter_vec_ok). eexists. split; [reflexivity|].
  destruct (shape_expand g' filter_vec _ (expand_Ok _ _ filter_vec_ok))
    as (Eh & Ew & Er).
  rewrite Eh, Ew, Hh, Hw. auto.
Qed.

(** With even height and width the expansion has the shape of the level and
    is subtracted element by element. *)
Lemma laplacian_level_even :
  Nat.even (height g) = true -> Nat.even (width g) = true ->
  exists e,
    expand g' filter_vec = Ok e /\ rect e /\
    height e = height g /\ width e = width g /\
    laplacian_level filter_vec g g' =
    Ok (mk_image (height g) (width g)
                 (fun i j => (get g i j - get e i j)%Qc)).
Proof using filter_vec_ok g_height g_width g_reduce.
  intros Hh Hw. destruct expand_next_level as (e & He & Hr & Eh & Ew).
  rewrite even_half_double in Eh, Ew by assumption.
  exists e. repeat split; auto.
  unfold laplacian_level. rewrite He. simpl.
  unfold np_sub. now rewrite broadcast2_same_shape by congruence.
Qed.

(** With an odd height or width the subtraction raises [ValueError]. *)
Lemma laplacian_level_odd :
  Nat.odd (height g) = true \/ Nat.odd (width g) = true ->
  laplacian_level filter_vec g g' = Raise ValueError.
Proof using filter_vec_ok g_height g_width g_reduce.
  intros H. destruct expand_next_level as (e & He & Hr & Eh & Ew).
  unfold laplacian_level. rewrite He. simpl. unfold np_sub.
  unfold MIN_IMG_SIZE in *.
  destruct H as [H|H].
  - rewrite odd_half_double in Eh by assumption.
    apply broadcast2_Raise_height; lia.
  - rewrite odd_half_double in Ew by assumption.
    apply broadcast2_Raise_width; lia.
Qed.

Lemma laplacian_level_Raise e :
  laplacian_level filter_vec g g' = Raise e -> e = ValueError.
Proof using filter_vec_ok g_height g_width g_reduce.
  destruct expand_next_level as (x & He & _).
  unfold laplacian_level. rewrite He. simpl. apply broadcast2_Raise.
Qed.

Lemma laplacian_level_Ok l :
  laplacian_level filter_vec g g' = Ok l ->
  Nat.even (height g) = true /\ Nat.even (width g) = true.
Proof using filter_vec_ok g_height g_width g_reduce.
  intros H.
  destruct (Nat.even (height g)) eqn:Eh.
  - destruct (Nat.even (width g)) eqn:Ew; [auto|].
    rewrite laplacian_level_odd in H; [discriminate|].
    right. unfold Nat.odd. now rewrite Ew.
  - rewrite laplacian_level_odd in H; [discriminate|].
    left. unfold Nat.odd. now rewrite Eh.
Qed.

End LaplacianLevel.

Section LaplacianPyramid.

Lemma py_index_nth {A : Type} (l : list A) i d :
  i < length l -> py_index l i = Ok (nth i l d).
Proof.
  intros H. unfold py_index.
  destruct (nth_error l i) as [a|] eqn:E.
  - f_equal. symmetry. now apply nth_error_nth.
  - apply nth_error_None in E. lia.
Qed.

Lemma py_index_Raise {A : Type} (l : list A) i :
  length l <= i -> py_index l i = Raise IndexError.
Proof.
  intros H. unfold py_index. apply nth_error_None in H. now rewrite H.
Qed.

Lemma nth_pred_last {A : Type} (l : list A) d :
  nth (length l - 1) l d = last l d.
Proof.
  induction l as [|a [|b l] IH]; try reflexivity.
  change (last (a :: b :: l) d) with (last (b :: l) d). rewrite <- IH.
  simpl. now rewrite Nat.sub_0_r.
Qed.

Lemma comprehension_ext {A B : Type} (f f' : A -> result B) l :
  (forall a, In a l -> f a = f' a) -> comprehension f l = comprehension f' l.
Proof.
  induction l as [|a l IH]; intros H; [reflexivity|]. simpl.
  rewrite (H a) by now left. rewrite IH; [reflexivity|].
  intros x Hx. apply H. now right.
Qed.

(** [build_laplacian_pyramid] in terms of the levels of the Gaussian pyramid. *)
Lemma build_laplacian_pyramid_levels im max_levels filter_size gauss filter_vec :
  build_gaussian_pyramid im max_levels filter_size = Ok (gauss, filter_vec) ->
  gauss <> [] ->
  build_laplacian_pyramid im max_levels filter_size =
  (lap_pyr <- comprehension
                (fun i => laplacian_level filter_vec (nth i gauss [])
                                          (nth (i + 1) gauss []))
                (seq 0 (length gauss - 1)) ;;
   Ok (lap_pyr ++ [last gauss []], filter_vec)).
Proof.
  intros Hg Hne. unfold build_laplacian_pyramid. rewrite Hg. simpl.
  assert (Hlen : 0 < length gauss) by (destruct gauss; [congruence | simpl; lia]).
  rewrite (py_index_nth gauss (length gauss - 1) []) by lia.
  rewrite nth_pred_last. simpl.
  erewrite comprehension_ext; [reflexivity|].
  intros i Hi. apply in_seq in Hi.
  rewrite (py_index_nth gauss i []) by lia. simpl.
  rewrite (py_index_nth gauss (i + 1) []) by lia. reflexivity.
Qed.

End LaplacianPyramid.

Section LaplacianBuild.

Variables (im : image) (max_levels filter_size : Z).
Variables (gauss : list image) (filter_vec : image).
Hypothesis gauss_built :
  build_gaussian_pyramid im max_levels filter_size = Ok (gauss, filter_vec).

Lemma built_levels :
  gaussian_levels filter_vec gauss /\ filter_ok filter_vec /\ hd [] gauss = im.
Proof.
  pose proof (build_gaussian_pyramid_Ok _ _ _ _ _ gauss_built) as Hk.
  destruct (build_gaussian_pyramid_spec im max_levels _ _ Hk)
    as (pyr & Hb & Hlev & Hhd & _).
  rewrite gauss_built in Hb. injection Hb as <-.
  repeat split; auto; now apply (filter_ok_get_filer_row filter_size).
Qed.

Lemma built_level i :
  i + 1 < length gauss ->
  MIN_IMG_SIZE < height (nth i gauss []) /\
  MIN_IMG_SIZE < width (nth i gauss []) /\
  reduce (nth i gauss []) filter_vec = Ok (nth (i + 1) gauss []).
Proof. apply gaussian_levels_nth, built_levels. Qed.

Lemma built_nonempty : gauss <> [].
Proof. apply (gaussian_levels_nonempty filter_vec), built_levels. Qed.

Lemma build_laplacian_even :
  (forall i, i + 1 < length gauss ->
     Nat.even (height (nth i gauss [])) = true /\
     Nat.even (width (nth i gauss [])) = true) ->
  build_laplacian_pyramid im max_levels filter_size =
  Ok (map (laplacian_at filter_vec gauss) (seq 0 (length gauss - 1))
      ++ [last gauss []], filter_vec).
Proof.
  intros Heven.
  rewrite (build_laplacian_pyramid_levels _ _ _ _ _ gauss_built built_nonempty).
  rewrite (comprehension_intro _ _
             (map (laplacian_at filter_vec gauss) (seq 0 (length gauss - 1)))
             0 []); [reflexivity | now rewrite length_map |].
  rewrite length_seq. intros i Hi.
  rewrite seq_nth by assumption. rewrite nth_map_seq by assumption. simpl.
  destruct (built_level i) as (Hh & Hw & Hr); [lia|].
  destruct (Heven i) as (Eh & Ew); [lia|].
  destruct built_levels as (_ & Hk & _).
  destruct (laplacian_level_even filter_vec Hk _ _ Hh Hw Hr Eh Ew)
    as (e & _ & _ & _ & _ & Hl).
  unfold laplacian_at. now rewrite Hl.
Qed.

Lemma build_laplacian_odd :
  (exists i, i + 1 < length gauss /\
     (Nat.odd (height (nth i gauss [])) = true \/
      Nat.odd (width (nth i gauss [])) = true)) ->
  build_laplacian_pyramid im max_levels filter_size = Raise ValueError.
Proof.
  intros (i & Hi & Hodd).
  rewrite (build_laplacian_pyramid_levels _ _ _ _ _ gauss_built built_nonempty).
  destruct built_levels as (_ & Hk & _).
  rewrite (comprehension_Raise _ _ ValueError); [reflexivity | |].
  - intros a Ha e He. apply in_seq in Ha.
    destruct (built_level a) as (Hh & Hw & Hr); [lia|].
    now apply (laplacian_level_Raise filter_vec Hk _ _ Hh Hw Hr e).
  - exists i. split; [apply in_seq; lia|].
    destruct (built_level i) as (Hh & Hw & Hr); [lia|].
    now apply (laplacian_level_odd filter_vec Hk _ _ Hh Hw Hr).
Qed.

End LaplacianBuild.

(** C1 (amended).  [build_laplacian_pyramid] does not crop.  For the Gaussian
    pyramid [gauss] of the image: when every level but the last has an even
    height and an even width, the expansion of level [i + 1] has exactly the
    shape of level [i], Laplacian level [i] is level [i] minus that expansion,
    element by element, and the last Laplacian level is the last Gaussian
    level; when some level but the last has an odd height or an odd width,
    [build_laplacian_pyramid] raises [ValueError] and returns no pyramid. *)
Theorem laplacian_pyramid_without_crop :
  forall (im : image) (max_levels filter_size : Z)
         (gauss : list image) (filter_vec : image),
    build_gaussian_pyramid im max_levels filter_size = Ok (gauss, filter_vec) ->
    ((forall i, i + 1 < length gauss ->
        Nat.even (height (nth i gauss [])) = true /\
        Nat.even (width (nth i gauss [])) = true) ->
     exists lap,
       build_laplacian_pyramid im max_levels filter_size = Ok (lap, filter_vec) /\
       length lap = length gauss /\
       (forall i, i + 1 < length gauss ->
          exists e,
            expand (nth (i + 1) gauss []) filter_vec = Ok e /\
            shape e = shape (nth i gauss []) /\
            nth i lap [] =
            mk_image (height (nth i gauss [])) (width (nth i gauss []))
                     (fun r c => (get (nth i gauss []) r c - get e r c)%Qc)) /\
       last lap [] = last gauss []) /\
    ((exists i, i + 1 < length gauss /\
        (Nat.odd (height (nth i gauss [])) = true \/
         Nat.odd (width (nth i gauss [])) = true)) ->
     build_laplacian_pyramid im max_levels filter_size = Raise ValueError).
Proof.
  intros im max_levels filter_size gauss filter_vec Hg. split.
  - intros Heven.
    pose proof (built_nonempty _ _ _ _ _ Hg) as Hne.
    assert (Hlen : 0 < length gauss)
      by (destruct gauss; [congruence | simpl; lia]).
    eexists. split; [apply (build_laplacian_even _ _ _ _ _ Hg Heven)|].
    split; [|split].
    + rewrite length_app, length_map, length_seq. simpl. lia.
    + intros i Hi.
      destruct (built_level _ _ _ _ _ Hg i Hi) as (Hh & Hw & Hr).
      destruct (Heven i Hi) as (Eh & Ew).
      destruct (built_levels _ _ _ _ _ Hg) as (_ & Hk & _).
      destruct (laplacian_level_even filter_vec Hk _ _ Hh Hw Hr Eh Ew)
        as (e & He & _ & Hhe & Hwe & Hl).
      exists e. split; [exact He|]. split; [unfold shape; congruence|].
      rewrite app_nth1 by (rewrite length_map, length_seq; lia).
      rewrite nth_map_seq by lia. simpl.
      unfold laplacian_at. now rewrite Hl.
    + now rewrite last_last.
  - apply (build_laplacian_odd _ _ _ _ _ Hg).
Qed.

(** Instances: 32x32 has a Laplacian pyramid of two levels; for 17x17 the
    subtraction raises. *)
Lemma laplacian_pyramid_without_crop_witness :
  (exists lap,
     build_laplacian_pyramid (zeros 32 32) 3 3 = Ok (lap, kernel_of 3) /\
     length lap = 2) /\
  build_laplacian_pyramid (zeros 17 17) 2 3 = Raise ValueError.
Proof.
  split.
  - destruct (laplacian_pyramid_without_crop
                (zeros 32 32) 3 3
                (levels_of (build_gaussian_pyramid (zeros 32 32) 3 3))
                (kernel_of 3)) as [Ha _].
    + vm_compute. reflexivity.
    + destruct Ha as (lap & Hb & Hlen & _).
      * intros i Hi.
        assert (E : length (levels_of (build_gaussian_pyramid (zeros 32 32) 3 3)) = 2)
          by (vm_compute; reflexivity).
        rewrite E in Hi. destruct i as [|i]; [|lia].
        split; vm_compute; reflexivity.
      * exists lap. split; [exact Hb|]. rewrite Hlen. vm_compute. reflexivity.
  - destruct (laplacian_pyramid_without_crop
                (zeros 17 17) 2 3
                (levels_of (build_gaussian_pyramid (zeros 17 17) 2 3))
                (kernel_of 3)) as [_ Hb].
    + vm_compute. reflexivity.
    + apply Hb. exists 0. split; [vm_compute; lia|].
      left. vm_compute. reflexivity.
Defined.

(** C1, as stated, fails: the Gaussian pyramid of a 34x34 image with three
    levels has the intermediate level 17x17, whose expansion from 9x9 is
    18x18; nothing is cropped and the subtraction raises. *)
Lemma laplacian_pyramid_crop_counterexample :
  map shape (levels_of (build_gaussian_pyramid (zeros 34 34) 3 3))
  = [(34, 34); (17, 17); (9, 9)] /\
  build_laplacian_pyramid (zeros 34 34) 3 3 = Raise ValueError /\
  ~ (exists lap filter_vec,
       build_laplacian_pyramid (zeros 34 34) 3 3 = Ok (lap, filter_vec)).
Proof.
  assert (H : build_laplacian_pyramid (zeros 34 34) 3 3 = Raise ValueError)
    by (vm_compute; reflexivity).
  split; [vm_compute; reflexivity|]. split; [exact H|].
  intros (lap & fv & E). rewrite H in E. discriminate.
Qed.

(** ** Reconstruction *)

Section RoundTrip.

Variables (im : image) (max_levels filter_size : Z).
Variables (gauss lap : list image) (filter_vec : image).
Hypothesis im_rect : rect im.
Hypothesis gauss_built :
  build_gaussian_pyramid im max_levels filter_size = Ok (gauss, filter_vec).
Hypothesis lap_built :
  build_laplacian_pyramid im max_levels filter_size = Ok (lap, filter_vec).

Lemma mk_image_eq g f :
  rect g ->
  (forall i j, i < height g -> j < width g -> f i j = get g i j) ->
  mk_image (height g) (width g) f = g.
Proof.
  intros Hr H. rewrite <- (mk_image_get g Hr) at 3. now apply mk_image_ext.
Qed.

Lemma built_rect i : i < length gauss -> rect (nth i gauss []).
Proof using im_rect gauss_built.
  induction i as [|i IH]; intros Hi.
  - destruct (built_levels _ _ _ _ _ gauss_built) as (_ & _ & Hhd).
    destruct gauss; [simpl in Hi; lia|]. simpl in *. now subst.
  - destruct (built_level _ _ _ _ _ gauss_built i) as (_ & _ & Hr); [lia|].
    apply shape_reduce in Hr. replace (S i) with (i + 1) by lia. tauto.
Qed.

Lemma lap_length : length lap = length gauss.
Proof using gauss_built lap_built.
  pose proof (built_nonempty _ _ _ _ _ gauss_built) as Hne.
  pose proof lap_built as H.
  rewrite (build_laplacian_pyramid_levels _ _ _ _ _ gauss_built Hne) in H.
  apply bind_Ok in H. destruct H as (lp & Hlp & H). injection H as H. rewrite <- H.
  apply (comprehension_Ok _ _ _ 0 []) in Hlp. destruct Hlp as (Hlen & _).
  rewrite length_seq in Hlen. rewrite length_app. simpl.
  destruct gauss; [congruence | simpl in *; lia].
Qed.

Lemma lap_last : nth (length gauss - 1) lap [] = nth (length gauss - 1) gauss [].
Proof using gauss_built lap_built.
  pose proof (built_nonempty _ _ _ _ _ gauss_built) as Hne.
  pose proof lap_built as H.
  rewrite (build_laplacian_pyramid_levels _ _ _ _ _ gauss_built Hne) in H.
  apply bind_Ok in H. destruct H as (lp & Hlp & H). injection H as H. rewrite <- H.
  apply (comprehension_Ok _ _ _ 0 []) in Hlp. destruct Hlp as (Hlen & _).
  rewrite length_seq in Hlen.
  rewrite app_nth2 by lia.
  replace (length gauss - 1 - length lp) with 0 by lia. simpl.
  symmetry. apply nth_pred_last.
Qed.

Lemma lap_level i :
  i + 1 < length gauss ->
  laplacian_level filter_vec (nth i gauss []) (nth (i + 1) gauss [])
  = Ok (nth i lap []).
Proof using gauss_built lap_built.
  intros Hi.
  pose proof (built_nonempty _ _ _ _ _ gauss_built) as Hne.
  pose proof lap_built as H.
  rewrite (build_laplacian_pyramid_levels _ _ _ _ _ gauss_built Hne) in H.
  apply bind_Ok in H. destruct H as (lp & Hlp & H). injection H as H. rewrite <- H.
  apply (comprehension_Ok _ _ _ 0 []) in Hlp. destruct Hlp as (Hlen & Hnth).
  rewrite length_seq in Hlen, Hnth.
  specialize (Hnth i). rewrite seq_nth in Hnth by lia. simpl in Hnth.
  rewrite app_nth1 by lia. apply Hnth. lia.
Qed.

(** Adding the expansion of the next Gaussian level to a Laplacian level
    gives the Gaussian level back. *)
Lemma add_back i :
  i + 1 < length gauss ->
  exists e,
    expand (nth (i + 1) gauss []) filter_vec = Ok e /\
    np_add (nth i lap []) e = Ok (nth i gauss []).
Proof using im_rect gauss_built lap_built.
  intros Hi.
  destruct (built_level _ _ _ _ _ gauss_built i Hi) as (Hh & Hw & Hr).
  destruct (built_levels _ _ _ _ _ gauss_built) as (_ & Hk & _).
  pose proof (lap_level i Hi) as Hl.
  destruct (laplacian_level_Ok filter_vec Hk _ _ Hh Hw Hr _ Hl) as (Eh & Ew).
  destruct (laplacian_level_even filter_vec Hk _ _ Hh Hw Hr Eh Ew)
    as (e & He & Hre & Hhe & Hwe & Hl').
  rewrite Hl in Hl'. injection Hl' as Hl'.
  exists e. split; [exact He|].
  unfold MIN_IMG_SIZE in *.
  assert (Hhl : height (nth i lap []) = height (nth i gauss []))
    by (rewrite Hl'; apply height_mk_image).
  assert (Hwl : width (nth i lap []) = width (nth i gauss []))
    by (rewrite Hl'; apply width_mk_image; lia).
  unfold np_add. rewrite broadcast2_same_shape by congruence.
  f_equal. rewrite Hhl, Hwl. apply mk_image_eq; [apply built_rect; lia|].
  intros r c Hr' Hc. rewrite Hl', get_mk_image by assumption. ring.
Qed.

(** Called at level [n] with a frame for every remaining level and the
    coefficient 1 at each of them, [_get_gauss] returns Gaussian level [n]. *)
Lemma get_gauss_level coeff k : forall n frames,
  n + k + 1 = length gauss -> k < frames ->
  (forall i, n <= i < length gauss -> nth_error coeff i = Some 1%Qc) ->
  _get_gauss 0 frames lap filter_vec coeff n = Ok (nth n gauss []).
Proof using im_rect gauss_built lap_built.
  induction k as [|k IH]; intros n frames Hn Hf Hc;
    (destruct frames as [|frames]; [lia|]); simpl.
  - rewrite lap_length.
    replace (Z.of_nat n =? Z.of_nat (length gauss) - 1)%Z with true
      by (symmetry; apply Z.eqb_eq; lia).
    rewrite (py_index_nth lap n []) by (rewrite lap_length; lia). simpl.
    unfold py_index. rewrite Hc by lia. simpl.
    rewrite scale_r_1. f_equal.
    replace n with (length gauss - 1) by lia. apply lap_last.
  - rewrite lap_length.
    replace (Z.of_nat n =? Z.of_nat (length gauss) - 1)%Z with false
      by (symmetry; apply Z.eqb_neq; lia).
    rewrite (py_index_nth lap n []) by (rewrite lap_length; lia). simpl.
    unfold py_index at 1. rewrite Hc by lia. simpl.
    rewrite IH; [|lia|lia|intros; apply Hc; lia]. simpl.
    destruct (add_back n) as (e & He & Ha); [lia|].
    rewrite He. simpl. now rewrite scale_r_1.
Qed.

(** The round trip: with the coefficient 1 at every level, the image
    comes back. *)
Lemma laplacian_round_trip coeff :
  (forall i, i < length lap -> nth_error coeff i = Some 1%Qc) ->
  laplacian_to_image lap filter_vec coeff = Ok im.
Proof using im_rect gauss_built lap_built.
  intros Hc. unfold laplacian_to_image.
  pose proof (built_nonempty _ _ _ _ _ gauss_built) as Hne.
  assert (Hlen : 0 < length gauss)
    by (destruct gauss; [congruence | simpl; lia]).
  rewrite (get_gauss_level coeff (length gauss - 1)).
  - destruct (built_levels _ _ _ _ _ gauss_built) as (_ & _ & Hhd).
    destruct gauss; [congruence|]. simpl in *. now subst.
  - lia.
  - rewrite lap_length. lia.
  - intros i Hi. apply Hc. rewrite lap_length. lia.
Qed.

End RoundTrip.

(** ** Deciding the equality of arrays *)

Section Eqb.

Lemma combine_eqb_eq {A : Type} (eqb : A -> A -> bool) :
  (forall x y, eqb x y = true -> x = y) ->
  forall a b : list A,
    (length a =? length b)
    && forallb (fun p => eqb (fst p) (snd p)) (combine a b) = true ->
    a = b.
Proof.
  intros Heq. induction a as [|x a IH]; intros [|y b] H;
    try reflexivity; try discriminate.
  simpl in H. apply andb_prop in H. destruct H as [Hlen H].
  apply andb_prop in H. destruct H as [Hxy H].
  f_equal; [now apply Heq|]. apply IH. now rewrite Hlen, H.
Qed.

Lemma row_eqb_eq a b : row_eqb a b = true -> a = b.
Proof. apply combine_eqb_eq. apply Qc_eq_bool_correct. Qed.

Lemma image_eqb_eq a b : image_eqb a b = true -> a = b.
Proof. apply (combine_eqb_eq row_eqb). apply row_eqb_eq. Qed.

Lemma returns_eq r expected : returns r expected = true -> r = Ok expected.
Proof.
  destruct r as [im|e]; simpl; [|discriminate].
  intros H. f_equal. now apply image_eqb_eq.
Qed.

End Eqb.

(** C3 (amended).  [_get_filer_row] does not validate [filter_size] and has no
    parameter error: below 1 it returns the kernel [[1]], and from 1 to 63,
    even or odd, it returns a row of that length whose elements sum to 1;
    for [filter_size = 2] the row is [[1/2; 1/2]]. *)
Theorem get_filer_row_without_validation :
  (forall filter_size, (filter_size < 1)%Z ->
     _get_filer_row filter_size = Ok [[1%Qc]]) /\
  (forall filter_size, (1 <= filter_size <= 63)%Z ->
     exists k, _get_filer_row filter_size = Ok k /\
               shape k = (1, Z.to_nat filter_size) /\ np_sum k = 1%Qc) /\
  _get_filer_row 2 = Ok [[(Z2Qc 1 / Z2Qc 2)%Qc; (Z2Qc 1 / Z2Qc 2)%Qc]].
Proof.
  split; [|split].
  - intros f Hf. unfold _get_filer_row.
    replace (Z.to_nat (f - 1)) with 0 by lia.
    apply returns_eq. vm_compute. reflexivity.
  - intros f Hf.
    destruct (get_filer_row_normalized f) as (k & Hk & Hs); [lia|].
    exists k. split; [exact Hk|]. split; [|exact Hs].
    destruct (shape_get_filer_row _ _ Hk) as (Hh & Hw & _).
    unfold shape. rewrite Hh, Hw. f_equal. lia.
  - apply returns_eq. vm_compute. reflexivity.
Qed.

(** Instances: the sizes -3 and 4. *)
Lemma get_filer_row_without_validation_witness :
  _get_filer_row (-3) = Ok [[1%Qc]] /\
  exists k, _get_filer_row 4 = Ok k /\ shape k = (1, 4) /\ np_sum k = 1%Qc.
Proof.
  destruct get_filer_row_without_validation as (H1 & H2 & _).
  split; [apply H1; lia | apply (H2 4%Z); lia].
Defined.

(** C3, as stated, fails: for the even [filter_size = 2] the kernel
    [[1/2; 1/2]] is returned and nothing is raised. *)
Lemma get_filer_row_even_counterexample :
  _get_filer_row 2 = Ok [[(Z2Qc 1 / Z2Qc 2)%Qc; (Z2Qc 1 / Z2Qc 2)%Qc]] /\
  ~ (exists e, _get_filer_row 2 = Raise e).
Proof.
  assert (H : _get_filer_row 2
              = Ok [[(Z2Qc 1 / Z2Qc 2)%Qc; (Z2Qc 1 / Z2Qc 2)%Qc]])
    by (apply returns_eq; vm_compute; reflexivity).
  split; [exact H|]. intros (e & He). rewrite H in He. discriminate.
Qed.

(** C7 (the code at the failing input).  For [filter_size = 65], odd, the sum
    of the integer row wraps around to 0 in 64 bits and the division gives no
    finite kernel; so it is for every size from 65 on.  From 1 to 63 the
    kernel has length [filter_size] and its elements sum to 1, and for 1 it is
    [[1]]. *)
Theorem get_filer_row_overflow_at_65 :
  _get_filer_row 65 = Raise NonFinite /\
  (forall filter_size, (65 <= filter_size)%Z ->
     _get_filer_row filter_size = Raise NonFinite) /\
  (forall filter_size, (1 <= filter_size <= 63)%Z ->
     exists k, _get_filer_row filter_size = Ok k /\
               shape k = (1, Z.to_nat filter_size) /\ np_sum k = 1%Qc) /\
  _get_filer_row 1 = Ok [[1%Qc]].
Proof.
  split; [apply get_filer_row_overflow; lia|].
  split; [apply get_filer_row_overflow|].
  split.
  - intros f Hf.
    destruct (get_filer_row_normalized f) as (k & Hk & Hs); [lia|].
    exists k. split; [exact Hk|]. split; [|exact Hs].
    destruct (shape_get_filer_row _ _ Hk) as (Hh & Hw & _).
    unfold shape. rewrite Hh, Hw. f_equal. lia.
  - apply returns_eq. vm_compute. reflexivity.
Qed.

(** Instances: the sizes 101 and 5. *)
Lemma get_filer_row_overflow_at_65_witness :
  _get_filer_row 101 = Raise NonFinite /\
  exists k, _get_filer_row 5 = Ok k /\ shape k = (1, 5) /\ np_sum k = 1%Qc.
Proof.
  destruct get_filer_row_overflow_at_65 as (_ & H1 & H2 & _).
  split; [apply H1; lia | apply (H2 5%Z); lia].
Defined.

(** ** The recursion of [laplacian_to_image] *)

Section GetGauss.

Variables (lpyr : list image) (filter_vec : image).

Lemma py_index_Ok {A : Type} (l : list A) i a :
  py_index l i = Ok a -> i < length l.
Proof.
  unfold py_index. destruct (nth_error l i) eqn:E; [|discriminate].
  intros _. apply nth_error_Some. congruence.
Qed.

Lemma py_index_app {A : Type} (l l' : list A) i :
  i < length l -> py_index (l ++ l') i = py_index l i.
Proof. intros H. unfold py_index. now rewrite nth_error_app1. Qed.

(** One step of the recursion, at a level that is not the last. *)
Lemma get_gauss_step callee frames coeff n :
  n + 1 < length lpyr ->
  _get_gauss callee (S frames) lpyr filter_vec coeff n =
  (l <- py_index lpyr n ;;
   c <- py_index coeff n ;;
   g <- _get_gauss callee frames lpyr filter_vec coeff (n + 1) ;;
   e <- (if frames <? callee then Raise RecursionError
         else expand g filter_vec) ;;
   np_add (scale_r l c) e).
Proof.
  intros Hn. cbn [_get_gauss].
  replace (Z.of_nat n =? Z.of_nat (length lpyr) - 1)%Z with false
    by (symmetry; apply Z.eqb_neq; lia).
  reflexivity.
Qed.

(** The last level. *)
Lemma get_gauss_last callee frames coeff n :
  n + 1 = length lpyr ->
  _get_gauss callee (S frames) lpyr filter_vec coeff n =
  (l <- py_index lpyr n ;;
   c <- py_index coeff n ;;
   Ok (scale_r l c)).
Proof.
  intros Hn. cbn [_get_gauss].
  replace (Z.of_nat n =? Z.of_nat (length lpyr) - 1)%Z with true
    by (symmetry; apply Z.eqb_eq; lia).
  reflexivity.
Qed.

(** Past the last level the first thing read, [lpyr[n]], raises. *)
Lemma get_gauss_past callee frames coeff n :
  length lpyr <= n ->
  _get_gauss callee (S frames) lpyr filter_vec coeff n = Raise IndexError.
Proof.
  intros Hn. cbn [_get_gauss].
  replace (Z.of_nat n =? Z.of_nat (length lpyr) - 1)%Z with false
    by (symmetry; apply Z.eqb_neq; lia).
  now rewrite py_index_Raise.
Qed.

(** With a stack that is deep enough, its depth changes nothing: a frame for
    each of the [k] remaining levels and, when [expand] is called (two levels
    or more), [callee] frames at the level before the last. *)
Lemma get_gauss_frames callee callee' coeff k : forall n frames frames',
  n + k = length lpyr -> k <= frames -> k <= frames' ->
  0 < frames -> 0 < frames' ->
  (2 <= k -> k - 1 + callee <= frames) ->
  (2 <= k -> k - 1 + callee' <= frames') ->
  _get_gauss callee frames lpyr filter_vec coeff n
  = _get_gauss callee' frames' lpyr filter_vec coeff n.
Proof.
  induction k as [|k IH]; intros n frames frames' Hn Hf Hf' H0 H0' Hc Hc';
    destruct frames as [|frames]; try lia;
    destruct frames' as [|frames']; try lia.
  - now rewrite !get_gauss_past by lia.
  - destruct k as [|k].
    + now rewrite !get_gauss_last by lia.
    + rewrite !get_gauss_step by lia.
      replace (frames <? callee) with false
        by (symmetry; apply Nat.ltb_ge; lia).
      replace (frames' <? callee') with false
        by (symmetry; apply Nat.ltb_ge; lia).
      now rewrite (IH (n + 1) frames frames') by lia.
Qed.

(** With fewer frames than levels the recursion runs out of stack. *)
Lemma get_gauss_out_of_frames callee coeff frames : forall n,
  n + frames < length lpyr -> length lpyr <= length coeff ->
  _get_gauss callee frames lpyr filter_vec coeff n = Raise RecursionError.
Proof.
  induction frames as [|frames IH]; intros n Hn Hc; [reflexivity|].
  rewrite get_gauss_step by lia.
  rewrite (py_index_nth lpyr n []) by lia. cbn [bind].
  rewrite (py_index_nth coeff n 0%Qc) by lia. cbn [bind].
  now rewrite IH by lia.
Qed.

(** With a frame for every level, but fewer than [callee] frames left at the
    level before the last, the first call of [expand] runs out of stack. *)
Lemma get_gauss_out_of_callee_frames callee coeff k : forall n frames,
  n + k + 2 = length lpyr -> k + 2 <= frames -> frames < k + 1 + callee ->
  length lpyr <= length coeff ->
  _get_gauss callee frames lpyr filter_vec coeff n = Raise RecursionError.
Proof.
  induction k as [|k IH]; intros n frames Hn Hf Hcal Hc;
    (destruct frames as [|frames]; [lia|]);
    rewrite get_gauss_step by lia;
    rewrite (py_index_nth lpyr n []) by lia; cbn [bind];
    rewrite (py_index_nth coeff n 0%Qc) by lia; cbn [bind].
  - destruct frames as [|frames]; [lia|].
    rewrite get_gauss_last by lia.
    rewrite (py_index_nth lpyr (n + 1) []) by lia. cbn [bind].
    rewrite (py_index_nth coeff (n + 1) 0%Qc) by lia. cbn [bind].
    replace (S frames <? callee) with true
      by (symmetry; apply Nat.ltb_lt; lia).
    reflexivity.
  - now rewrite (IH (n + 1) frames) by lia.
Qed.

(** A coefficient list shorter than the pyramid: [coeff[len(coeff)]] raises. *)
Lemma get_gauss_short callee coeff k : forall n frames,
  n + k = length coeff -> length coeff < length lpyr -> k < frames ->
  _get_gauss callee frames lpyr filter_vec coeff n = Raise IndexError.
Proof.
  induction k as [|k IH]; intros n frames Hn Hc Hf;
    (destruct frames as [|frames]; [lia|]).
  - assert (Hl : py_index lpyr n = Ok (nth n lpyr []))
      by (apply py_index_nth; lia).
    assert (Hco : py_index coeff n = Raise IndexError)
      by (apply py_index_Raise; lia).
    destruct (Nat.eq_dec (n + 1) (length lpyr)) as [E|E].
    + rewrite get_gauss_last by assumption. now rewrite Hl, Hco.
    + rewrite get_gauss_step by lia. now rewrite Hl, Hco.
  - rewrite get_gauss_step by lia.
    rewrite (py_index_nth lpyr n []) by lia. cbn [bind].
    rewrite (py_index_nth coeff n 0%Qc) by lia. cbn [bind].
    now rewrite IH by lia.
Qed.

(** Coefficients past the length of the pyramid are never read. *)
Lemma get_gauss_extra callee coeff extra frames : forall n,
  length lpyr <= length coeff ->
  _get_gauss callee frames lpyr filter_vec (coeff ++ extra) n
  = _get_gauss callee frames lpyr filter_vec coeff n.
Proof.
  induction frames as [|frames IH]; intros n Hc; [reflexivity|].
  cbn [_get_gauss]. rewrite IH by assumption.
  destruct (py_index lpyr n) as [l|e] eqn:El.
  - apply py_index_Ok in El. rewrite py_index_app by lia. reflexivity.
  - destruct (Z.of_nat n =? Z.of_nat (length lpyr) - 1)%Z; reflexivity.
Qed.

End GetGauss.

(** C5 (amended).  [laplacian_to_image] does not compare the lengths of
    [coeff] and [lpyr]: it reads [coeff[n]] for the levels [n] of the pyramid.
    A coefficient list shorter than the pyramid raises [IndexError]; with a
    list at least as long as the pyramid, the entries past the length of the
    pyramid are not read and change nothing. *)
Theorem laplacian_to_image_coefficients :
  (forall (lpyr : list image) (filter_vec : image) (coeff : list Qc),
     length coeff < length lpyr ->
     laplacian_to_image lpyr filter_vec coeff = Raise IndexError) /\
  (forall (lpyr : list image) (filter_vec : image) (coeff extra : list Qc),
     length lpyr <= length coeff ->
     laplacian_to_image lpyr filter_vec (coeff ++ extra)
     = laplacian_to_image lpyr filter_vec coeff).
Proof.
  split.
  - intros lpyr filter_vec coeff H. unfold laplacian_to_image.
    apply (get_gauss_short lpyr filter_vec 0 coeff (length coeff)); lia.
  - intros lpyr filter_vec coeff extra H. unfold laplacian_to_image.
    now apply get_gauss_extra.
Qed.

(** Instances: one coefficient for two levels, three coefficients for one. *)
Lemma laplacian_to_image_coefficients_witness :
  laplacian_to_image [[[1%Qc]]; [[1%Qc]]] [[1%Qc]] [1%Qc] = Raise IndexError /\
  laplacian_to_image [[[1%Qc]]] [[1%Qc]] ([1%Qc] ++ [1%Qc; 1%Qc])
  = laplacian_to_image [[[1%Qc]]] [[1%Qc]] [1%Qc].
Proof.
  destruct laplacian_to_image_coefficients as (H1 & H2).
  split; [apply H1; simpl; lia | apply H2; simpl; lia].
Defined.

(** C5, as stated, fails: a coefficient list of length 3 is accepted with a
    pyramid of one level. *)
Lemma laplacian_to_image_length_counterexample :
  length [1%Qc; 1%Qc; 1%Qc] <> length [[[1%Qc]]] /\
  laplacian_to_image [[[1%Qc]]] [[1%Qc]] [1%Qc; 1%Qc; 1%Qc] = Ok [[1%Qc]].
Proof.
  split; [simpl; lia|]. apply returns_eq. vm_compute. reflexivity.
Qed.

Section RecursionAndLoop.

Variables (lpyr : list image) (filter_vec : image) (coeff : list Qc).

Local Abbreviation from_level := (get_gauss_from lpyr filter_vec coeff).

Lemma from_level_step i :
  i + 1 < length lpyr ->
  from_level i =
  (l <- py_index lpyr i ;;
   c <- py_index coeff i ;;
   g <- from_level (i + 1) ;;
   e <- expand g filter_vec ;;
   np_add (scale_r l c) e).
Proof.
  intros Hi. unfold get_gauss_from. rewrite get_gauss_step by assumption.
  now rewrite (get_gauss_frames lpyr filter_vec 0 0 coeff
                 (length lpyr - (i + 1))
                 (i + 1) (length lpyr) (S (length lpyr))) by lia.
Qed.

(** When the recursion returns, it has returned from every level. *)
Lemma from_level_Ok v i :
  from_level 0 = Ok v -> i < length lpyr -> exists a, from_level i = Ok a.
Proof.
  intros H0. induction i as [|i IH]; intros Hi; [now exists v|].
  destruct IH as (a & Ha); [lia|].
  rewrite from_level_step in Ha by lia.
  apply bind_Ok in Ha. destruct Ha as (l & _ & Ha).
  apply bind_Ok in Ha. destruct Ha as (c & _ & Ha).
  apply bind_Ok in Ha. destruct Ha as (g & Hg & _).
  exists g. now replace (S i) with (i + 1) by lia.
Qed.

(** The loop, started with what the recursion returns from level [i], ends
    with what the recursion returns from level 0. *)
Lemma accumulate_down_from_level v i : forall acc,
  i < length lpyr -> from_level i = Ok acc ->
  (accumulate_down lpyr filter_vec coeff i acc = Ok v <-> from_level 0 = Ok v).
Proof.
  induction i as [|i IH]; intros acc Hi Hacc.
  - simpl. rewrite Hacc. reflexivity.
  - assert (Hstep := from_level_step i).
    replace (i + 1) with (S i) in Hstep by lia.
    rewrite Hacc in Hstep. specialize (Hstep ltac:(lia)).
    cbn [accumulate_down].
    destruct (py_index lpyr i) as [l|x] eqn:El; simpl in *.
    2:{ split; [discriminate|]. intros H0.
        destruct (from_level_Ok v i H0) as (a & Ha); [lia|]. congruence. }
    destruct (py_index coeff i) as [c|x] eqn:Ec; simpl in *.
    2:{ split; [discriminate|]. intros H0.
        destruct (from_level_Ok v i H0) as (a & Ha); [lia|]. congruence. }
    destruct (expand acc filter_vec) as [e|x] eqn:Ee; simpl in *.
    2:{ split; [discriminate|]. intros H0.
        destruct (from_level_Ok v i H0) as (a & Ha); [lia|]. congruence. }
    destruct (np_add (scale_r l c) e) as [acc'|x] eqn:Ea; simpl in *.
    2:{ split; [discriminate|]. intros H0.
        destruct (from_level_Ok v i H0) as (a & Ha); [lia|]. congruence. }
    apply IH; [lia | exact Hstep].
Qed.

(** The recursion of the code and the loop of the specification return the
    same image. *)
Lemma recursion_is_accumulation v :
  laplacian_to_image lpyr filter_vec coeff = Ok v <->
  laplacian_to_image_iterative lpyr filter_vec coeff = Ok v.
Proof.
  unfold laplacian_to_image_iterative.
  change (laplacian_to_image lpyr filter_vec coeff) with (from_level 0).
  destruct (length lpyr =? 0) eqn:E0.
  - apply Nat.eqb_eq in E0. unfold get_gauss_from.
    rewrite get_gauss_past by lia. reflexivity.
  - apply Nat.eqb_neq in E0.
    assert (Hlast : from_level (length lpyr - 1) =
                    (l <- py_index lpyr (length lpyr - 1) ;;
                     c <- py_index coeff (length lpyr - 1) ;;
                     Ok (scale_r l c)))
      by (unfold get_gauss_from; apply get_gauss_last; lia).
    destruct (py_index lpyr (length lpyr - 1)) as [l|x] eqn:El; simpl in *.
    2:{ split; [|discriminate]. intros H0.
        destruct (from_level_Ok v (length lpyr - 1) H0) as (a & Ha); [lia|].
        congruence. }
    destruct (py_index coeff (length lpyr - 1)) as [c|x] eqn:Ec; simpl in *.
    2:{ split; [|discriminate]. intros H0.
        destruct (from_level_Ok v (length lpyr - 1) H0) as (a & Ha); [lia|].
        congruence. }
    symmetry. apply accumulate_down_from_level; [lia | exact Hlast].
Qed.

End RecursionAndLoop.

(** C8 (amended).  [laplacian_to_image] is computed by a nested function that
    calls itself once per level, and that calls [expand] in every frame but
    the last; it is not a loop, and its stack grows with the pyramid.  Given a
    coefficient for every level: with room for fewer frames than the pyramid
    has levels it raises [RecursionError]; so it does, for two levels or
    more, with room for fewer than the levels but one and the [callee] frames
    that a call of [expand] needs; with room for both, its result is that of
    [laplacian_to_image] run with a stack that is deep enough, which returns
    an image exactly when the accumulation from the last level down to the
    first does, and the same one. *)
Theorem laplacian_to_image_recursion :
  (forall (lpyr : list image) (filter_vec : image) (coeff : list Qc)
          callee frames,
     frames < length lpyr -> length lpyr <= length coeff ->
     _get_gauss callee frames lpyr filter_vec coeff 0 = Raise RecursionError) /\
  (forall (lpyr : list image) (filter_vec : image) (coeff : list Qc)
          callee frames,
     2 <= length lpyr -> frames < length lpyr - 1 + callee ->
     length lpyr <= length coeff ->
     _get_gauss callee frames lpyr filter_vec coeff 0 = Raise RecursionError) /\
  (forall (lpyr : list image) (filter_vec : image) (coeff : list Qc)
          callee frames,
     length lpyr <= frames -> 0 < frames ->
     (2 <= length lpyr -> length lpyr - 1 + callee <= frames) ->
     _get_gauss callee frames lpyr filter_vec coeff 0
     = laplacian_to_image lpyr filter_vec coeff) /\
  (forall (lpyr : list image) (filter_vec : image) (coeff : list Qc) v,
     laplacian_to_image lpyr filter_vec coeff = Ok v <->
     laplacian_to_image_iterative lpyr filter_vec coeff = Ok v).
Proof.
  split; [|split; [|split]].
  - intros lpyr filter_vec coeff callee frames Hf Hc.
    apply get_gauss_out_of_frames; lia.
  - intros lpyr filter_vec coeff callee frames Hl Hf Hc.
    destruct (Nat.lt_ge_cases frames (length lpyr)) as [Hlt|Hge].
    + apply get_gauss_out_of_frames; lia.
    + apply (get_gauss_out_of_callee_frames lpyr filter_vec callee coeff
               (length lpyr - 2)); lia.
  - intros lpyr filter_vec coeff callee frames Hf H0 Hc.
    unfold laplacian_to_image.
    apply (get_gauss_frames lpyr filter_vec callee 0 coeff (length lpyr)
             0 frames (S (length lpyr))); lia.
  - intros. apply recursion_is_accumulation.
Qed.

(** Instances: a pyramid of two levels, with [expand] in need of two frames:
    one frame, two frames, and the three frames that are enough. *)
Lemma laplacian_to_image_recursion_witness :
  _get_gauss 2 1 [zeros 2 2; zeros 1 1] (kernel_of 3) [1%Qc; 1%Qc] 0
  = Raise RecursionError /\
  _get_gauss 2 2 [zeros 2 2; zeros 1 1] (kernel_of 3) [1%Qc; 1%Qc] 0
  = Raise RecursionError /\
  _get_gauss 2 3 [zeros 2 2; zeros 1 1] (kernel_of 3) [1%Qc; 1%Qc] 0
  = laplacian_to_image [zeros 2 2; zeros 1 1] (kernel_of 3) [1%Qc; 1%Qc].
Proof.
  destruct laplacian_to_image_recursion as (H1 & H2 & H3 & _).
  split; [apply H1; simpl; lia|].
  split; [apply H2; simpl; lia | apply H3; simpl; lia].
Defined.

(** C8, as stated, fails: the reconstruction of a pyramid of four levels
    raises [RecursionError] with room for three frames, and also with room
    for four when [expand] needs two, where the loop of the specification
    returns the image. *)
Lemma laplacian_to_image_recursion_counterexample :
  _get_gauss 2 3 [zeros 8 8; zeros 4 4; zeros 2 2; zeros 1 1] (kernel_of 3)
             [1%Qc; 1%Qc; 1%Qc; 1%Qc] 0
  = Raise RecursionError /\
  _get_gauss 2 4 [zeros 8 8; zeros 4 4; zeros 2 2; zeros 1 1] (kernel_of 3)
             [1%Qc; 1%Qc; 1%Qc; 1%Qc] 0
  = Raise RecursionError /\
  laplacian_to_image_iterative
    [zeros 8 8; zeros 4 4; zeros 2 2; zeros 1 1] (kernel_of 3)
    [1%Qc; 1%Qc; 1%Qc; 1%Qc]
  = Ok (zeros 8 8).
Proof.
  split; [vm_compute; reflexivity|].
  split; [vm_compute; reflexivity|].
  apply returns_eq. vm_compute. reflexivity.
Qed.

(** ** Stretching and rendering *)

Section Stretch.

Lemma Qcleb_le a b : Qcleb a b = true <-> (a <= b)%Qc.
Proof. unfold Qcleb, Qcle. apply Qle_bool_iff. Qed.

Lemma Qcmin_le_l a b : (Qcmin a b <= a)%Qc.
Proof.
  unfold Qcmin. destruct (Qcleb a b) eqn:E; [apply Qcle_refl|].
  apply Qcnot_lt_le. intros H. apply Qclt_le_weak, Qcleb_le in H. congruence.
Qed.

Lemma Qcmax_ge_l a b : (a <= Qcmax a b)%Qc.
Proof.
  unfold Qcmax. destruct (Qcleb a b) eqn:E; [now apply Qcleb_le|].
  apply Qcle_refl.
Qed.

Lemma fold_min_le l : forall x, (fold_left Qcmin l x <= x)%Qc.
Proof.
  induction l as [|a l IH]; intros x; simpl; [apply Qcle_refl|].
  eapply Qcle_trans; [apply IH | apply Qcmin_le_l].
Qed.

Lemma fold_max_ge l : forall x, (x <= fold_left Qcmax l x)%Qc.
Proof.
  induction l as [|a l IH]; intros x; simpl; [apply Qcle_refl|].
  eapply Qcle_trans; [apply Qcmax_ge_l | apply IH].
Qed.

Lemma np_min_le_max im lo hi :
  np_min im = Ok lo -> np_max im = Ok hi -> (lo <= hi)%Qc.
Proof.
  unfold np_min, np_max. destruct (concat im) as [|x l]; [discriminate|].
  intros Hlo Hhi. injection Hlo as <-. injection Hhi as <-.
  eapply Qcle_trans; [apply fold_min_le | apply fold_max_ge].
Qed.

(** A stretched array exists only when the maximum is above the minimum. *)
Lemma stretch_Ok im r :
  _stretch_image im = Ok r ->
  exists lo hi, np_min im = Ok lo /\ np_max im = Ok hi /\ (lo < hi)%Qc.
Proof.
  unfold _stretch_image. intros H.
  apply bind_Ok in H. destruct H as (lo & Hlo & H).
  apply bind_Ok in H. destruct H as (hi & Hhi & H).
  rewrite Hlo in H. simpl in H.
  exists lo, hi. split; [exact Hlo|]. split; [exact Hhi|].
  destruct (Qcle_lt_or_eq _ _ (np_min_le_max _ _ _ Hlo Hhi)) as [Hlt|Heq];
    [exact Hlt|].
  subst hi. unfold np_div_scalar in H.
  replace (lo - lo)%Qc with 0%Qc in H by ring.
  simpl in H. discriminate.
Qed.

Lemma repeat_map_seq {A : Type} (c : A) n s :
  map (fun _ => c) (seq s n) = repeat c n.
Proof.
  revert s. induction n as [|n IH]; intros s; simpl; [reflexivity|].
  now rewrite IH.
Qed.

Lemma constant_image_repeat h w c :
  constant_image h w c = repeat (repeat c w) h.
Proof.
  unfold constant_image, mk_image.
  rewrite <- (repeat_map_seq (repeat c w) h 0).
  apply map_ext. intros _. apply repeat_map_seq.
Qed.

Lemma concat_repeat_Forall {A : Type} (c : A) w h :
  Forall (eq c) (concat (repeat (repeat c w) h)).
Proof.
  induction h as [|h IH]; simpl; [constructor|].
  apply Forall_app. split; [|exact IH].
  apply Forall_forall. intros x Hx. now apply repeat_spec in Hx.
Qed.

Lemma fold_constant (f : Qc -> Qc -> Qc) c l :
  f c c = c -> Forall (eq c) l -> fold_left f l c = c.
Proof.
  intros Hf. induction 1 as [|x l <- _ IH]; simpl; [reflexivity|].
  now rewrite Hf.
Qed.

Lemma Qcmin_same c : Qcmin c c = c.
Proof. unfold Qcmin. now destruct (Qcleb c c). Qed.

Lemma Qcmax_same c : Qcmax c c = c.
Proof. unfold Qcmax. now destruct (Qcleb c c). Qed.

(** Of a constant array the minimum and the maximum are the constant. *)
Lemma np_min_max_constant h w c :
  0 < h -> 0 < w ->
  np_min (constant_image h w c) = Ok c /\ np_max (constant_image h w c) = Ok c.
Proof.
  intros Hh Hw. unfold np_min, np_max. rewrite constant_image_repeat.
  pose proof (concat_repeat_Forall c w h) as HF.
  destruct h as [|h]; [lia|]. destruct w as [|w]; [lia|].
  simpl in *. inversion HF as [|x l _ HF']; subst.
  split; f_equal; apply fold_constant; auto using Qcmin_same, Qcmax_same.
Qed.

(** Stretching a constant array divides by zero. *)
Lemma stretch_constant h w c :
  0 < h -> 0 < w -> _stretch_image (constant_image h w c) = Raise NonFinite.
Proof.
  intros Hh Hw. destruct (np_min_max_constant h w c Hh Hw) as (Hlo & Hhi).
  unfold _stretch_image. rewrite Hlo, Hhi. simpl. unfold np_div_scalar.
  replace (c - c)%Qc with 0%Qc by ring. reflexivity.
Qed.

(** When the loop of [render_pyramid] returns, every level it went over was
    stretched. *)
Lemma render_loop_Ok pyr n : forall s res r,
  render_loop pyr res (seq s n) = Ok r -> s <= length pyr ->
  forall i, s <= i < s + n -> i < length pyr ->
  exists r', _stretch_image (nth i pyr []) = Ok r'.
Proof.
  induction n as [|n IH]; intros s res r H Hs i Hi Hlen; [lia|].
  simpl in H. destruct (s =? length pyr) eqn:E.
  - apply Nat.eqb_eq in E. lia.
  - apply Nat.eqb_neq in E.
    rewrite (py_index_nth pyr s []) in H by lia. simpl in H.
    apply bind_Ok in H. destruct H as (st & Hst & H).
    destruct (Z.of_nat (height res) - Z.of_nat (height st) <? 0)%Z;
      [discriminate|].
    destruct (Nat.eq_dec i s) as [->|Hne]; [now exists st|].
    apply (IH (S s) _ _ H); lia.
Qed.

(** [render_pyramid] returns only when every level it renders has its
    maximum above its minimum. *)
Lemma render_pyramid_Ok pyr levels res i :
  (1 <= levels)%Z -> render_pyramid pyr levels = Ok res ->
  i < length pyr -> (Z.of_nat i < levels)%Z ->
  exists lo hi,
    np_min (nth i pyr []) = Ok lo /\ np_max (nth i pyr []) = Ok hi /\
    (lo < hi)%Qc.
Proof.
  intros Hl H Hi Hil. unfold render_pyramid in H.
  replace (levels <? 1)%Z with false in H by (symmetry; apply Z.ltb_ge; lia).
  rewrite (py_index_nth pyr 0 []) in H by lia. simpl in H.
  apply bind_Ok in H. destruct H as (st & Hst & H).
  destruct i as [|i]; [now apply (stretch_Ok _ st)|].
  destruct (render_loop_Ok pyr _ _ _ _ H ltac:(lia) (S i)) as (r' & Hr');
    [lia | lia |].
  now apply (stretch_Ok _ r').
Qed.

End Stretch.

(** C9.  [_stretch_image] divides by [max - min] without a guard: it returns
    an array only when the maximum of the array is strictly above its
    minimum, and so does [render_pyramid] for every level it renders; a
    constant level makes the stretch divide by zero, so a pyramid with a
    rendered constant level is not rendered, and one that starts with a
    constant image (such as the pyramid of a constant image) ends in that
    division. *)
Theorem render_pyramid_divides_by_zero :
  (forall im r,
     _stretch_image im = Ok r ->
     exists lo hi, np_min im = Ok lo /\ np_max im = Ok hi /\ (lo < hi)%Qc) /\
  (forall pyr levels res i,
     (1 <= levels)%Z -> render_pyramid pyr levels = Ok res ->
     i < length pyr -> (Z.of_nat i < levels)%Z ->
     exists lo hi,
       np_min (nth i pyr []) = Ok lo /\ np_max (nth i pyr []) = Ok hi /\
       (lo < hi)%Qc) /\
  (forall h w c,
     0 < h -> 0 < w -> _stretch_image (constant_image h w c) = Raise NonFinite) /\
  (forall pyr levels i h w c,
     (1 <= levels)%Z -> i < length pyr -> (Z.of_nat i < levels)%Z ->
     0 < h -> 0 < w -> nth i pyr [] = constant_image h w c ->
     forall res, render_pyramid pyr levels <> Ok res) /\
  (forall pyr levels h w c,
     (1 <= levels)%Z -> 0 < h -> 0 < w ->
     render_pyramid (constant_image h w c :: pyr) levels = Raise NonFinite).
Proof.
  split; [exact stretch_Ok|]. split; [exact render_pyramid_Ok|].
  split; [exact stretch_constant|]. split.
  - intros pyr levels i h w c Hl Hi Hil Hh Hw Hc res H.
    destruct (render_pyramid_Ok pyr levels res i Hl H Hi Hil)
      as (lo & hi & Hlo & Hhi & Hlt).
    rewrite Hc in Hlo, Hhi.
    destruct (np_min_max_constant h w c Hh Hw) as (Hlo' & Hhi').
    rewrite Hlo' in Hlo. rewrite Hhi' in Hhi.
    injection Hlo as <-. injection Hhi as <-.
    now apply Qclt_not_eq in Hlt.
  - intros pyr levels h w c Hl Hh Hw. unfold render_pyramid.
    replace (levels <? 1)%Z with false by (symmetry; apply Z.ltb_ge; lia).
    simpl. now rewrite stretch_constant.
Qed.

(** Instances: a constant 2x3 array, and the pyramid of a constant image. *)
Lemma render_pyramid_divides_by_zero_witness :
  _stretch_image (constant_image 2 3 (Z2Qc 5)) = Raise NonFinite /\
  render_pyramid [constant_image 32 32 (Z2Qc 1); constant_image 16 16 (Z2Qc 1)] 2
  = Raise NonFinite.
Proof.
  destruct render_pyramid_divides_by_zero as (_ & _ & H3 & _ & H5).
  split; [apply H3; lia | apply H5; lia].
Defined.

(** ** Constant images *)

Section Constant.

Lemma sum_upto_S_l n f :
  sum_upto (S n) f = (f O + sum_upto n (fun a => f (S a)))%Qc.
Proof.
  unfold sum_upto. simpl. now rewrite <- seq_shift, map_map.
Qed.

Lemma sum_upto_S_r n f : sum_upto (S n) f = (sum_upto n f + f n)%Qc.
Proof.
  revert f. induction n as [|n IH]; intros f.
  - unfold sum_upto. simpl. ring.
  - rewrite sum_upto_S_l, IH, (sum_upto_S_l n). ring.
Qed.

Lemma sum_upto_ext n f g :
  (forall a, a < n -> f a = g a) -> sum_upto n f = sum_upto n g.
Proof.
  intros H. unfold sum_upto. f_equal. apply map_ext_in.
  intros a Ha. apply in_seq in Ha. apply H. lia.
Qed.

Lemma sum_upto_mult_r n f c :
  sum_upto n (fun a => (f a * c)%Qc) = (sum_upto n f * c)%Qc.
Proof.
  induction n as [|n IH]; [unfold sum_upto; simpl; ring|].
  rewrite !sum_upto_S_r, IH. ring.
Qed.

Lemma sum_upto_plus n f g :
  sum_upto n (fun a => (f a + g a)%Qc) = (sum_upto n f + sum_upto n g)%Qc.
Proof.
  induction n as [|n IH]; [unfold sum_upto; simpl; ring|].
  rewrite !sum_upto_S_r, IH. ring.
Qed.

Lemma sum_upto_zero n : sum_upto n (fun _ => 0%Qc) = 0%Qc.
Proof.
  induction n as [|n IH]; [reflexivity|]. rewrite sum_upto_S_r, IH. ring.
Qed.

Lemma sum_upto_rev n f :
  sum_upto n (fun a => f (n - 1 - a)) = sum_upto n f.
Proof.
  induction n as [|n IH]; [reflexivity|].
  rewrite sum_upto_S_l, sum_upto_S_r, <- IH.
  replace (S n - 1 - 0) with n by lia.
  rewrite Qcplus_comm. f_equal.
  apply sum_upto_ext. intros a Ha. f_equal. lia.
Qed.

Lemma sum_upto_swap n m (f : nat -> nat -> Qc) :
  sum_upto n (fun i => sum_upto m (fun j => f i j))
  = sum_upto m (fun j => sum_upto n (fun i => f i j)).
Proof.
  induction n as [|n IH].
  - unfold sum_upto at 1. simpl. symmetry.
    rewrite (sum_upto_ext m _ (fun _ => 0%Qc)) by reflexivity.
    apply sum_upto_zero.
  - rewrite sum_upto_S_r, IH, <- sum_upto_plus.
    apply sum_upto_ext. intros j _. now rewrite sum_upto_S_r.
Qed.

(** The flipped weights sum to what the weights sum to. *)
Lemma flipped_sum k :
  sum_upto (height k) (fun a =>
    sum_upto (width k) (fun b =>
      get k (height k - 1 - a) (width k - 1 - b)))
  = np_sum k.
Proof.
  unfold np_sum.
  rewrite (sum_upto_rev (height k)
             (fun a => sum_upto (width k) (fun b => get k a (width k - 1 - b)))).
  apply sum_upto_ext. intros a _.
  apply (sum_upto_rev (width k) (fun b => get k a b)).
Qed.

Lemma np_sum_transpose k : np_sum (transpose k) = np_sum k.
Proof.
  unfold np_sum. rewrite height_transpose.
  destruct (Nat.eq_dec (width k) 0) as [E|E].
  - rewrite E. simpl.
    rewrite (sum_upto_ext (height k) _ (fun _ => 0%Qc)) by reflexivity.
    now rewrite sum_upto_zero.
  - rewrite width_transpose by assumption.
    rewrite sum_upto_swap. apply sum_upto_ext. intros i Hi.
    apply sum_upto_ext. intros j Hj.
    unfold transpose. now rewrite get_mk_image.
Qed.

Lemma reflect_lt n c : 0 < n -> reflect n c < n.
Proof.
  intros Hn. unfold reflect.
  pose proof (Z.mod_pos_bound c (2 * Z.of_nat n) ltac:(lia)) as Hb.
  destruct (c mod (2 * Z.of_nat n) <? Z.of_nat n)%Z eqn:E.
  - apply Z.ltb_lt in E. lia.
  - apply Z.ltb_ge in E. lia.
Qed.

Lemma height_constant_image h w c : height (constant_image h w c) = h.
Proof. apply height_mk_image. Qed.

Lemma width_constant_image h w c :
  0 < h -> width (constant_image h w c) = w.
Proof. intros H. apply width_mk_image. lia. Qed.

Lemma get_constant_image h w c i j :
  i < h -> j < w -> get (constant_image h w c) i j = c.
Proof. intros. unfold constant_image. now rewrite get_mk_image. Qed.

(** Filtering a constant image multiplies it by the sum of the weights. *)
Lemma convolve_reflect_constant h w c k :
  convolve_reflect (constant_image h w c) k
  = constant_image h w (np_sum k * c)%Qc.
Proof.
  destruct h as [|h]; [reflexivity|].
  unfold convolve_reflect.
  rewrite height_constant_image, width_constant_image by lia.
  apply mk_image_ext. intros i j Hi Hj.
  rewrite <- flipped_sum, <- sum_upto_mult_r.
  apply sum_upto_ext. intros a _.
  rewrite <- sum_upto_mult_r. apply sum_upto_ext. intros b _.
  rewrite get_constant_image; [reflexivity | |]; apply reflect_lt; lia.
Qed.

Lemma subsample_constant h w c :
  subsample (constant_image h w c)
  = constant_image ((h + 1) / 2) ((w + 1) / 2) c.
Proof.
  destruct h as [|h]; [reflexivity|].
  unfold subsample.
  rewrite height_constant_image, width_constant_image by lia.
  apply mk_image_ext. intros i j Hi Hj.
  apply get_constant_image.
  - assert (2 * ((S h + 1) / 2) <= S h + 1)
      by (apply Nat.Div0.mul_div_le). lia.
  - assert (2 * ((w + 1) / 2) <= w + 1)
      by (apply Nat.Div0.mul_div_le). lia.
Qed.

(** [reduce] multiplies a constant image by the square of the sum of the
    kernel. *)
Lemma reduce_constant h w c k :
  filter_ok k ->
  reduce (constant_image h w c) k
  = Ok (constant_image ((h + 1) / 2) ((w + 1) / 2)
                       (np_sum k * (np_sum k * c))%Qc).
Proof.
  intros Hk. rewrite reduce_Ok by assumption.
  now rewrite !convolve_reflect_constant, np_sum_transpose, subsample_constant.
Qed.

End Constant.

Section ConstantPyramid.

Variables (filter_vec : image) (c : Qc).
Hypothesis filter_vec_ok : filter_ok filter_vec.
Hypothesis filter_vec_normalized :
  (np_sum filter_vec * np_sum filter_vec)%Qc = 1%Qc.

Lemma reduce_constant_normalized h w :
  reduce (constant_image h w c) filter_vec
  = Ok (constant_image ((h + 1) / 2) ((w + 1) / 2) c).
Proof using filter_vec_ok filter_vec_normalized.
  rewrite reduce_constant by assumption. do 2 f_equal.
  rewrite Qcmult_assoc, filter_vec_normalized. ring.
Qed.

(** Every level of a Gaussian pyramid that starts with a constant image is
    that constant. *)
Lemma gaussian_levels_constant pyr h w i :
  gaussian_levels filter_vec pyr ->
  hd [] pyr = constant_image h w c ->
  i < length pyr ->
  exists h' w', nth i pyr [] = constant_image h' w' c.
Proof using filter_vec_ok filter_vec_normalized.
  intros Hlev Hhd. induction i as [|i IH]; intros Hi.
  - exists h, w. destruct pyr; [simpl in Hi; lia | exact Hhd].
  - destruct IH as (h' & w' & E); [lia|].
    destruct (gaussian_levels_nth _ _ i Hlev) as (_ & _ & Hr); [lia|].
    rewrite E, reduce_constant_normalized in Hr. injection Hr as Hr.
    replace (S i) with (i + 1) by lia. rewrite <- Hr. eauto.
Qed.

End ConstantPyramid.

Section ConstantFloat64.

Lemma height_mk_image64 h w f : height64 (mk_image64 h w f) = h.
Proof. unfold height64, mk_image64. now rewrite length_map, length_seq. Qed.

Lemma width_mk_image64 h w f : h <> 0 -> width64 (mk_image64 h w f) = w.
Proof.
  unfold width64, mk_image64. destruct h as [|h]; [congruence|]. intros _.
  simpl. now rewrite length_map, length_seq.
Qed.

Lemma get_mk_image64 h w f i j :
  i < h -> j < w -> get64 (mk_image64 h w f) i j = f i j.
Proof.
  intros Hi Hj. unfold get64, mk_image64.
  rewrite (nth_map_seq (fun i => map (f i) (seq 0 w)) [] h 0 i Hi).
  now rewrite nth_map_seq by assumption.
Qed.

Lemma mk_image64_ext h w f g :
  (forall i j, i < h -> j < w -> f i j = g i j) ->
  mk_image64 h w f = mk_image64 h w g.
Proof.
  intros H. unfold mk_image64. apply map_ext_in. intros i Hi.
  apply in_seq in Hi. apply map_ext_in. intros j Hj. apply in_seq in Hj.
  apply H; lia.
Qed.

Lemma width_mk_image64_0 w f : mk_image64 0 w f = [].
Proof. reflexivity. Qed.

Lemma fold_left_ext_in {A B : Type} (f g : A -> B -> A) l : forall a,
  (forall x y, In y l -> f x y = g x y) -> fold_left f l a = fold_left g l a.
Proof.
  induction l as [|y l IH]; intros a H; [reflexivity|].
  cbn [fold_left]. rewrite (H a y) by now left.
  apply IH. intros x z Hz. apply H. now right.
Qed.

(** Filtering a constant image gives the constant image of what is
    accumulated. *)
Lemma convolve_reflect64_constant h w c weights :
  convolve_reflect64 (constant_image64 h w c) weights
  = constant_image64 h w (accumulate weights c).
Proof.
  destruct h as [|h]; [reflexivity|].
  unfold convolve_reflect64, constant_image64 at 3.
  unfold constant_image64.
  rewrite height_mk_image64, width_mk_image64 by discriminate.
  apply mk_image64_ext. intros i j Hi Hj. unfold accumulate.
  apply fold_left_ext_in. intros tmp t _.
  rewrite get_mk_image64; [reflexivity | |]; apply reflect_lt; lia.
Qed.

Lemma subsample64_constant h w c :
  subsample64 (constant_image64 h w c)
  = constant_image64 ((h + 1) / 2) ((w + 1) / 2) c.
Proof.
  destruct h as [|h]; [reflexivity|].
  unfold subsample64, constant_image64.
  rewrite height_mk_image64, width_mk_image64 by discriminate.
  apply mk_image64_ext. intros i j Hi Hj.
  apply get_mk_image64.
  - assert (2 * ((S h + 1) / 2) <= S h + 1)
      by (apply Nat.Div0.mul_div_le). lia.
  - assert (2 * ((w + 1) / 2) <= w + 1)
      by (apply Nat.Div0.mul_div_le). lia.
Qed.

Lemma height_transpose64 k : height64 (transpose64 k) = width64 k.
Proof. apply height_mk_image64. Qed.

Lemma width_transpose64 k :
  width64 k <> 0 -> width64 (transpose64 k) = height64 k.
Proof. intros H. now apply width_mk_image64. Qed.

(** [reduce_float64] of a constant image, for a filter with no empty axis. *)
Lemma reduce_float64_constant h w c weights :
  height64 weights <> 0 -> width64 weights <> 0 ->
  reduce_float64 (constant_image64 h w c) weights
  = Ok (constant_image64 ((h + 1) / 2) ((w + 1) / 2)
                         (reduced_value weights c)).
Proof.
  intros Hh Hw. unfold reduce_float64, convolve64.
  rewrite height_transpose64, width_transpose64 by assumption.
  apply Nat.eqb_neq in Hh, Hw. rewrite Hh, Hw. cbn [orb bind].
  now rewrite !convolve_reflect64_constant, subsample64_constant.
Qed.

Lemma height_constant_image64 h w c : height64 (constant_image64 h w c) = h.
Proof. apply height_mk_image64. Qed.

Lemma width_constant_image64 h w c :
  h <> 0 -> width64 (constant_image64 h w c) = w.
Proof. apply width_mk_image64. Qed.

Lemma kernel64_shape filter_size :
  height64 (_get_filer_row_float64 filter_size) <> 0 /\
  width64 (_get_filer_row_float64 filter_size) <> 0.
Proof.
  unfold _get_filer_row_float64, height64, width64. cbn [length hd].
  rewrite length_map, length_filter_row_after. lia.
Qed.

(** The loop of the pyramid on a constant image: every level is constant, and
    its value is the reduced value of the level before. *)
Lemma gaussian_loop_float64_constant weights n :
  height64 weights <> 0 -> width64 weights <> 0 ->
  forall pyr h w c,
    last pyr [] = constant_image64 h w c ->
    (forall i, i < length pyr ->
       exists h' w' c', nth i pyr [] = constant_image64 h' w' c') ->
    exists out,
      gaussian_loop_float64 n pyr weights = Ok out /\
      forall i, i < length out ->
        exists h' w' c', nth i out [] = constant_image64 h' w' c'.
Proof.
  intros Hh Hw. induction n as [|n IH]; intros pyr h w c Hlast Hall.
  - exists pyr. now split.
  - cbn [gaussian_loop_float64].
    destruct ((height64 (last pyr []) <=? MIN_IMG_SIZE)
              || (width64 (last pyr []) <=? MIN_IMG_SIZE));
      [exists pyr; now split|].
    rewrite Hlast, reduce_float64_constant by assumption. cbn [bind].
    apply (IH _ ((h + 1) / 2) ((w + 1) / 2) (reduced_value weights c)).
    + apply last_last.
    + intros i Hi. rewrite length_app in Hi. cbn [length] in Hi.
      destruct (Nat.lt_ge_cases i (length pyr)) as [Hlt|Hge].
      * rewrite app_nth1 by assumption. now apply Hall.
      * rewrite app_nth2 by assumption.
        replace (i - length pyr) with 0 by lia. cbn [nth]. eauto.
Qed.

End ConstantFloat64.

(** C10 (amended).  In exact arithmetic, [reduce] with a kernel whose elements
    sum to 1 (and the reflected border of [convolve]) takes the constant image
    of value [c] and shape [(h, w)] to the constant image of value [c] and
    shape [(ceil (h / 2), ceil (w / 2))], and every level of the Gaussian
    pyramid of a constant image is the constant image of the same value.  In
    float64, as the code computes, [reduce] takes it to a constant image of
    that shape whose value is [reduced_value]: what ndimage accumulates over
    the kernel, along the rows and then along the columns; it is [c] up to
    rounding, not [c] itself, and every level of the Gaussian pyramid of a
    constant image is a constant image. *)
Theorem reduce_of_constant_images :
  (forall (h w : nat) (c : Qc) (filter_vec : image),
     filter_ok filter_vec -> np_sum filter_vec = 1%Qc ->
     reduce (constant_image h w c) filter_vec
     = Ok (constant_image ((h + 1) / 2) ((w + 1) / 2) c)) /\
  (forall (h w : nat) (c : Qc) (max_levels filter_size : Z) (filter_vec : image),
     _get_filer_row filter_size = Ok filter_vec ->
     np_sum filter_vec = 1%Qc ->
     exists pyr,
       build_gaussian_pyramid (constant_image h w c) max_levels filter_size
       = Ok (pyr, filter_vec) /\
       forall i, i < length pyr ->
         exists h' w', nth i pyr [] = constant_image h' w' c) /\
  (forall (h w : nat) (c : float) (filter_vec : image64),
     height64 filter_vec <> 0 -> width64 filter_vec <> 0 ->
     reduce_float64 (constant_image64 h w c) filter_vec
     = Ok (constant_image64 ((h + 1) / 2) ((w + 1) / 2)
                            (reduced_value filter_vec c))) /\
  (forall (h w : nat) (c : float) (max_levels filter_size : Z),
     exists pyr,
       build_gaussian_pyramid_float64 (constant_image64 h w c) max_levels
                                      filter_size
       = Ok (pyr, _get_filer_row_float64 filter_size) /\
       forall i, i < length pyr ->
         exists h' w' c', nth i pyr [] = constant_image64 h' w' c').
Proof.
  split; [|split; [|split]].
  - intros h w c filter_vec Hk Hs. apply reduce_constant_normalized; auto.
    rewrite Hs. ring.
  - intros h w c max_levels filter_size filter_vec Hk Hs.
    destruct (build_gaussian_pyramid_spec (constant_image h w c) max_levels
                _ _ Hk) as (pyr & Hb & Hlev & Hhd & _).
    exists pyr. split; [exact Hb|]. intros i Hi.
    assert (Hs2 : (np_sum filter_vec * np_sum filter_vec)%Qc = 1%Qc)
      by (rewrite Hs; ring).
    apply (gaussian_levels_constant filter_vec c
             (filter_ok_get_filer_row _ _ Hk) Hs2 pyr h w i Hlev Hhd Hi).
  - intros h w c filter_vec Hh Hw. now apply reduce_float64_constant.
  - intros h w c max_levels filter_size.
    destruct (kernel64_shape filter_size) as (Hh & Hw).
    destruct (gaussian_loop_float64_constant
                (_get_filer_row_float64 filter_size)
                (Z.to_nat (max_levels - 1)) Hh Hw
                [constant_image64 h w c] h w c eq_refl)
      as (out & Hout & Hall).
    { intros [|i] Hi; [cbn [nth]; eauto | simpl in Hi; lia]. }
    exists out. unfold build_gaussian_pyramid_float64.
    rewrite Hout. now split.
Qed.

(** Instances: a constant 17x20 image and the pyramid of a constant 32x32
    image, with the kernel of size 3; in float64, the constant 6x6 image of
    value 0.5 with the kernel of size 7, where nothing is rounded. *)
Lemma reduce_of_constant_images_witness :
  reduce (constant_image 17 20 (Z2Qc 3)) (kernel_of 3)
  = Ok (constant_image 9 10 (Z2Qc 3)) /\
  (exists pyr,
     build_gaussian_pyramid (constant_image 32 32 (Z2Qc 3)) 3 3
     = Ok (pyr, kernel_of 3) /\
     forall i, i < length pyr ->
       exists h' w', nth i pyr [] = constant_image h' w' (Z2Qc 3)) /\
  reduce_float64 (constant_image64 6 6 0x1p-1%float) (_get_filer_row_float64 7)
  = Ok (constant_image64 3 3
          (reduced_value (_get_filer_row_float64 7) 0x1p-1%float)) /\
  reduced_value (_get_filer_row_float64 7) 0x1p-1%float = 0x1p-1%float.
Proof.
  destruct reduce_of_constant_images as (H1 & H2 & H3 & _).
  split; [|split; [|split]].
  - apply (H1 17 20 (Z2Qc 3) (kernel_of 3)).
    + split; vm_compute; lia.
    + apply Qc_eq_bool_correct. vm_compute. reflexivity.
  - apply (H2 32 32 (Z2Qc 3) 3%Z 3%Z (kernel_of 3)).
    + vm_compute. reflexivity.
    + apply Qc_eq_bool_correct. vm_compute. reflexivity.
  - apply (H3 6 6 0x1p-1%float (_get_filer_row_float64 7));
      vm_compute; discriminate.
  - vm_compute. reflexivity.
Defined.

(** C10, as stated, fails: in float64, [reduce] of the 6x6 image whose samples
    are all 0.3 (the float64 nearest to it, 0x1.3333333333333p-2), with the
    kernel of size 7, is the 3x3 image whose samples are all
    0.30000000000000004 (0x1.3333333333334p-2), which is not its value. *)
Lemma reduce_constant_float64_counterexample :
  reduce_float64 (constant_image64 6 6 0x1.3333333333333p-2%float)
                 (_get_filer_row_float64 7)
  = Ok (constant_image64 3 3 0x1.3333333333334p-2%float) /\
  (0x1.3333333333334p-2 =? 0x1.3333333333333p-2)%float = false.
Proof.
  split; vm_compute; reflexivity.
Qed.

(** ** Blending *)

Section PyramidShapes.

Lemma map_last {A B : Type} (f : A -> B) l d :
  f (last l d) = last (map f l) (f d).
Proof.
  induction l as [|a [|b l] IH]; try reflexivity. exact IH.
Qed.

(** The shapes of the levels depend on the shape of the image only. *)
Lemma gaussian_loop_shapes n : forall pyr pyr' fv fv' out out',
  gaussian_loop n pyr fv = Ok out -> gaussian_loop n pyr' fv' = Ok out' ->
  map shape pyr = map shape pyr' ->
  map shape out = map shape out'.
Proof.
  induction n as [|n IH]; intros pyr pyr' fv fv' out out' H H' Hs.
  - injection H as <-. injection H' as <-. exact Hs.
  - simpl in H, H'.
    assert (Hl : shape (last pyr []) = shape (last pyr' []))
      by (rewrite (map_last shape pyr []), (map_last shape pyr' []);
          now rewrite Hs).
    unfold shape in Hl. injection Hl as Hh Hw. rewrite <- Hh, <- Hw in H'.
    destruct ((height (last pyr []) <=? MIN_IMG_SIZE)
              || (width (last pyr []) <=? MIN_IMG_SIZE)).
    + injection H as <-. injection H' as <-. exact Hs.
    + apply bind_Ok in H. destruct H as (r & Hr & H).
      apply bind_Ok in H'. destruct H' as (r' & Hr' & H').
      apply (IH _ _ _ _ _ _ H H').
      rewrite !map_app, Hs. simpl. do 2 f_equal.
      apply shape_reduce in Hr, Hr'. unfold shape.
      f_equal; [destruct Hr as (-> & _), Hr' as (-> & _)
               | destruct Hr as (_ & -> & _), Hr' as (_ & -> & _)];
        congruence.
Qed.

Lemma build_gaussian_pyramid_shapes im im' max_levels f f' pyr pyr' fv fv' :
  build_gaussian_pyramid im max_levels f = Ok (pyr, fv) ->
  build_gaussian_pyramid im' max_levels f' = Ok (pyr', fv') ->
  shape im = shape im' ->
  map shape pyr = map shape pyr'.
Proof.
  unfold build_gaussian_pyramid. intros H H' Hs.
  apply bind_Ok in H. destruct H as (k & _ & H).
  apply bind_Ok in H. destruct H as (p & Hp & H). injection H as <- _.
  apply bind_Ok in H'. destruct H' as (k' & _ & H').
  apply bind_Ok in H'. destruct H' as (p' & Hp' & H'). injection H' as <- _.
  apply (gaussian_loop_shapes _ _ _ _ _ _ _ Hp Hp'). simpl. now rewrite Hs.
Qed.

Lemma map_shape_nth (l l' : list image) i :
  map shape l = map shape l' ->
  length l = length l' /\ shape (nth i l []) = shape (nth i l' []).
Proof.
  intros H. split.
  - apply (f_equal (@length _)) in H. now rewrite !length_map in H.
  - rewrite <- (map_nth shape l ([] : image) i).
    rewrite <- (map_nth shape l' ([] : image) i). now rewrite H.
Qed.

(** When the Laplacian pyramid is built, so was the Gaussian pyramid. *)
Lemma build_laplacian_pyramid_Ok im max_levels filter_size lap filter_vec :
  build_laplacian_pyramid im max_levels filter_size = Ok (lap, filter_vec) ->
  exists gauss,
    build_gaussian_pyramid im max_levels filter_size = Ok (gauss, filter_vec).
Proof.
  unfold build_laplacian_pyramid. intros H.
  apply bind_Ok in H. destruct H as ([gauss fv] & Hg & H).
  apply bind_Ok in H. destruct H as (lp & _ & H).
  apply bind_Ok in H. destruct H as (g & _ & H).
  injection H as _ <-. now exists gauss.
Qed.

End PyramidShapes.

Section BlendArrays.

Lemma map_repeat {A B : Type} (f : A -> B) x n :
  map f (repeat x n) = repeat (f x) n.
Proof. induction n as [|n IH]; simpl; [reflexivity | now rewrite IH]. Qed.

Lemma astype_all_mask b h w :
  astype_float64 (all_mask b h w)
  = constant_image h w (if b then 1%Qc else 0%Qc).
Proof.
  unfold astype_float64, all_mask.
  now rewrite !map_repeat, constant_image_repeat.
Qed.

(** [(-1 * g) + 1] for a constant [g]. *)
Lemma complement_constant h w m :
  map (map (fun x => (x + 1)%Qc)) (scale (- (1)) (constant_image h w m))
  = constant_image h w (- (1) * m + 1)%Qc.
Proof.
  unfold scale. now rewrite !constant_image_repeat, !map_repeat.
Qed.

Lemma width_constant_image_any h w m m' :
  width (constant_image h w m) = width (constant_image h w m').
Proof.
  destruct h; [reflexivity|]. now rewrite !width_constant_image by lia.
Qed.

Lemma get_constant_image_shape h w m r c :
  r < height (constant_image h w m) -> c < width (constant_image h w m) ->
  get (constant_image h w m) r c = m.
Proof.
  intros Hr Hc. rewrite height_constant_image in Hr.
  apply get_constant_image; [exact Hr|].
  pose proof (width_mk_image_le h w (fun _ _ => m)). unfold constant_image in Hc.
  lia.
Qed.

(** [g * a + ((-1 * g) + 1) * b] for a constant [g] and arrays of its shape. *)
Lemma blend_arrays h w m a b :
  height a = height (constant_image h w m) ->
  width a = width (constant_image h w m) ->
  height b = height a -> width b = width a ->
  (ga <- np_mul (constant_image h w m) a ;;
   wb <- np_mul (map (map (fun x => (x + 1)%Qc))
                     (scale (- (1)) (constant_image h w m))) b ;;
   np_add ga wb)
  = Ok (mk_image (height a) (width a)
          (fun r c => (m * get a r c + (- (1) * m + 1) * get b r c)%Qc)).
Proof.
  intros Hha Hwa Hhb Hwb.
  rewrite complement_constant.
  unfold np_mul, np_add.
  rewrite broadcast2_same_shape by congruence. simpl.
  rewrite broadcast2_same_shape
    by (rewrite ?height_constant_image in *;
        rewrite ?(width_constant_image_any h w _ m); congruence).
  simpl.
  rewrite broadcast2_same_shape.
  - f_equal. rewrite height_mk_image, width_mk_image_same.
    rewrite <- Hha, <- Hwa. apply mk_image_ext. intros r c Hr Hc.
    rewrite !get_mk_image; try congruence.
    + rewrite !get_constant_image_shape; try congruence.
      * rewrite height_constant_image in *. congruence.
      * rewrite (width_constant_image_any h w _ m). congruence.
    + rewrite height_constant_image in *. congruence.
    + rewrite (width_constant_image_any h w _ m). congruence.
  - now rewrite !height_mk_image, !height_constant_image.
  - rewrite !width_mk_image_same. apply width_constant_image_any.
Qed.

Lemma clip01_in_unit im : in_unit im -> clip01 im = im.
Proof.
  unfold in_unit, clip01. intros H.
  rewrite <- (map_id im) at 2. apply map_ext_in. intros r Hr.
  rewrite <- (map_id r) at 2. apply map_ext_in. intros x Hx.
  rewrite Forall_forall in H. specialize (H r Hr).
  rewrite Forall_forall in H. destruct (H x Hx) as (H0 & H1).
  assert (E : Qcmax x 0 = x).
  { unfold Qcmax. destruct (Qcleb x 0) eqn:E; [|reflexivity].
    apply Qcleb_le in E. now apply Qcle_antisym. }
  rewrite E. unfold Qcmin. apply Qcleb_le in H1. now rewrite H1.
Qed.

End BlendArrays.

Section LaplacianShapes.

Variables (im : image) (max_levels filter_size : Z).
Variables (gauss lap : list image) (filter_vec : image).
Hypothesis im_rect : rect im.
Hypothesis gauss_built :
  build_gaussian_pyramid im max_levels filter_size = Ok (gauss, filter_vec).
Hypothesis lap_built :
  build_laplacian_pyramid im max_levels filter_size = Ok (lap, filter_vec).

(** A Laplacian level has the shape of the Gaussian level. *)
Lemma lap_shape i :
  i < length gauss ->
  height (nth i lap []) = height (nth i gauss []) /\
  width (nth i lap []) = width (nth i gauss []) /\
  rect (nth i lap []).
Proof using im_rect gauss_built lap_built.
  intros Hi.
  destruct (Nat.eq_dec (i + 1) (length gauss)) as [E|E].
  - replace i with (length gauss - 1) by lia.
    rewrite (lap_last _ _ _ _ _ _ gauss_built lap_built).
    repeat split.
    apply (built_rect _ _ _ _ _ im_rect gauss_built). lia.
  - assert (Hi' : i + 1 < length gauss) by lia.
    destruct (built_level _ _ _ _ _ gauss_built i Hi') as (Hh & Hw & Hr).
    destruct (built_levels _ _ _ _ _ gauss_built) as (_ & Hk & _).
    pose proof (lap_level _ _ _ _ _ _ gauss_built lap_built i Hi') as Hl.
    destruct (laplacian_level_Ok filter_vec Hk _ _ Hh Hw Hr _ Hl) as (Eh & Ew).
    destruct (laplacian_level_even filter_vec Hk _ _ Hh Hw Hr Eh Ew)
      as (e & _ & _ & _ & _ & Hl').
    rewrite Hl in Hl'. injection Hl' as Hl'. rewrite Hl'.
    unfold MIN_IMG_SIZE in *.
    rewrite height_mk_image, width_mk_image by lia.
    repeat split. apply rect_mk_image.
Qed.

Lemma lap_levels_bound :
  length lap <= 1 + Z.to_nat (max_levels - 1).
Proof using gauss_built lap_built.
  rewrite (lap_length _ _ _ _ _ _ gauss_built lap_built).
  pose proof (build_gaussian_pyramid_Ok _ _ _ _ _ gauss_built) as Hk.
  destruct (build_gaussian_pyramid_spec im max_levels _ _ Hk)
    as (pyr & Hb & _ & _ & Hlen & _).
  rewrite gauss_built in Hb. injection Hb as <-. lia.
Qed.

End LaplacianShapes.

Section Blending.

Variables (im1 im2 : image) (h w : nat).
Variables (max_levels filter_size_im filter_size_mask : Z).
Variables (l1 l2 : list image) (kernel_im kernel_mask : image).
Hypothesis im1_rect : rect im1.
Hypothesis im2_rect : rect im2.
Hypothesis im1_shape : shape im1 = (h, w).
Hypothesis im2_shape : shape im2 = (h, w).
Hypothesis levels_pos : (1 <= max_levels)%Z.
Hypothesis l1_built :
  build_laplacian_pyramid im1 max_levels filter_size_im = Ok (l1, kernel_im).
Hypothesis l2_built :
  build_laplacian_pyramid im2 max_levels filter_size_im = Ok (l2, kernel_im).
Hypothesis mask_kernel : _get_filer_row filter_size_mask = Ok kernel_mask.
Hypothesis mask_kernel_normalized :
  (np_sum kernel_mask * np_sum kernel_mask)%Qc = 1%Qc.

Variable b : bool.

Local Abbreviation m := (if b then 1%Qc else 0%Qc).
Local Abbreviation chosen := (if b then l1 else l2).

Lemma shape_constant_mask : shape (constant_image h w m) = shape im1.
Proof using im1_shape im2_shape.
  pose proof im1_shape as Hs. unfold shape in Hs. injection Hs as Hh Hw.
  unfold shape. rewrite Hh, Hw, height_constant_image. f_equal.
  destruct (Nat.eq_dec h 0) as [E|E]; [|apply width_constant_image; lia].
  rewrite E in Hh |- *. apply height_0_nil in Hh. rewrite Hh in Hw.
  simpl in Hw. now rewrite <- Hw.
Qed.

Lemma blend_levels gm gauss1 gauss2 :
  build_gaussian_pyramid im1 max_levels filter_size_im = Ok (gauss1, kernel_im) ->
  build_gaussian_pyramid im2 max_levels filter_size_im = Ok (gauss2, kernel_im) ->
  build_gaussian_pyramid (constant_image h w m) max_levels filter_size_mask
  = Ok (gm, kernel_mask) ->
  comprehension (blend_level gm l1 l2) (seq 0 (length l1)) = Ok chosen.
Proof using im1_rect im2_rect im1_shape im2_shape l1_built l2_built
            mask_kernel_normalized.
  intros Hg1 Hg2 Hgm.
  pose proof (lap_length _ _ _ _ _ _ Hg1 l1_built) as Hlen1.
  pose proof (lap_length _ _ _ _ _ _ Hg2 l2_built) as Hlen2.
  assert (Hs12 : map shape gauss1 = map shape gauss2)
    by (apply (build_gaussian_pyramid_shapes _ _ _ _ _ _ _ _ _ Hg1 Hg2);
        congruence).
  assert (Hs1m : map shape gauss1 = map shape gm)
    by (apply (build_gaussian_pyramid_shapes _ _ _ _ _ _ _ _ _ Hg1 Hgm);
        symmetry; apply shape_constant_mask).
  destruct (map_shape_nth _ _ 0 Hs12) as (Hl12 & _).
  destruct (map_shape_nth _ _ 0 Hs1m) as (Hl1m & _).
  apply (comprehension_intro _ _ _ 0 []).
  { rewrite length_seq. destruct b; congruence. }
  rewrite length_seq. intros i Hi. rewrite seq_nth by assumption.
  cbn [Nat.add].
  destruct (map_shape_nth _ _ i Hs12) as (_ & Hsi12).
  destruct (map_shape_nth _ _ i Hs1m) as (_ & Hsi1m).
  destruct (lap_shape _ _ _ _ _ _ im1_rect Hg1 l1_built i) as (Hh1 & Hw1 & Hr1);
    [lia|].
  destruct (lap_shape _ _ _ _ _ _ im2_rect Hg2 l2_built i) as (Hh2 & Hw2 & Hr2);
    [lia|].
  destruct (built_levels _ _ _ _ _ Hgm) as (Hlev & Hk & Hhd).
  destruct (gaussian_levels_constant kernel_mask m Hk mask_kernel_normalized
              gm h w i Hlev Hhd) as (h' & w' & Hc); [lia|].
  unfold shape in Hsi12, Hsi1m.
  injection Hsi12 as Hh12 Hw12. injection Hsi1m as Hh1m Hw1m.
  assert (Hi1 : i < length l1) by exact Hi.
  assert (Hi2 : i < length l2) by lia.
  assert (Him : i < length gm) by lia.
  unfold blend_level.
  rewrite (py_index_nth gm i [] Him).
  rewrite (py_index_nth l1 i [] Hi1).
  rewrite (py_index_nth l2 i [] Hi2).
  cbn [bind]. rewrite Hc.
  rewrite blend_arrays.
  - f_equal. destruct b.
    + apply mk_image_eq; [exact Hr1|]. intros. cbv beta iota. ring.
    + replace (height (nth i l1 [])) with (height (nth i l2 []))
        by congruence.
      replace (width (nth i l1 [])) with (width (nth i l2 []))
        by congruence.
      apply mk_image_eq; [exact Hr2|]. intros. cbv beta iota. ring.
  - rewrite <- Hc. congruence.
  - rewrite <- Hc. congruence.
  - congruence.
  - congruence.
Qed.

Lemma blend_all_mask :
  in_unit (if b then im1 else im2) ->
  pyramid_blending im1 im2 (all_mask b h w) max_levels filter_size_im
                   filter_size_mask
  = Ok (if b then im1 else im2).
Proof using All.
  intros Hunit.
  destruct (build_laplacian_pyramid_Ok _ _ _ _ _ l1_built) as (gauss1 & Hg1).
  destruct (build_laplacian_pyramid_Ok _ _ _ _ _ l2_built) as (gauss2 & Hg2).
  destruct (build_gaussian_pyramid_spec (constant_image h w m) max_levels
              _ _ mask_kernel) as (gm & Hgm & _).
  unfold pyramid_blending.
  rewrite l1_built, l2_built, astype_all_mask, Hgm. cbn [bind].
  rewrite (blend_levels gm gauss1 gauss2 Hg1 Hg2 Hgm). cbn [bind].
  assert (Hco : forall l : list image,
            length l <= 1 + Z.to_nat (max_levels - 1) ->
            forall i, i < length l ->
              nth_error (repeat 1%Qc (Z.to_nat max_levels)) i = Some 1%Qc).
  { intros l Hl i Hi. apply nth_error_repeat. lia. }
  destruct b.
  - rewrite (laplacian_round_trip _ _ _ _ _ _ im1_rect Hg1 l1_built).
    + cbn [bind]. now rewrite clip01_in_unit.
    + apply Hco. apply (lap_levels_bound _ _ _ _ _ _ Hg1 l1_built).
  - rewrite (laplacian_round_trip _ _ _ _ _ _ im2_rect Hg2 l2_built).
    + cbn [bind]. now rewrite clip01_in_unit.
    + apply Hco. apply (lap_levels_bound _ _ _ _ _ _ Hg2 l2_built).
Qed.

End Blending.

(** Images of one shape have Laplacian pyramids together. *)
Lemma build_laplacian_pyramid_same_shape im1 im2 max_levels filter_size l1 k :
  build_laplacian_pyramid im1 max_levels filter_size = Ok (l1, k) ->
  shape im1 = shape im2 ->
  exists l2, build_laplacian_pyramid im2 max_levels filter_size = Ok (l2, k).
Proof.
  intros Hl1 Hs.
  destruct (build_laplacian_pyramid_Ok _ _ _ _ _ Hl1) as (gauss1 & Hg1).
  pose proof (build_gaussian_pyramid_Ok _ _ _ _ _ Hg1) as Hk.
  destruct (build_gaussian_pyramid_spec im2 max_levels _ _ Hk)
    as (gauss2 & Hg2 & _).
  pose proof (build_gaussian_pyramid_shapes _ _ _ _ _ _ _ _ _ Hg1 Hg2 Hs) as Hsh.
  eexists. apply (build_laplacian_even _ _ _ _ _ Hg2).
  intros i Hi.
  destruct (map_shape_nth _ _ i Hsh) as (Hlen & Hsi).
  unfold shape in Hsi. injection Hsi as Hh Hw. rewrite <- Hh, <- Hw.
  assert (Hi' : i + 1 < length gauss1) by lia.
  destruct (built_level _ _ _ _ _ Hg1 i Hi') as (Hbh & Hbw & Hr).
  destruct (built_levels _ _ _ _ _ Hg1) as (_ & Hfk & _).
  apply (laplacian_level_Ok k Hfk _ _ Hbh Hbw Hr (nth i l1 [])).
  apply (lap_level _ _ _ _ _ _ Hg1 Hl1 i Hi').
Qed.

Section Halvable.

Variable filter_vec : image.

Lemma gaussian_loop_prefix n : forall pyr out,
  gaussian_loop n pyr filter_vec = Ok out -> exists ext, out = pyr ++ ext.
Proof.
  induction n as [|n IH]; intros pyr out H.
  - injection H as <-. exists []. now rewrite app_nil_r.
  - simpl in H.
    destruct ((height (last pyr []) <=? MIN_IMG_SIZE)
              || (width (last pyr []) <=? MIN_IMG_SIZE)).
    + injection H as <-. exists []. now rewrite app_nil_r.
    + apply bind_Ok in H. destruct H as (r & _ & H).
      destruct (IH _ _ H) as (ext & ->). exists (r :: ext).
      now rewrite <- app_assoc.
Qed.

(** With halvable dimensions every level that is reduced has an even height
    and an even width. *)
Lemma gaussian_loop_halvable n : forall pyr out,
  pyr <> [] ->
  gaussian_loop n pyr filter_vec = Ok out ->
  halvable n (height (last pyr [])) (width (last pyr [])) = true ->
  forall i, length pyr <= i + 1 -> i + 1 < length out ->
    Nat.even (height (nth i out [])) = true /\
    Nat.even (width (nth i out [])) = true.
Proof.
  induction n as [|n IH]; intros pyr out Hne H Hv i Hi Hio.
  - injection H as <-. lia.
  - simpl in H, Hv.
    destruct ((height (last pyr []) <=? MIN_IMG_SIZE)
              || (width (last pyr []) <=? MIN_IMG_SIZE)).
    + injection H as <-. lia.
    + apply bind_Ok in H. destruct H as (r & Hr & H).
      apply andb_prop in Hv. destruct Hv as (Hv & Hv').
      apply andb_prop in Hv. destruct Hv as (Eh & Ew).
      destruct (Nat.eq_dec (i + 1) (length pyr)) as [E|E].
      * destruct (gaussian_loop_prefix _ _ _ H) as (ext & ->).
        rewrite <- app_assoc, app_nth1 by lia.
        replace i with (length pyr - 1) by lia.
        now rewrite nth_pred_last.
      * apply (IH (pyr ++ [r])); auto.
        -- now destruct pyr.
        -- rewrite last_last. apply shape_reduce in Hr.
           destruct Hr as (-> & -> & _). exact Hv'.
        -- rewrite length_app. simpl. lia.
Qed.

End Halvable.

(** With a kernel and halvable dimensions the Laplacian pyramid is built. *)
Lemma build_laplacian_pyramid_halvable im max_levels filter_size filter_vec :
  _get_filer_row filter_size = Ok filter_vec ->
  halvable (Z.to_nat (max_levels - 1)) (height im) (width im) = true ->
  exists pyr,
    build_laplacian_pyramid im max_levels filter_size = Ok (pyr, filter_vec).
Proof.
  intros Hk Hv.
  destruct (build_gaussian_pyramid_spec im max_levels _ _ Hk)
    as (gauss & Hg & _).
  eexists. apply (build_laplacian_even _ _ _ _ _ Hg).
  pose proof Hg as Hg'. unfold build_gaussian_pyramid in Hg'.
  rewrite Hk in Hg'. cbn [bind] in Hg'.
  apply bind_Ok in Hg'. destruct Hg' as (p & Hp & Hg'). injection Hg' as ->.
  intros i Hi.
  apply (gaussian_loop_halvable filter_vec (Z.to_nat (max_levels - 1))
           [im] gauss); auto.
  - discriminate.
  - simpl. lia.
Qed.

Lemma in_unit_mk_image h w f :
  (forall i j, (0 <= f i j)%Qc /\ (f i j <= 1)%Qc) -> in_unit (mk_image h w f).
Proof.
  intros H. unfold in_unit, mk_image.
  apply Forall_forall. intros r Hr. apply in_map_iff in Hr.
  destruct Hr as (i & <- & _).
  apply Forall_forall. intros x Hx. apply in_map_iff in Hx.
  destruct Hx as (j & <- & _). apply H.
Qed.

(** C6.  For two images of one shape [(h, w)], with samples in [[0, 1]] and
    dimensions compatible with the halvings, [1 <= max_levels] and filter
    sizes for which the kernels exist: blending with the all-ones mask of
    that shape returns the first image and blending with the all-zeros mask
    returns the second one, exactly. *)
Theorem blending_mask_extremes :
  forall (im1 im2 : image) (h w : nat)
         (max_levels filter_size_im filter_size_mask : Z)
         (kernel_im kernel_mask : image),
    rect im1 -> rect im2 ->
    shape im1 = (h, w) -> shape im2 = (h, w) ->
    in_unit im1 -> in_unit im2 ->
    halvable (Z.to_nat (max_levels - 1)) h w = true ->
    (1 <= max_levels)%Z ->
    _get_filer_row filter_size_im = Ok kernel_im ->
    _get_filer_row filter_size_mask = Ok kernel_mask ->
    pyramid_blending im1 im2 (all_mask true h w) max_levels filter_size_im
                     filter_size_mask = Ok im1 /\
    pyramid_blending im1 im2 (all_mask false h w) max_levels filter_size_im
                     filter_size_mask = Ok im2.
Proof.
  intros im1 im2 h w max_levels filter_size_im filter_size_mask
         kernel_im kernel_mask Hr1 Hr2 Hs1 Hs2 Hu1 Hu2 Hv HL Hki Hkm.
  pose proof Hs1 as Hs1'. unfold shape in Hs1'. injection Hs1' as Hh1 Hw1.
  destruct (build_laplacian_pyramid_halvable im1 max_levels _ _ Hki)
    as (l1 & Hl1); [now rewrite Hh1, Hw1|].
  destruct (build_laplacian_pyramid_same_shape im1 im2 _ _ _ _ Hl1)
    as (l2 & Hl2); [congruence|].
  pose proof (get_filer_row_sum_square _ _ Hkm) as Hsq.
  split.
  - apply (blend_all_mask im1 im2 h w max_levels filter_size_im
             filter_size_mask l1 l2 kernel_im kernel_mask
             Hr1 Hr2 Hs1 Hs2 HL Hl1 Hl2 Hkm Hsq true Hu1).
  - apply (blend_all_mask im1 im2 h w max_levels filter_size_im
             filter_size_mask l1 l2 kernel_im kernel_mask
             Hr1 Hr2 Hs1 Hs2 HL Hl1 Hl2 Hkm Hsq false Hu2).
Qed.

(** An instance: an 18x18 checkerboard and an 18x18 image of zeros, two
    levels, kernels of sizes 3 and 5. *)
Lemma blending_mask_extremes_witness :
  pyramid_blending (checkerboard 18 18) (zeros 18 18) (all_mask true 18 18) 2 3 5
  = Ok (checkerboard 18 18) /\
  pyramid_blending (checkerboard 18 18) (zeros 18 18) (all_mask false 18 18) 2 3 5
  = Ok (zeros 18 18).
Proof.
  apply (blending_mask_extremes
           (checkerboard 18 18) (zeros 18 18) 18 18 2 3 5
           (kernel_of 3) (kernel_of 5)).
  - apply rect_mk_image.
  - apply rect_mk_image.
  - reflexivity.
  - reflexivity.
  - apply in_unit_mk_image. intros i j.
    destruct (Nat.even (i + j)); split; apply Qcleb_le; reflexivity.
  - apply in_unit_mk_image. intros i j. split; apply Qcleb_le; reflexivity.
  - reflexivity.
  - lia.
  - vm_compute. reflexivity.
  - vm_compute. reflexivity.
Defined.

(** C2.  Whenever [build_laplacian_pyramid] returns a pyramid [pyr] and a
    filter for an image, [laplacian_to_image] with the coefficient 1 at each
    of the [len(pyr)] levels returns the image, exactly; and it does return
    one for every image whose dimensions are compatible with the halvings,
    every [max_levels] and every filter size for which the kernel exists. *)
Theorem laplacian_pyramid_round_trip :
  (forall (im : image) (max_levels filter_size : Z)
          (pyr : list image) (filter_vec : image),
     rect im ->
     build_laplacian_pyramid im max_levels filter_size = Ok (pyr, filter_vec) ->
     laplacian_to_image pyr filter_vec (repeat 1%Qc (length pyr)) = Ok im) /\
  (forall (im : image) (max_levels filter_size : Z) (filter_vec : image),
     rect im ->
     _get_filer_row filter_size = Ok filter_vec ->
     halvable (Z.to_nat (max_levels - 1)) (height im) (width im) = true ->
     exists pyr,
       build_laplacian_pyramid im max_levels filter_size = Ok (pyr, filter_vec) /\
       laplacian_to_image pyr filter_vec (repeat 1%Qc (length pyr)) = Ok im).
Proof.
  assert (H : forall (im : image) (max_levels filter_size : Z)
                     (pyr : list image) (filter_vec : image),
     rect im ->
     build_laplacian_pyramid im max_levels filter_size = Ok (pyr, filter_vec) ->
     laplacian_to_image pyr filter_vec (repeat 1%Qc (length pyr)) = Ok im).
  { intros im max_levels filter_size pyr filter_vec Hr Hb.
    destruct (build_laplacian_pyramid_Ok _ _ _ _ _ Hb) as (gauss & Hg).
    apply (laplacian_round_trip _ _ _ _ _ _ Hr Hg Hb).
    intros i Hi. now apply nth_error_repeat. }
  split; [exact H|].
  intros im max_levels filter_size filter_vec Hr Hk Hv.
  destruct (build_laplacian_pyramid_halvable im max_levels _ _ Hk Hv)
    as (pyr & Hb).
  exists pyr. split; [exact Hb|]. now apply (H im max_levels filter_size).
Qed.

(** An instance: a 36x20 checkerboard, five levels asked, a kernel of size 3. *)
Lemma laplacian_pyramid_round_trip_witness :
  exists pyr,
    build_laplacian_pyramid (checkerboard 36 20) 5 3 = Ok (pyr, kernel_of 3) /\
    laplacian_to_image pyr (kernel_of 3) (repeat 1%Qc (length pyr))
    = Ok (checkerboard 36 20).
Proof.
  destruct laplacian_pyramid_round_trip as (_ & H).
  apply (H (checkerboard 36 20) 5%Z 3%Z (kernel_of 3)).
  - apply rect_mk_image.
  - vm_compute. reflexivity.
  - vm_compute. reflexivity.
Defined.

(** * Further properties of the functions *)

(** ** [reduce] and [expand] *)

Section ReduceExpand.

Lemma convolve_Raise im k :
  height k = 0 \/ width k = 0 -> convolve im k = Raise RuntimeError.
Proof.
  intros [H|H]; unfold convolve; rewrite H; simpl; [reflexivity|].
  now rewrite orb_true_r.
Qed.

Lemma map_map_mk_image (f : Qc -> Qc) h w F :
  map (map f) (mk_image h w F) = mk_image h w (fun i j => f (F i j)).
Proof.
  unfold mk_image. rewrite map_map. apply map_ext. intros i.
  now rewrite map_map.
Qed.

Lemma height_map_map (f : Qc -> Qc) (im : image) :
  height (map (map f) im) = height im.
Proof. apply length_map. Qed.

Lemma width_map_map (f : Qc -> Qc) (im : image) :
  width (map (map f) im) = width im.
Proof. destruct im; [reflexivity | apply length_map]. Qed.

(** An element of a mapped array, for a map that keeps 0 (the value read
    outside of an array). *)
Lemma get_map_map_0 (f : Qc -> Qc) (im : image) i j :
  f 0%Qc = 0%Qc -> get (map (map f) im) i j = f (get im i j).
Proof.
  intros H0. unfold get.
  change (@nil Qc) with (map f []) at 1. rewrite map_nth.
  rewrite <- H0 at 1. apply map_nth.
Qed.

(** An element inside of a mapped array. *)
Lemma get_map_map_in (f : Qc -> Qc) (im : image) i j :
  rect im -> i < height im -> j < width im ->
  get (map (map f) im) i j = f (get im i j).
Proof.
  intros Hr Hi Hj. unfold get.
  change (@nil Qc) with (map f []) at 1. rewrite map_nth.
  assert (Hlen : length (nth i im []) = width im).
  { unfold rect in Hr. rewrite Forall_forall in Hr. apply Hr, nth_In. exact Hi. }
  rewrite nth_indep with (d' := f 0%Qc) by (rewrite length_map; lia).
  apply map_nth.
Qed.

End ReduceExpand.

(** X1.  [reduce] returns for every image and every filter of which no axis is
    empty, and the array it returns is rectangular with the shape
    [(ceil (h / 2), ceil (w / 2))]; with a filter of which an axis is empty it
    raises [RuntimeError]. *)
Theorem reduce_shape :
  forall (im blur_filter : image),
    (filter_ok blur_filter ->
     exists r, reduce im blur_filter = Ok r /\ rect r /\
               shape r = ((height im + 1) / 2, (width im + 1) / 2)) /\
    (height blur_filter = 0 \/ width blur_filter = 0 ->
     reduce im blur_filter = Raise RuntimeError).
Proof.
  intros im k. split.
  - intros Hk. eexists. split; [apply (reduce_Ok _ _ Hk)|].
    destruct (shape_reduce _ _ _ (reduce_Ok im k Hk)) as (Hh & Hw & Hr).
    split; [exact Hr|]. unfold shape. now rewrite Hh, Hw.
  - intros H. unfold reduce. now rewrite convolve_Raise.
Qed.

(** Instances: a 5x7 checkerboard with the kernel of size 3, and with no
    filter row. *)
Lemma reduce_shape_witness :
  (exists r, reduce (checkerboard 5 7) (kernel_of 3) = Ok r /\ rect r /\
             shape r = (3, 4)) /\
  reduce (checkerboard 5 7) [] = Raise RuntimeError.
Proof.
  destruct (reduce_shape (checkerboard 5 7) (kernel_of 3)) as (H1 & _).
  destruct (reduce_shape (checkerboard 5 7) []) as (_ & H2).
  split; [apply H1; split; vm_compute; lia | apply H2; left; reflexivity].
Defined.

(** X2.  [expand] returns for every image and every filter of which no axis is
    empty, and the array it returns is rectangular with the shape
    [(2 h, 2 w)]; with a filter of which an axis is empty it raises
    [RuntimeError]. *)
Theorem expand_shape :
  forall (im blur_filter : image),
    (filter_ok blur_filter ->
     exists e, expand im blur_filter = Ok e /\ rect e /\
               shape e = (height im * 2, width im * 2)) /\
    (height blur_filter = 0 \/ width blur_filter = 0 ->
     expand im blur_filter = Raise RuntimeError).
Proof.
  intros im k. split.
  - intros Hk. eexists. split; [apply (expand_Ok _ _ Hk)|].
    destruct (shape_expand _ _ _ (expand_Ok im k Hk)) as (Hh & Hw & Hr).
    split; [exact Hr|]. unfold shape. now rewrite Hh, Hw.
  - intros H. unfold expand. rewrite convolve_Raise; [reflexivity|].
    now rewrite height_scale, width_scale.
Qed.

(** Instances: a 5x7 checkerboard with the kernel of size 3, and with no
    filter row. *)
Lemma expand_shape_witness :
  (exists e, expand (checkerboard 5 7) (kernel_of 3) = Ok e /\ rect e /\
             shape e = (10, 14)) /\
  expand (checkerboard 5 7) [] = Raise RuntimeError.
Proof.
  destruct (expand_shape (checkerboard 5 7) (kernel_of 3)) as (H1 & _).
  destruct (expand_shape (checkerboard 5 7) []) as (_ & H2).
  split; [apply H1; split; vm_compute; lia | apply H2; left; reflexivity].
Defined.

(** ** Linearity *)

Section ScaledShape.

Lemma height_scale_r im c : height (scale_r im c) = height im.
Proof. apply height_map_map. Qed.

Lemma width_scale_r im c : width (scale_r im c) = width im.
Proof. apply width_map_map. Qed.

End ScaledShape.

Section BinomialKernel.

Lemma binom_0_r n : binom n 0 = 1%Z.
Proof. now destruct n. Qed.

Lemma binom_S_S n k : binom (S n) (S k) = (binom n k + binom n (S k))%Z.
Proof. reflexivity. Qed.

Lemma binom_nonneg n : forall k, (0 <= binom n k)%Z.
Proof.
  induction n as [|n IH]; intros [|k]; simpl; try lia.
  pose proof (IH k). pose proof (IH (S k)). lia.
Qed.

Lemma binom_above n : forall k, n < k -> binom n k = 0%Z.
Proof.
  induction n as [|n IH]; intros [|k] H; simpl; try lia.
  rewrite !IH by lia. reflexivity.
Qed.

Lemma binom_bound n : forall k, (binom (S n) k <= 2 ^ Z.of_nat n)%Z.
Proof.
  induction n as [|n IH]; intros k.
  - destruct k as [|[|k]]; simpl; lia.
  - destruct k as [|k].
    + rewrite binom_0_r. pose proof (Z.pow_pos_nonneg 2 (Z.of_nat (S n))). lia.
    + rewrite binom_S_S. pose proof (IH k). pose proof (IH (S k)).
      replace (Z.of_nat (S n)) with (Z.of_nat n + 1)%Z by lia.
      rewrite Z.pow_add_r by lia. lia.
Qed.

Lemma int64_congr a b :
  (a mod 2 ^ 64 = b mod 2 ^ 64)%Z -> int64 a = int64 b.
Proof.
  intros H. unfold int64.
  rewrite <- (Zplus_mod_idemp_l a), H, Zplus_mod_idemp_l. reflexivity.
Qed.

Lemma int64_id z : (- 2 ^ 63 <= z < 2 ^ 63)%Z -> int64 z = z.
Proof.
  intros H. unfold int64. rewrite Z.mod_small; lia.
Qed.

Lemma int64_add a b : int64 (int64 a + int64 b) = int64 (a + b).
Proof.
  apply int64_congr. rewrite Zplus_mod, !int64_mod, <- Zplus_mod. reflexivity.
Qed.

Lemma int64_binom n k : n <= 63 -> int64 (binom n k) = binom n k.
Proof.
  intros H. apply int64_id. pose proof (binom_nonneg n k).
  destruct n as [|n].
  - destruct k; simpl; lia.
  - pose proof (binom_bound n k).
    assert (2 ^ Z.of_nat n <= 2 ^ 62)%Z by (apply Z.pow_le_mono_r; lia).
    lia.
Qed.

Lemma nth_binom_row n m :
  nth m (map (fun k => int64 (binom n k)) (seq 0 (n + 1))) 0%Z
  = int64 (binom n m).
Proof.
  destruct (Nat.lt_ge_cases m (n + 1)) as [H|H].
  - rewrite (nth_indep _ 0%Z (int64 (binom n 0)))
      by now rewrite length_map, length_seq.
    rewrite (map_nth (fun k => int64 (binom n k))), seq_nth by assumption.
    reflexivity.
  - rewrite nth_overflow by now rewrite length_map, length_seq.
    rewrite binom_above by lia. reflexivity.
Qed.

(** The integer row of the loop holds the binomial coefficients, as 64-bit
    integers keep them. *)
Lemma filter_row_after_binom n :
  filter_row_after n = map (fun k => int64 (binom n k)) (seq 0 (n + 1)).
Proof.
  induction n as [|n IH]; [reflexivity|].
  change (filter_row_after (S n))
    with (convolve1d (filter_row_after n) [1; 1]%Z).
  unfold convolve1d. rewrite length_filter_row_after.
  replace (n + 1 + length [1%Z; 1%Z] - 1) with (S n + 1) by (simpl; lia).
  apply map_ext. intros m. rewrite convolve1d_term, IH.
  rewrite nth_binom_row.
  destruct m as [|m]; simpl before.
  - rewrite !binom_0_r. reflexivity.
  - rewrite nth_binom_row, binom_S_S. apply int64_add.
Qed.

Lemma int64_zsum_filter_row n :
  int64 (zsum (filter_row_after n)) = int64 (2 ^ Z.of_nat n).
Proof. apply int64_congr, zsum_filter_row_after. Qed.

End BinomialKernel.

Section KernelSign.







(** The kernel of [_get_filer_row], for the sizes that have one. *)
Lemma get_filer_row_value filter_size :
  (filter_size <= 64)%Z ->
  let n := Z.to_nat (filter_size - 1) in
  _get_filer_row filter_size
  = Ok [map (fun k => (Z2Qc (binom n k) / Z2Qc (int64 (2 ^ Z.of_nat n)))%Qc)
            (seq 0 (n + 1))] /\
  ((filter_size <= 63)%Z -> int64 (2 ^ Z.of_nat n) = (2 ^ Z.of_nat n)%Z) /\
  (filter_size = 64%Z -> int64 (2 ^ Z.of_nat n) = (- 2 ^ 63)%Z).
Proof.
  intros Hfs n.
  assert (Hsmall : (filter_size <= 63)%Z ->
                   int64 (2 ^ Z.of_nat n) = (2 ^ Z.of_nat n)%Z).
  { intros H. apply int64_id.
    assert (2 ^ Z.of_nat n <= 2 ^ 62)%Z
      by (apply Z.pow_le_mono_r; unfold n; lia).
    pose proof (Z.pow_pos_nonneg 2 (Z.of_nat n)). lia. }
  assert (H64 : filter_size = 64%Z -> int64 (2 ^ Z.of_nat n) = (- 2 ^ 63)%Z).
  { intros E. unfold n. rewrite E. now vm_compute. }
  split; [|split; assumption].
  unfold _get_filer_row. fold n.
  rewrite int64_zsum_filter_row. unfold np_true_divide.
  assert (Hnz : int64 (2 ^ Z.of_nat n) <> 0%Z).
  { destruct (Z.eq_dec filter_size 64) as [E|E].
    - rewrite (H64 E). discriminate.
    - rewrite Hsmall by lia. apply Z.pow_nonzero; lia. }
  apply Z.eqb_neq in Hnz. rewrite Hnz. cbn [bind].
  rewrite filter_row_after_binom, map_map. do 2 f_equal.
  apply map_ext. intros k. rewrite int64_binom by (unfold n; lia).
  reflexivity.
Qed.



End KernelSign.

(** X5.  For a filter size from 1 to 64, [_get_filer_row] returns the row of
    the binomial coefficients C(n, k), n = filter_size - 1, each divided by
    the sum of the row as a 64-bit integer holds it: 2^n up to size 63, and
    -2^63 for size 64, where every entry of the kernel is therefore
    negative or zero. *)
Theorem get_filer_row_binomial :
  forall filter_size : Z,
    (1 <= filter_size <= 64)%Z ->
    let n := Z.to_nat (filter_size - 1) in
    _get_filer_row filter_size
    = Ok [map (fun k => (Z2Qc (binom n k) / Z2Qc (int64 (2 ^ Z.of_nat n)))%Qc)
              (seq 0 (n + 1))] /\
    ((filter_size <= 63)%Z -> int64 (2 ^ Z.of_nat n) = (2 ^ Z.of_nat n)%Z) /\
    (filter_size = 64%Z -> int64 (2 ^ Z.of_nat n) = (- 2 ^ 63)%Z).
Proof.
  intros fs Hfs. apply get_filer_row_value. lia.
Qed.

(** An instance: the kernel of size 5 is [1, 4, 6, 4, 1] / 16. *)
Lemma get_filer_row_binomial_witness :
  _get_filer_row 5
  = Ok [map (fun k => (Z2Qc (binom 4 k) / Z2Qc (int64 (2 ^ 4)))%Qc)
            (seq 0 5)].
Proof.
  apply (get_filer_row_binomial 5). lia.
Defined.


Section PyramidStructure.

Lemma shape_last (pyr : list image) :
  pyr <> [] ->
  map shape pyr
  = removelast (map shape pyr)
    ++ [(height (last pyr []), width (last pyr []))].
Proof.
  intros Hne.
  change (height (last pyr []), width (last pyr []))
    with (shape (last pyr [])).
  rewrite (map_last shape pyr []).
  apply app_removelast_last. now destruct pyr.
Qed.

Lemma gaussian_loop_level_shapes n : forall pyr out fv,
  pyr <> [] ->
  gaussian_loop n pyr fv = Ok out ->
  map shape out
  = removelast (map shape pyr)
    ++ level_shapes n (height (last pyr [])) (width (last pyr [])).
Proof.
  induction n as [|n IH]; intros pyr out fv Hne H.
  - injection H as <-. now apply shape_last.
  - simpl in H. cbn [level_shapes].
    destruct ((height (last pyr []) <=? MIN_IMG_SIZE)
              || (width (last pyr []) <=? MIN_IMG_SIZE)).
    + injection H as <-. now apply shape_last.
    + apply bind_Ok in H. destruct H as (r & Hr & H).
      apply IH in H; [|now destruct pyr].
      rewrite H, last_last, map_app. cbn [map].
      rewrite removelast_last.
      apply shape_reduce in Hr. destruct Hr as (-> & -> & _).
      rewrite (shape_last pyr Hne) at 1. now rewrite <- app_assoc.
Qed.

Lemma gaussian_pyramid_level_shapes im max_levels filter_size pyr k :
  build_gaussian_pyramid im max_levels filter_size = Ok (pyr, k) ->
  map shape pyr
  = level_shapes (Z.to_nat (max_levels - 1)) (height im) (width im).
Proof.
  unfold build_gaussian_pyramid. intros H.
  apply bind_Ok in H. destruct H as (fv & _ & H).
  apply bind_Ok in H. destruct H as (p & Hp & H). injection H as <- _.
  apply gaussian_loop_level_shapes in Hp; [exact Hp | discriminate].
Qed.

Lemma laplacian_pyramid_shapes im max_levels filter_size gauss lap k :
  rect im ->
  build_gaussian_pyramid im max_levels filter_size = Ok (gauss, k) ->
  build_laplacian_pyramid im max_levels filter_size = Ok (lap, k) ->
  map shape lap = map shape gauss.
Proof.
  intros Hr Hg Hl.
  pose proof (lap_length _ _ _ _ _ _ Hg Hl) as Hlen.
  apply (nth_ext _ _ (shape []) (shape [])).
  - now rewrite !length_map.
  - intros i Hi. rewrite length_map in Hi.
    rewrite !(map_nth shape).
    destruct (lap_shape _ _ _ _ _ _ Hr Hg Hl i) as (Hh & Hw & _); [lia|].
    unfold shape. now rewrite Hh, Hw.
Qed.

(** When the dimensions are not halvable, a level that is reduced has an odd
    height or an odd width. *)
Lemma gaussian_loop_not_halvable fv n : forall pyr out,
  pyr <> [] ->
  gaussian_loop n pyr fv = Ok out ->
  halvable n (height (last pyr [])) (width (last pyr [])) = false ->
  exists i, i + 1 < length out /\
    (Nat.odd (height (nth i out [])) = true \/
     Nat.odd (width (nth i out [])) = true).
Proof.
  induction n as [|n IH]; intros pyr out Hne H Hv; [discriminate|].
  simpl in H, Hv.
  destruct ((height (last pyr []) <=? MIN_IMG_SIZE)
            || (width (last pyr []) <=? MIN_IMG_SIZE)); [discriminate|].
  apply bind_Ok in H. destruct H as (r & Hr & H).
  destruct (Nat.even (height (last pyr [])) && Nat.even (width (last pyr [])))
    eqn:E.
  - apply (IH (pyr ++ [r])); [now destruct pyr | exact H |].
    rewrite last_last. apply shape_reduce in Hr.
    destruct Hr as (-> & -> & _). exact Hv.
  - destruct (gaussian_loop_prefix _ _ _ _ H) as (ext & ->).
    exists (length pyr - 1).
    assert (0 < length pyr) by (destruct pyr; [congruence | simpl; lia]).
    split; [rewrite !length_app; simpl; lia|].
    rewrite <- app_assoc, app_nth1 by lia. rewrite nth_pred_last.
    unfold Nat.odd. apply andb_false_iff in E.
    destruct E as [-> | ->]; auto.
Qed.

End PyramidStructure.

(** X6.  A pyramid of one level: when [max_levels] is at most 1 (zero and
    negative values included) or a dimension of the image is at most
    [MIN_IMG_SIZE], the Gaussian pyramid and the Laplacian pyramid are both
    the list of the image alone, for every filter size with a kernel. *)
Theorem single_level_pyramids :
  forall (im : image) (max_levels filter_size : Z) (filter_vec : image),
    _get_filer_row filter_size = Ok filter_vec ->
    (max_levels <= 1)%Z \/ height im <= MIN_IMG_SIZE
    \/ width im <= MIN_IMG_SIZE ->
    build_gaussian_pyramid im max_levels filter_size = Ok ([im], filter_vec) /\
    build_laplacian_pyramid im max_levels filter_size = Ok ([im], filter_vec).
Proof.
  intros im ml fs k Hk Hc.
  assert (Hg : build_gaussian_pyramid im ml fs = Ok ([im], k)).
  { unfold build_gaussian_pyramid. rewrite Hk. cbn [bind].
    destruct (Z.to_nat (ml - 1)) as [|n] eqn:En; [reflexivity|].
    cbn [gaussian_loop last].
    destruct Hc as [Hc | [Hc | Hc]]; [lia | |].
    - apply Nat.leb_le in Hc. now rewrite Hc.
    - apply Nat.leb_le in Hc. now rewrite Hc, orb_true_r. }
  split; [exact Hg|].
  unfold build_laplacian_pyramid. now rewrite Hg.
Qed.

(** Instances: a 40x40 image with [max_levels = -2], and a 40x12 image with
    [max_levels = 5]. *)
Lemma single_level_pyramids_witness :
  build_laplacian_pyramid (checkerboard 40 40) (-2) 3
  = Ok ([checkerboard 40 40], kernel_of 3) /\
  build_gaussian_pyramid (checkerboard 40 12) 5 3
  = Ok ([checkerboard 40 12], kernel_of 3).
Proof.
  split.
  - apply (single_level_pyramids (checkerboard 40 40) (-2) 3 (kernel_of 3));
      [reflexivity | left; lia].
  - apply (single_level_pyramids (checkerboard 40 12) 5 3 (kernel_of 3));
      [reflexivity | right; right; vm_compute; lia].
Defined.

(** X7.  The shapes of the levels of a pyramid are a function of the shape of
    the image and of [max_levels] alone, [level_shapes]: they depend neither
    on the samples nor on the filter size, and the Laplacian pyramid of an
    image has the shapes of its Gaussian pyramid. *)
Theorem pyramid_level_shapes :
  forall (im : image) (max_levels filter_size : Z) (pyr : list image)
         (filter_vec : image),
    (build_gaussian_pyramid im max_levels filter_size = Ok (pyr, filter_vec) ->
     map shape pyr
     = level_shapes (Z.to_nat (max_levels - 1)) (height im) (width im)) /\
    (rect im ->
     build_laplacian_pyramid im max_levels filter_size = Ok (pyr, filter_vec) ->
     map shape pyr
     = level_shapes (Z.to_nat (max_levels - 1)) (height im) (width im)).
Proof.
  intros im ml fs pyr k. split.
  - apply gaussian_pyramid_level_shapes.
  - intros Hr Hl.
    destruct (build_laplacian_pyramid_Ok _ _ _ _ _ Hl) as (gauss & Hg).
    rewrite (laplacian_pyramid_shapes _ _ _ _ _ _ Hr Hg Hl).
    now apply (gaussian_pyramid_level_shapes _ _ fs _ k).
Qed.

(** An instance: the Laplacian pyramid of a 72x40 image with
    [max_levels = 4] has the shapes 72x40, 36x20 and 18x10. *)
Lemma pyramid_level_shapes_witness :
  map shape (levels_of (build_laplacian_pyramid (checkerboard 72 40) 4 3))
  = [(72, 40); (36, 20); (18, 10)].
Proof.
  destruct (build_laplacian_pyramid_halvable (checkerboard 72 40) 4 3
              (kernel_of 3) eq_refl eq_refl) as (pyr & Hp).
  rewrite Hp. cbn [levels_of].
  apply (pyramid_level_shapes (checkerboard 72 40) 4 3 pyr (kernel_of 3));
    [apply rect_mk_image | exact Hp].
Defined.

(** X8.  With a kernel, [build_laplacian_pyramid] returns a pyramid exactly
    when the dimensions of the image are [halvable] (every level that is
    reduced has an even height and an even width); otherwise it raises
    [ValueError], from the subtraction of an expansion that is one row or one
    column larger than the level. *)
Theorem build_laplacian_pyramid_returns_iff_halvable :
  forall (im : image) (max_levels filter_size : Z) (filter_vec : image),
    _get_filer_row filter_size = Ok filter_vec ->
    (halvable (Z.to_nat (max_levels - 1)) (height im) (width im) = true ->
     exists pyr,
       build_laplacian_pyramid im max_levels filter_size
       = Ok (pyr, filter_vec)) /\
    (halvable (Z.to_nat (max_levels - 1)) (height im) (width im) = false ->
     build_laplacian_pyramid im max_levels filter_size = Raise ValueError).
Proof.
  intros im ml fs k Hk. split.
  - now apply build_laplacian_pyramid_halvable.
  - intros Hv.
    destruct (build_gaussian_pyramid_spec im ml _ _ Hk) as (gauss & Hg & _).
    apply (build_laplacian_odd _ _ _ _ _ Hg).
    pose proof Hg as Hg'. unfold build_gaussian_pyramid in Hg'.
    rewrite Hk in Hg'. cbn [bind] in Hg'.
    apply bind_Ok in Hg'. destruct Hg' as (p & Hp & Hg').
    injection Hg' as ->.
    apply (gaussian_loop_not_halvable k (Z.to_nat (ml - 1)) [im] gauss);
      [discriminate | exact Hp | exact Hv].
Qed.

(** Instances: 68x68 with [max_levels = 3] has the level 34x34 and is built;
    with [max_levels = 4] the level 17x17 would be reduced. *)
Lemma build_laplacian_pyramid_returns_iff_halvable_witness :
  (exists pyr,
     build_laplacian_pyramid (checkerboard 68 68) 3 3
     = Ok (pyr, kernel_of 3)) /\
  build_laplacian_pyramid (checkerboard 68 68) 4 3 = Raise ValueError.
Proof.
  split.
  - apply (build_laplacian_pyramid_returns_iff_halvable
             (checkerboard 68 68) 3 3 (kernel_of 3)); reflexivity.
  - apply (build_laplacian_pyramid_returns_iff_halvable
             (checkerboard 68 68) 4 3 (kernel_of 3)); reflexivity.
Defined.


Section StretchRange.

Lemma Qcmin_le_r a b : (Qcmin a b <= b)%Qc.
Proof.
  unfold Qcmin. destruct (Qcleb a b) eqn:E; [now apply Qcleb_le|].
  apply Qcle_refl.
Qed.

Lemma Qcmax_ge_r a b : (b <= Qcmax a b)%Qc.
Proof.
  unfold Qcmax. destruct (Qcleb a b) eqn:E; [apply Qcle_refl|].
  apply Qcnot_lt_le. intros H. apply Qclt_le_weak, Qcleb_le in H. congruence.
Qed.

Lemma fold_min_lower l : forall x y,
  In y (x :: l) -> (fold_left Qcmin l x <= y)%Qc.
Proof.
  induction l as [|a l IH]; intros x y [<-|H].
  - apply Qcle_refl.
  - destruct H.
  - apply fold_min_le.
  - simpl. destruct H as [<-|H].
    + eapply Qcle_trans; [apply fold_min_le | apply Qcmin_le_r].
    + apply IH. now right.
Qed.

Lemma fold_max_upper l : forall x y,
  In y (x :: l) -> (y <= fold_left Qcmax l x)%Qc.
Proof.
  induction l as [|a l IH]; intros x y [<-|H].
  - apply Qcle_refl.
  - destruct H.
  - apply fold_max_ge.
  - simpl. destruct H as [<-|H].
    + eapply Qcle_trans; [apply Qcmax_ge_r | apply fold_max_ge].
    + apply IH. now right.
Qed.

Lemma fold_min_In l : forall x, In (fold_left Qcmin l x) (x :: l).
Proof.
  induction l as [|a l IH]; intros x; [now left|].
  cbn [fold_left]. destruct (IH (Qcmin x a)) as [E|H].
  - rewrite <- E. unfold Qcmin. destruct (Qcleb x a); [now left|].
    right. now left.
  - right. now right.
Qed.

Lemma fold_max_In l : forall x, In (fold_left Qcmax l x) (x :: l).
Proof.
  induction l as [|a l IH]; intros x; [now left|].
  cbn [fold_left]. destruct (IH (Qcmax x a)) as [E|H].
  - rewrite <- E. unfold Qcmax. destruct (Qcleb x a); [|now left].
    right. now left.
  - right. now right.
Qed.

(** The minimum is an element and a lower bound, and conversely. *)
Lemma np_min_spec im m :
  np_min im = Ok m <->
  In m (concat im) /\ forall y, In y (concat im) -> (m <= y)%Qc.
Proof.
  unfold np_min. destruct (concat im) as [|x l].
  - split; [discriminate | now intros ([] & _)].
  - split.
    + intros H. injection H as <-.
      split; [apply fold_min_In | apply fold_min_lower].
    + intros (Hin & Hlow). f_equal. apply Qcle_antisym.
      * now apply fold_min_lower.
      * apply Hlow, fold_min_In.
Qed.

Lemma np_max_spec im m :
  np_max im = Ok m <->
  In m (concat im) /\ forall y, In y (concat im) -> (y <= m)%Qc.
Proof.
  unfold np_max. destruct (concat im) as [|x l].
  - split; [discriminate | now intros ([] & _)].
  - split.
    + intros H. injection H as <-.
      split; [apply fold_max_In | apply fold_max_upper].
    + intros (Hin & Hup). f_equal. apply Qcle_antisym.
      * apply Hup, fold_max_In.
      * now apply fold_max_upper.
Qed.

Lemma concat_map_map (f : Qc -> Qc) (im : image) :
  concat (map (map f) im) = map f (concat im).
Proof. symmetry. apply concat_map. Qed.

Lemma in_unit_concat im :
  in_unit im <->
  forall y, In y (concat im) -> (0 <= y)%Qc /\ (y <= 1)%Qc.
Proof.
  unfold in_unit. rewrite Forall_forall. split.
  - intros H y Hy. apply in_concat in Hy. destruct Hy as (r & Hr & Hy).
    specialize (H r Hr). rewrite Forall_forall in H. now apply H.
  - intros H r Hr. apply Forall_forall. intros y Hy. apply H.
    apply in_concat. now exists r.
Qed.

(** [(x - lo) / (hi - lo)] for [lo <= x <= hi] and [lo < hi]. *)
Lemma stretch_sample lo hi x :
  (lo < hi)%Qc -> (lo <= x)%Qc -> (x <= hi)%Qc ->
  (0 <= (x - lo) / (hi - lo))%Qc /\ ((x - lo) / (hi - lo) <= 1)%Qc.
Proof.
  intros Hlt Hlo Hhi.
  assert (Hd : (0 < hi - lo)%Qc) by now apply Qclt_minus_iff in Hlt.
  assert (Hne : (hi - lo)%Qc <> 0%Qc).
  { intros E. rewrite E in Hd. now apply Qclt_not_eq in Hd. }
  split; apply (Qcmult_lt_0_le_reg_r _ _ (hi - lo)%Qc Hd);
    rewrite test_field by exact Hne.
  - rewrite Qcmult_0_l. now apply Qcle_minus_iff in Hlo.
  - rewrite Qcmult_1_l. unfold Qcminus.
    apply Qcplus_le_compat; [exact Hhi | apply Qcle_refl].
Qed.

Lemma stretch_value im r :
  _stretch_image im = Ok r ->
  exists lo hi,
    np_min im = Ok lo /\ np_max im = Ok hi /\ (lo < hi)%Qc /\
    r = map (map (fun x => ((x - lo) / (hi - lo))%Qc)) im.
Proof.
  intros H. destruct (stretch_Ok _ _ H) as (lo & hi & Hlo & Hhi & Hlt).
  exists lo, hi. repeat split; auto.
  unfold _stretch_image in H. rewrite Hlo, Hhi in H. cbn [bind] in H.
  unfold np_div_scalar in H.
  destruct (Qc_eq_bool (hi - lo) 0); [discriminate|].
  injection H as <-. rewrite map_map. apply map_ext. intros row.
  now rewrite map_map.
Qed.

End StretchRange.

(** A stretched array: shape, minimum, maximum and range. *)
Lemma stretch_spec (im r : image) :
  _stretch_image im = Ok r ->
  shape r = shape im /\
  np_min r = Ok 0%Qc /\ np_max r = Ok 1%Qc /\ in_unit r.
Proof.
  intros H.
  destruct (stretch_value _ _ H) as (lo & hi & Hlo & Hhi & Hlt & ->).
  apply np_min_spec in Hlo. destruct Hlo as (Hlo_in & Hlo).
  apply np_max_spec in Hhi. destruct Hhi as (Hhi_in & Hhi).
  assert (Hne : (hi - lo)%Qc <> 0%Qc).
  { apply Qclt_minus_iff in Hlt. intros E. unfold Qcminus in E.
    rewrite E in Hlt. now apply Qclt_not_eq in Hlt. }
  assert (Hall : forall y,
            In y (concat (map (map (fun x => ((x - lo) / (hi - lo))%Qc)) im)) ->
            (0 <= y)%Qc /\ (y <= 1)%Qc).
  { intros y Hy. rewrite concat_map_map in Hy. apply in_map_iff in Hy.
    destruct Hy as (x & <- & Hx). apply stretch_sample; auto. }
  split; [|split; [|split]].
  - unfold shape. now rewrite height_map_map, width_map_map.
  - apply np_min_spec. split; [|intros y Hy; now apply Hall].
    rewrite concat_map_map. apply in_map_iff. exists lo.
    split; [|exact Hlo_in]. unfold Qcdiv. ring.
  - apply np_max_spec. split; [|intros y Hy; now apply Hall].
    rewrite concat_map_map. apply in_map_iff. exists hi.
    split; [|exact Hhi_in]. unfold Qcdiv. now apply Qcmult_inv_r.
  - now apply in_unit_concat.
Qed.

(** An array whose maximum is above its minimum is stretched. *)
Lemma stretch_returns (im : image) (lo hi : Qc) :
  np_min im = Ok lo -> np_max im = Ok hi -> (lo < hi)%Qc ->
  exists r, _stretch_image im = Ok r.
Proof.
  intros Hlo Hhi Hlt. unfold _stretch_image. rewrite Hlo, Hhi. cbn [bind].
  unfold np_div_scalar.
  destruct (Qc_eq_bool (hi - lo) 0) eqn:E; [|eexists; reflexivity].
  apply Qc_eq_bool_correct in E. apply Qclt_minus_iff in Hlt.
  unfold Qcminus in E. rewrite E in Hlt. now apply Qclt_not_eq in Hlt.
Qed.

(** X10.  When the maximum of an array is above its minimum,
    [_stretch_image] returns an array of the same shape whose minimum is 0
    and whose maximum is 1, so that every sample lies in [[0, 1]].  (When they
    are equal the code divides 0 by 0.) *)
Theorem stretch_image_range :
  forall (im : image) (lo hi : Qc),
    np_min im = Ok lo -> np_max im = Ok hi -> (lo < hi)%Qc ->
    exists r,
      _stretch_image im = Ok r /\
      shape r = shape im /\
      np_min r = Ok 0%Qc /\ np_max r = Ok 1%Qc /\ in_unit r.
Proof.
  intros im lo hi Hlo Hhi Hlt.
  destruct (stretch_returns im lo hi Hlo Hhi Hlt) as (r & Hr).
  exists r. split; [exact Hr | now apply stretch_spec].
Qed.

(** An instance: an array with the samples 2 and 7. *)
Lemma stretch_image_range_witness :
  exists r,
    _stretch_image [[Z2Qc 2; Z2Qc 7]; [Z2Qc 7; Z2Qc 2]] = Ok r /\
    shape r = (2, 2) /\
    np_min r = Ok 0%Qc /\ np_max r = Ok 1%Qc /\ in_unit r.
Proof.
  apply (stretch_image_range [[Z2Qc 2; Z2Qc 7]; [Z2Qc 7; Z2Qc 2]]
           (Z2Qc 2) (Z2Qc 7)); reflexivity.
Defined.


Section Render.

Lemma in_unit_app a b : in_unit a -> in_unit b -> in_unit (a ++ b).
Proof. unfold in_unit. intros Ha Hb. apply Forall_app. now split. Qed.

Lemma in_unit_zeros h w : in_unit (zeros h w).
Proof.
  apply in_unit_mk_image. intros _ _. split; [apply Qcle_refl|].
  now apply Qcleb_le.
Qed.

Lemma in_unit_hconcat a b : in_unit a -> in_unit b -> in_unit (hconcat a b).
Proof.
  unfold in_unit, hconcat. rewrite !Forall_forall. intros Ha Hb r Hr.
  apply in_map_iff in Hr. destruct Hr as ((x & y) & <- & Hxy).
  apply Forall_app. split.
  - apply Ha. now apply in_combine_l in Hxy.
  - apply Hb. now apply in_combine_r in Hxy.
Qed.

Lemma height_hconcat a b : height a = height b -> height (hconcat a b) = height a.
Proof.
  unfold height, hconcat. intros H. rewrite length_map, length_combine. lia.
Qed.

Lemma width_hconcat a b :
  0 < height a -> 0 < height b ->
  width (hconcat a b) = width a + width b.
Proof.
  destruct a as [|r a]; [simpl; lia|]. destruct b as [|r' b]; [simpl; lia|].
  intros _ _. unfold width. simpl. apply length_app.
Qed.

Lemma stretch_nonempty im r : _stretch_image im = Ok r -> 0 < height r.
Proof.
  intros H. destruct (stretch_spec _ _ H) as (Hs & _).
  destruct (stretch_Ok _ _ H) as (lo & _ & Hlo & _).
  unfold shape in Hs. injection Hs as -> _.
  unfold np_min in Hlo. destruct im; [discriminate | simpl; lia].
Qed.

Lemma skipn_nth {A : Type} (l : list A) d : forall s,
  s < length l -> skipn s l = nth s l d :: skipn (S s) l.
Proof.
  induction l as [|a l IH]; intros s Hs; [simpl in Hs; lia|].
  destruct s as [|s]; [reflexivity|].
  simpl in Hs. cbn [skipn nth]. apply IH. lia.
Qed.

(** The loop of [render_pyramid] appends the levels it goes over to the right
    of [res], which keeps its height. *)
Lemma render_loop_spec pyr n : forall s res r,
  render_loop pyr res (seq s n) = Ok r ->
  s <= length pyr -> in_unit res -> 0 < height res ->
  in_unit r /\ height r = height res /\
  width r = width res + list_sum (map width (firstn n (skipn s pyr))).
Proof.
  induction n as [|n IH]; intros s res r H Hs Hu Hh.
  - injection H as <-. simpl. repeat split; auto; lia.
  - cbn [seq render_loop] in H. destruct (s =? length pyr) eqn:E.
    + apply Nat.eqb_eq in E. injection H as <-.
      rewrite skipn_all2 by lia. rewrite firstn_nil. simpl.
      repeat split; auto; lia.
    + apply Nat.eqb_neq in E.
      rewrite (py_index_nth pyr s []) in H by lia. cbn [bind] in H.
      apply bind_Ok in H. destruct H as (st & Hst & H).
      destruct (Z.of_nat (height res) - Z.of_nat (height st) <? 0)%Z eqn:Er;
        [discriminate|].
      apply Z.ltb_ge in Er.
      pose proof (stretch_nonempty _ _ Hst) as Hne.
      destruct (stretch_spec _ _ Hst) as (Hshape & _ & _ & Hust).
      unfold shape in Hshape. injection Hshape as Hsh Hsw.
      set (add := st ++ zeros (Z.to_nat (Z.of_nat (height res)
                                          - Z.of_nat (height st)))
                              (width st)) in H.
      assert (Hadd_h : height add = height res).
      { unfold add, height. rewrite length_app.
        change (length (zeros ?a ?b)) with (height (zeros a b)).
        unfold zeros. rewrite height_mk_image. unfold height in *. lia. }
      assert (Hadd_w : width add = width st).
      { unfold add. destruct st; [simpl in Hne; lia | reflexivity]. }
      apply IH in H.
      * destruct H as (Hu' & Hh' & Hw').
        rewrite height_hconcat in Hh' by congruence.
        rewrite width_hconcat in Hw' by lia.
        rewrite (skipn_nth pyr [] s) by lia. cbn [firstn map].
        change (list_sum (?x :: ?l)) with (x + list_sum l).
        repeat split; auto; lia.
      * lia.
      * apply in_unit_hconcat; [exact Hu|].
        apply in_unit_app; [exact Hust | apply in_unit_zeros].
      * rewrite height_hconcat by congruence. exact Hh.
Qed.

(** The loop returns when every level it goes over has its maximum above its
    minimum and is not higher than [res]. *)
Lemma render_loop_returns pyr n : forall s res,
  s <= length pyr ->
  (forall i, s <= i < s + n -> i < length pyr ->
     (exists lo hi, np_min (nth i pyr []) = Ok lo /\
                    np_max (nth i pyr []) = Ok hi /\ (lo < hi)%Qc) /\
     height (nth i pyr []) <= height res) ->
  exists r, render_loop pyr res (seq s n) = Ok r.
Proof.
  induction n as [|n IH]; intros s res Hle Hv; [now exists res|].
  cbn [seq render_loop]. destruct (s =? length pyr) eqn:E; [now exists res|].
  apply Nat.eqb_neq in E.
  assert (Hs : s < length pyr) by lia.
  destruct (Hv s ltac:(lia) Hs) as ((lo & hi & Hlo & Hhi & Hlt) & Hh).
  rewrite (py_index_nth pyr s [] Hs). cbn [bind].
  destruct (stretch_returns _ _ _ Hlo Hhi Hlt) as (st & Hst).
  rewrite Hst. cbn [bind].
  destruct (stretch_spec _ _ Hst) as (Hshape & _).
  unfold shape in Hshape. injection Hshape as Hsh Hsw.
  replace (Z.of_nat (height res) - Z.of_nat (height st) <? 0)%Z with false
    by (symmetry; apply Z.ltb_ge; lia).
  apply IH; [lia|]. intros i Hi Hlen.
  destruct (Hv i ltac:(lia) Hlen) as (Hi1 & Hi2).
  split; [exact Hi1|].
  rewrite height_hconcat; [exact Hi2|].
  unfold height. rewrite length_app.
  change (length (zeros ?a ?b)) with (height (zeros a b)).
  unfold zeros. rewrite height_mk_image. unfold height in *. lia.
Qed.

End Render.

(** X11.  [render_pyramid] with [levels < 1] returns the empty array, and
    with [1 <= levels] and a pyramid of no level it raises [IndexError].
    With [1 <= levels] and a pyramid whose first [levels] levels (all of
    them, when there are fewer) each have their maximum above their minimum
    and are not higher than the first, it returns an array with every sample
    in [[0, 1]], of the height of the first level, whose width is the sum of
    the widths of those levels. *)
Theorem render_pyramid_shape_and_range :
  forall (pyr : list image) (levels : Z),
    ((levels < 1)%Z -> render_pyramid pyr levels = Ok []) /\
    ((1 <= levels)%Z -> pyr = [] ->
     render_pyramid pyr levels = Raise IndexError) /\
    ((1 <= levels)%Z -> pyr <> [] ->
     (forall i, i < length pyr -> (Z.of_nat i < levels)%Z ->
        (exists lo hi, np_min (nth i pyr []) = Ok lo /\
                       np_max (nth i pyr []) = Ok hi /\ (lo < hi)%Qc) /\
        height (nth i pyr []) <= height (nth 0 pyr [])) ->
     exists res,
       render_pyramid pyr levels = Ok res /\
       in_unit res /\
       height res = height (nth 0 pyr []) /\
       width res = list_sum (map width (firstn (Z.to_nat levels) pyr))).
Proof.
  intros pyr levels. split; [|split].
  - intros Hl. unfold render_pyramid.
    now replace (levels <? 1)%Z with true by (symmetry; apply Z.ltb_lt; lia).
  - intros Hl ->. unfold render_pyramid.
    replace (levels <? 1)%Z with false by (symmetry; apply Z.ltb_ge; lia).
    reflexivity.
  - intros Hl Hne Hv.
    assert (Hlen : 0 < length pyr)
      by (destruct pyr; [congruence | simpl; lia]).
    destruct (Hv 0 Hlen ltac:(lia)) as ((lo & hi & Hlo & Hhi & Hlt) & _).
    destruct (stretch_returns _ _ _ Hlo Hhi Hlt) as (st & Hst).
    destruct (stretch_spec _ _ Hst) as (Hshape & _ & _ & Hust).
    unfold shape in Hshape. injection Hshape as Hsh Hsw.
    destruct (render_loop_returns pyr (Z.to_nat levels - 1) 1 st)
      as (res & Hres); [lia | |].
    { intros i Hi Hi'. rewrite Hsh. apply Hv; [exact Hi' | lia]. }
    exists res. unfold render_pyramid.
    replace (levels <? 1)%Z with false by (symmetry; apply Z.ltb_ge; lia).
    rewrite (py_index_nth pyr 0 [] Hlen). cbn [bind].
    rewrite Hst. cbn [bind]. split; [exact Hres|].
    apply render_loop_spec in Hres;
      [| lia | exact Hust | now apply (stretch_nonempty (nth 0 pyr []))].
    destruct Hres as (Hu & Hh & Hw).
    split; [exact Hu|]. split; [congruence|].
    rewrite Hw, Hsw.
    destruct pyr as [|p0 rest]; [congruence|].
    replace (Z.to_nat levels) with (S (Z.to_nat levels - 1)) at 2 by lia.
    reflexivity.
Qed.

(** An instance: two levels, 2x2 and 1x2, rendered with [levels = 5], give
    an array of height 2 and width 4. *)
Lemma render_pyramid_shape_and_range_witness :
  exists res,
    render_pyramid [[[Z2Qc 2; Z2Qc 7]; [Z2Qc 7; Z2Qc 2]]; [[Z2Qc 1; Z2Qc 3]]] 5
    = Ok res /\
    in_unit res /\ height res = 2 /\ width res = 4.
Proof.
  destruct (render_pyramid_shape_and_range
              [[[Z2Qc 2; Z2Qc 7]; [Z2Qc 7; Z2Qc 2]]; [[Z2Qc 1; Z2Qc 3]]] 5)
    as (_ & _ & H).
  apply H; [lia | discriminate |].
  intros [|[|i]] Hi _; [| | simpl in Hi; lia].
  - split; [exists (Z2Qc 2), (Z2Qc 7); repeat split | simpl; lia].
  - split; [exists (Z2Qc 1), (Z2Qc 3); repeat split | simpl; lia].
Defined.


Section BlendingEdges.

Lemma in_unit_clip01 im : in_unit (clip01 im).
Proof.
  unfold in_unit, clip01. apply Forall_map, Forall_forall. intros r _.
  apply Forall_map, Forall_forall. intros x _. split.
  - unfold Qcmin. destruct (Qcleb (Qcmax x 0) 1); [|now apply Qcleb_le].
    apply Qcmax_ge_r.
  - apply Qcmin_le_r.
Qed.

(** Without coefficients the reconstruction fails, whatever the pyramid. *)
Lemma laplacian_to_image_no_coefficient lpyr filter_vec :
  laplacian_to_image lpyr filter_vec [] = Raise IndexError.
Proof.
  unfold laplacian_to_image. cbn [_get_gauss].
  unfold py_index at 1 3.
  destruct (Z.of_nat 0 =? Z.of_nat (length lpyr) - 1)%Z;
    now destruct (nth_error lpyr 0).
Qed.

(** [g * a + ((-1 * g) + 1) * b] for arrays of one shape. *)
Lemma blend_same_shape g a b :
  height a = height g -> width a = width g ->
  height b = height g -> width b = width g ->
  exists r,
    (ga <- np_mul g a ;;
     wb <- np_mul (map (map (fun x => (x + 1)%Qc)) (scale (- (1)) g)) b ;;
     np_add ga wb) = Ok r /\
    height r = height g /\ width r = width g /\ rect r.
Proof.
  intros Hha Hwa Hhb Hwb. unfold np_mul, np_add, scale.
  rewrite broadcast2_same_shape by congruence. cbn [bind].
  rewrite broadcast2_same_shape
    by (rewrite ?height_map_map, ?width_map_map; congruence).
  cbn [bind].
  rewrite broadcast2_same_shape
    by (rewrite ?height_mk_image, ?width_mk_image_same,
                ?height_map_map, ?width_map_map; reflexivity).
  eexists. split; [reflexivity|].
  rewrite height_mk_image, width_mk_image_same, height_mk_image,
          width_mk_image_same.
  repeat split. apply rect_mk_image.
Qed.

End BlendingEdges.



(** X13.  With [max_levels <= 0] the coefficient list [[1] * max_levels] of
    [pyramid_blending] is empty, and no image is returned: for images and a
    mask of one shape and filter sizes with a kernel, the pyramids have one
    level each and the reconstruction raises [IndexError]. *)
Theorem pyramid_blending_without_levels :
  forall (im1 im2 : image) (mask : list (list bool))
         (max_levels filter_size_im filter_size_mask : Z),
    (max_levels <= 0)%Z ->
    (exists e,
       pyramid_blending im1 im2 mask max_levels filter_size_im
                        filter_size_mask = Raise e) /\
    (forall kernel_im kernel_mask,
       _get_filer_row filter_size_im = Ok kernel_im ->
       _get_filer_row filter_size_mask = Ok kernel_mask ->
       shape im1 = shape (astype_float64 mask) ->
       shape im2 = shape (astype_float64 mask) ->
       pyramid_blending im1 im2 mask max_levels filter_size_im
                        filter_size_mask = Raise IndexError).
Proof.
  intros im1 im2 mask ml f fm Hml.
  assert (Hco : repeat 1%Qc (Z.to_nat ml) = [])
    by (replace (Z.to_nat ml) with 0 by lia; reflexivity).
  split.
  - destruct (pyramid_blending im1 im2 mask ml f fm) as [r|e] eqn:H;
      [exfalso | now exists e].
    unfold pyramid_blending in H. rewrite Hco in H.
    apply bind_Ok in H. destruct H as ([l1 k1] & _ & H).
    apply bind_Ok in H. destruct H as ([l2 fil] & _ & H).
    apply bind_Ok in H. destruct H as ([gm km] & _ & H).
    apply bind_Ok in H. destruct H as (out_lap & _ & H).
    now rewrite laplacian_to_image_no_coefficient in H.
  - intros k km Hk Hkm Hs1 Hs2.
    unfold shape in Hs1, Hs2. injection Hs1 as Hh1 Hw1.
    injection Hs2 as Hh2 Hw2.
    unfold pyramid_blending, build_laplacian_pyramid, build_gaussian_pyramid.
    rewrite Hk, Hkm, Hco.
    replace (Z.to_nat (ml - 1)) with 0 by lia.
    cbn [bind gaussian_loop length Nat.sub seq comprehension py_index
         nth_error app blend_level].
    destruct (blend_same_shape (astype_float64 mask) im1 im2 Hh1 Hw1 Hh2 Hw2)
      as (r & -> & _).
    cbn [bind]. now rewrite laplacian_to_image_no_coefficient.
Qed.

(** An instance: [max_levels = 0] with two 4x4 images. *)
Lemma pyramid_blending_without_levels_witness :
  pyramid_blending (checkerboard 4 4) (constant_image 4 4 (Z2Qc 3))
                   (all_mask true 4 4) 0 3 3 = Raise IndexError.
Proof.
  destruct (pyramid_blending_without_levels
              (checkerboard 4 4) (constant_image 4 4 (Z2Qc 3))
              (all_mask true 4 4) 0 3 3 ltac:(lia)) as (_ & H).
  apply (H (kernel_of 3) (kernel_of 3)); reflexivity.
Defined.


Section BlendLevels.

Lemma comprehension_seq_total {B : Type} (f : nat -> result B)
    (P : nat -> B -> Prop) (d : B) : forall n s,
  (forall i, s <= i < s + n -> exists b, f i = Ok b /\ P i b) ->
  exists bs, comprehension f (seq s n) = Ok bs /\ length bs = n /\
             forall i, i < n -> P (s + i) (nth i bs d).
Proof.
  induction n as [|n IH]; intros s H.
  - exists []. repeat split. intros i Hi. lia.
  - destruct (H s ltac:(lia)) as (b & Hb & HP).
    destruct (IH (S s)) as (bs & Hbs & Hlen & Hnth);
      [intros i Hi; apply H; lia|].
    exists (b :: bs). cbn [seq comprehension]. rewrite Hb, Hbs.
    split; [reflexivity|]. split; [simpl; lia|].
    intros [|i] Hi; [now rewrite Nat.add_0_r|].
    replace (s + S i) with (S s + i) by lia. apply Hnth. lia.
Qed.

Lemma rect_map_map (f : Qc -> Qc) (im : image) :
  rect im -> rect (map (map f) im).
Proof.
  unfold rect. rewrite width_map_map. intros H.
  apply Forall_map. apply (Forall_impl _ (P := fun r => length r = width im));
    [|exact H].
  intros r Hr. now rewrite length_map.
Qed.

Lemma complement_map g :
  map (map (fun x => (x + 1)%Qc)) (scale (- (1)) g)
  = map (map (fun x => (- (1) * x + 1)%Qc)) g.
Proof.
  unfold scale. rewrite map_map. apply map_ext. intros r.
  now rewrite map_map.
Qed.

(** [g * a + ((-1 * g) + 1) * b] for arrays of the shape of [g]. *)
Lemma blend_value g a b :
  rect g ->
  height a = height g -> width a = width g ->
  height b = height g -> width b = width g ->
  (ga <- np_mul g a ;;
   wb <- np_mul (map (map (fun x => (x + 1)%Qc)) (scale (- (1)) g)) b ;;
   np_add ga wb)
  = Ok (mk_image (height g) (width g)
          (fun r c => (get g r c * get a r c
                       + (- (1) * get g r c + 1) * get b r c)%Qc)).
Proof.
  intros Hg Hha Hwa Hhb Hwb. rewrite complement_map. unfold np_mul, np_add.
  rewrite broadcast2_same_shape by congruence. cbn [bind].
  rewrite broadcast2_same_shape
    by (rewrite ?height_map_map, ?width_map_map; congruence).
  cbn [bind].
  rewrite broadcast2_same_shape
    by (rewrite ?height_mk_image, ?width_mk_image_same,
                ?height_map_map, ?width_map_map; reflexivity).
  f_equal. rewrite height_mk_image, width_mk_image_same.
  rewrite height_map_map, width_map_map.
  apply mk_image_ext. intros r c Hr Hc.
  rewrite !get_mk_image by assumption.
  now rewrite get_map_map_in by assumption.
Qed.

Lemma even_double n : Nat.even n = true -> n = (n + 1) / 2 * 2.
Proof.
  intros H. apply Nat.even_spec in H. destruct H as (m & ->).
  replace (2 * m + 1) with (1 + m * 2) by lia.
  rewrite Nat.div_add by lia. simpl. lia.
Qed.

(** With halvable dimensions a level of the Gaussian pyramid is twice the
    next one in height and in width. *)
Lemma built_doubling im max_levels filter_size gauss filter_vec :
  build_gaussian_pyramid im max_levels filter_size = Ok (gauss, filter_vec) ->
  halvable (Z.to_nat (max_levels - 1)) (height im) (width im) = true ->
  forall i, i + 1 < length gauss ->
    height (nth i gauss []) = height (nth (i + 1) gauss []) * 2 /\
    width (nth i gauss []) = width (nth (i + 1) gauss []) * 2.
Proof.
  intros Hg Hv i Hi.
  destruct (built_level _ _ _ _ _ Hg i Hi) as (_ & _ & Hr).
  apply shape_reduce in Hr. destruct Hr as (-> & -> & _).
  pose proof Hg as Hg'. unfold build_gaussian_pyramid in Hg'.
  apply bind_Ok in Hg'. destruct Hg' as (fv & _ & Hg').
  apply bind_Ok in Hg'. destruct Hg' as (p & Hp & Hg').
  injection Hg' as -> ->.
  destruct (gaussian_loop_halvable filter_vec (Z.to_nat (max_levels - 1))
              [im] gauss ltac:(discriminate) Hp Hv i) as (Eh & Ew);
    [simpl; lia | exact Hi |].
  split; now apply even_double.
Qed.

(** The recursion returns on a pyramid whose levels double in size, given a
    coefficient for every level; the result has the shape of the level it
    starts from. *)
Lemma get_gauss_doubling lpyr filter_vec coeff :
  filter_ok filter_vec -> length lpyr <= length coeff ->
  (forall i, i + 1 < length lpyr ->
     height (nth i lpyr []) = height (nth (i + 1) lpyr []) * 2 /\
     width (nth i lpyr []) = width (nth (i + 1) lpyr []) * 2) ->
  (forall i, i < length lpyr -> rect (nth i lpyr [])) ->
  forall j i, i + j + 1 = length lpyr ->
    exists r, _get_gauss 0 (S (length lpyr)) lpyr filter_vec coeff i = Ok r /\
              height r = height (nth i lpyr []) /\
              width r = width (nth i lpyr []) /\ rect r.
Proof.
  intros Hk Hco Hd Hrect. induction j as [|j IH]; intros i Hi.
  - rewrite get_gauss_last by lia.
    rewrite (py_index_nth lpyr i []) by lia.
    rewrite (py_index_nth coeff i 0%Qc) by lia. cbn [bind].
    eexists. split; [reflexivity|].
    rewrite height_scale_r, width_scale_r. repeat split.
    apply rect_map_map, Hrect. lia.
  - rewrite get_gauss_step by lia.
    rewrite (py_index_nth lpyr i []) by lia.
    rewrite (py_index_nth coeff i 0%Qc) by lia. cbn [bind].
    cbn [Nat.ltb Nat.leb].
    rewrite (get_gauss_frames lpyr filter_vec 0 0 coeff (S j) (i + 1)
               (length lpyr) (S (length lpyr))) by lia.
    destruct (IH (i + 1)) as (g & -> & Hgh & Hgw & _); [lia|]. cbn [bind].
    rewrite (expand_Ok _ _ Hk). cbn [bind].
    destruct (Hd i) as (Hh & Hw); [lia|].
    unfold np_add. rewrite broadcast2_same_shape.
    + eexists. split; [reflexivity|].
      rewrite height_mk_image, width_mk_image_same.
      rewrite height_scale_r, width_scale_r. repeat split.
      apply rect_mk_image.
    + now rewrite height_scale_r, !height_convolve_reflect,
                  height_zero_interleave, Hgh.
    + now rewrite width_scale_r, !width_convolve_reflect,
                  width_zero_interleave, Hgw.
Qed.

End BlendLevels.

Section BlendingTotal.

Variables (im1 im2 : image) (mask : list (list bool)) (h w : nat).
Variables (max_levels filter_size_im filter_size_mask : Z).
Variables (kernel_im kernel_mask : image).
Hypothesis im1_rect : rect im1.
Hypothesis im2_rect : rect im2.
Hypothesis im1_shape : shape im1 = (h, w).
Hypothesis im2_shape : shape im2 = (h, w).
Hypothesis mask_shape : shape (astype_float64 mask) = (h, w).
Hypothesis levels_pos : (1 <= max_levels)%Z.
Hypothesis im_kernel : _get_filer_row filter_size_im = Ok kernel_im.
Hypothesis mask_kernel : _get_filer_row filter_size_mask = Ok kernel_mask.
Hypothesis dims_halvable :
  halvable (Z.to_nat (max_levels - 1)) h w = true.

(** The five pyramids of [pyramid_blending] are built, with the same shapes
    level by level. *)
Lemma blending_pyramids :
  exists gauss1 gauss2 gm l1 l2,
    build_gaussian_pyramid im1 max_levels filter_size_im
    = Ok (gauss1, kernel_im) /\
    build_gaussian_pyramid im2 max_levels filter_size_im
    = Ok (gauss2, kernel_im) /\
    build_gaussian_pyramid (astype_float64 mask) max_levels filter_size_mask
    = Ok (gm, kernel_mask) /\
    build_laplacian_pyramid im1 max_levels filter_size_im
    = Ok (l1, kernel_im) /\
    build_laplacian_pyramid im2 max_levels filter_size_im
    = Ok (l2, kernel_im) /\
    map shape l1 = map shape gauss1 /\
    map shape l2 = map shape gauss1 /\
    map shape gm = map shape gauss1.
Proof using All.
  unfold shape in im1_shape, im2_shape.
  injection im1_shape as Hh1 Hw1. injection im2_shape as Hh2 Hw2.
  destruct (build_gaussian_pyramid_spec im1 max_levels _ _ im_kernel)
    as (gauss1 & Hg1 & _).
  destruct (build_gaussian_pyramid_spec im2 max_levels _ _ im_kernel)
    as (gauss2 & Hg2 & _).
  destruct (build_gaussian_pyramid_spec (astype_float64 mask) max_levels _ _
              mask_kernel) as (gm & Hgm & _).
  destruct (build_laplacian_pyramid_halvable im1 max_levels _ _ im_kernel)
    as (l1 & Hl1); [now rewrite Hh1, Hw1|].
  destruct (build_laplacian_pyramid_halvable im2 max_levels _ _ im_kernel)
    as (l2 & Hl2); [now rewrite Hh2, Hw2|].
  exists gauss1, gauss2, gm, l1, l2.
  repeat (split; [assumption|]).
  split; [now apply (laplacian_pyramid_shapes im1 max_levels filter_size_im
                       gauss1 l1 kernel_im)|].
  split.
  - rewrite (laplacian_pyramid_shapes im2 max_levels filter_size_im
               gauss2 l2 kernel_im) by assumption.
    apply (build_gaussian_pyramid_shapes _ _ _ _ _ _ _ _ _ Hg2 Hg1).
    unfold shape. congruence.
  - apply (build_gaussian_pyramid_shapes _ _ _ _ _ _ _ _ _ Hgm Hg1).
    rewrite mask_shape. unfold shape. congruence.
Qed.

Lemma blending_returns :
  exists r,
    pyramid_blending im1 im2 mask max_levels filter_size_im filter_size_mask
    = Ok r /\
    shape r = (h, w) /\ rect r /\ in_unit r.
Proof using All.
  destruct blending_pyramids
    as (gauss1 & gauss2 & gm & l1 & l2 & Hg1 & Hg2 & Hgm & Hl1 & Hl2
        & Hs1 & Hs2 & Hsm).
  assert (Hshape : forall i,
            length l1 = length gauss1 /\ length l2 = length gauss1 /\
            length gm = length gauss1 /\
            shape (nth i l1 []) = shape (nth i gauss1 []) /\
            shape (nth i l2 []) = shape (nth i gauss1 []) /\
            shape (nth i gm []) = shape (nth i gauss1 [])).
  { intros i.
    destruct (map_shape_nth _ _ i Hs1) as (? & ?).
    destruct (map_shape_nth _ _ i Hs2) as (? & ?).
    destruct (map_shape_nth _ _ i Hsm) as (? & ?). auto 10. }
  destruct (Hshape 0) as (Hlen1 & Hlen2 & Hlenm & _).
  destruct (comprehension_seq_total (blend_level gm l1 l2)
              (fun i r => shape r = shape (nth i gauss1 []) /\ rect r) []
              (length l1) 0) as (out & Hout & Hlen & Hnth).
  { intros i Hi. destruct (Hshape i) as (_ & _ & _ & Hi1 & Hi2 & Him).
    unfold shape in Hi1, Hi2, Him.
    injection Hi1 as Hh1 Hw1. injection Hi2 as Hh2 Hw2.
    injection Him as Hhm Hwm.
    unfold blend_level.
    rewrite (py_index_nth gm i []) by lia.
    rewrite (py_index_nth l1 i []) by lia.
    rewrite (py_index_nth l2 i []) by lia. cbn [bind].
    destruct (blend_same_shape (nth i gm []) (nth i l1 []) (nth i l2 []))
      as (r & Hr & Hrh & Hrw & Hrr); try congruence.
    exists r. split; [exact Hr|]. split; [|exact Hrr].
    unfold shape. congruence. }
  assert (Hd : forall i, i + 1 < length out ->
            height (nth i out []) = height (nth (i + 1) out []) * 2 /\
            width (nth i out []) = width (nth (i + 1) out []) * 2).
  { intros i Hi.
    destruct (Hnth i ltac:(lia)) as (Ha & _).
    destruct (Hnth (i + 1) ltac:(lia)) as (Hb & _).
    cbn [Nat.add] in Ha, Hb. unfold shape in Ha, Hb.
    injection Ha as -> ->. injection Hb as -> ->.
    apply (built_doubling im1 max_levels filter_size_im gauss1 kernel_im Hg1);
      [|lia].
    unfold shape in im1_shape. injection im1_shape as -> ->.
    exact dims_halvable. }
  assert (Hbound : length out <= Z.to_nat max_levels).
  { pose proof (lap_levels_bound _ _ _ _ _ _ Hg1 Hl1). lia. }
  assert (Hpos : 0 < length out).
  { pose proof (built_nonempty _ _ _ _ _ Hg1) as Hne.
    destruct gauss1; [congruence | simpl in *; lia]. }
  destruct (get_gauss_doubling out kernel_im
              (repeat 1%Qc (Z.to_nat max_levels))
              (filter_ok_get_filer_row _ _ im_kernel)
              ltac:(rewrite repeat_length; lia) Hd
              ltac:(intros i Hi; apply Hnth; lia)
              (length out - 1) 0 ltac:(lia)) as (r & Hr & Hrh & Hrw & Hrr).
  exists (clip01 r). unfold pyramid_blending.
  rewrite Hl1, Hl2, Hgm. cbn [bind]. rewrite Hout. cbn [bind].
  unfold laplacian_to_image. rewrite Hr. cbn [bind].
  split; [reflexivity|].
  split; [|split; [now apply rect_map_map | apply in_unit_clip01]].
  unfold clip01, shape. rewrite height_map_map, width_map_map, Hrh, Hrw.
  destruct (Hnth 0 ltac:(lia)) as (H0 & _). cbn [Nat.add] in H0.
  unfold shape in H0. injection H0 as -> ->.
  destruct (built_levels _ _ _ _ _ Hg1) as (_ & _ & Hhd).
  replace (nth 0 gauss1 []) with im1
    by (destruct gauss1; [now apply built_nonempty in Hg1 | now simpl in *]).
  exact im1_shape.
Qed.

End BlendingTotal.

(** X14.  [pyramid_blending] returns on valid input: for two images and a
    mask of one shape [(h, w)] whose dimensions are compatible with the
    halvings, [1 <= max_levels] and filter sizes with a kernel, it returns an
    array of shape [(h, w)] with every sample in [[0, 1]]. *)
Theorem pyramid_blending_returns :
  forall (im1 im2 : image) (mask : list (list bool)) (h w : nat)
         (max_levels filter_size_im filter_size_mask : Z)
         (kernel_im kernel_mask : image),
    rect im1 -> rect im2 ->
    shape im1 = (h, w) -> shape im2 = (h, w) ->
    shape (astype_float64 mask) = (h, w) ->
    (1 <= max_levels)%Z ->
    _get_filer_row filter_size_im = Ok kernel_im ->
    _get_filer_row filter_size_mask = Ok kernel_mask ->
    halvable (Z.to_nat (max_levels - 1)) h w = true ->
    exists r,
      pyramid_blending im1 im2 mask max_levels filter_size_im filter_size_mask
      = Ok r /\
      shape r = (h, w) /\ rect r /\ in_unit r.
Proof. exact blending_returns. Qed.

(** An instance: two 36x20 images under a mask whose left half is set, with
    three levels and the kernels of sizes 5 and 3. *)
Lemma pyramid_blending_returns_witness :
  exists r,
    pyramid_blending (checkerboard 36 20) (zeros 36 20)
                     (repeat (repeat true 10 ++ repeat false 10) 36) 3 5 3
    = Ok r /\
    shape r = (36, 20) /\ rect r /\ in_unit r.
Proof.
  apply (pyramid_blending_returns
           (checkerboard 36 20) (zeros 36 20)
           (repeat (repeat true 10 ++ repeat false 10) 36) 36 20 3 5 3
           (kernel_of 5) (kernel_of 3)).
  - apply rect_mk_image.
  - apply rect_mk_image.
  - reflexivity.
  - reflexivity.
  - reflexivity.
  - lia.
  - reflexivity.
  - reflexivity.
  - reflexivity.
Defined.


Section BlendingSameImage.

Variables (im : image) (mask : list (list bool)) (h w : nat).
Variables (max_levels filter_size_im filter_size_mask : Z).
Variables (kernel_im kernel_mask : image).
Hypothesis im_rect : rect im.
Hypothesis mask_rect : rect (astype_float64 mask).
Hypothesis im_shape : shape im = (h, w).
Hypothesis mask_shape : shape (astype_float64 mask) = (h, w).
Hypothesis im_unit : in_unit im.
Hypothesis levels_pos : (1 <= max_levels)%Z.
Hypothesis im_kernel : _get_filer_row filter_size_im = Ok kernel_im.
Hypothesis mask_kernel : _get_filer_row filter_size_mask = Ok kernel_mask.
Hypothesis dims_halvable :
  halvable (Z.to_nat (max_levels - 1)) h w = true.

Lemma blending_same_image :
  pyramid_blending im im mask max_levels filter_size_im filter_size_mask
  = Ok im.
Proof using All.
  destruct (blending_pyramids im im mask h w max_levels filter_size_im
              filter_size_mask kernel_im kernel_mask im_rect im_rect
              im_shape im_shape mask_shape levels_pos im_kernel mask_kernel
              dims_halvable)
    as (gauss & gauss2 & gm & l1 & l2 & Hg & _ & Hgm & Hl & Hl2
        & Hs & _ & Hsm).
  rewrite Hl in Hl2. injection Hl2 as <-.
  unfold pyramid_blending. rewrite Hl, Hgm. cbn [bind].
  assert (Hout : comprehension (blend_level gm l1 l1) (seq 0 (length l1))
                 = Ok l1).
  { apply (comprehension_intro _ _ _ 0 []); [now rewrite length_seq|].
    rewrite length_seq. intros i Hi. rewrite seq_nth by assumption.
    cbn [Nat.add].
    destruct (map_shape_nth _ _ i Hs) as (Hlen & Hsi).
    destruct (map_shape_nth _ _ i Hsm) as (Hlenm & Hsmi).
    unfold shape in Hsi, Hsmi.
    injection Hsi as Hh Hw. injection Hsmi as Hhm Hwm.
    destruct (lap_shape _ _ _ _ _ _ im_rect Hg Hl i ltac:(lia))
      as (_ & _ & Hr).
    unfold blend_level.
    rewrite (py_index_nth gm i []) by lia.
    rewrite (py_index_nth l1 i []) by lia. cbn [bind].
    rewrite blend_value; try congruence.
    - f_equal. rewrite Hhm, Hwm, <- Hh, <- Hw.
      apply mk_image_eq; [exact Hr|]. intros. ring.
    - apply (built_rect _ _ _ _ _ mask_rect Hgm). lia. }
  rewrite Hout. cbn [bind].
  rewrite (laplacian_round_trip _ _ _ _ _ _ im_rect Hg Hl).
  - cbn [bind]. now rewrite clip01_in_unit.
  - intros i Hi. apply nth_error_repeat.
    pose proof (lap_levels_bound _ _ _ _ _ _ Hg Hl). lia.
Qed.

End BlendingSameImage.

(** X15.  Blending an image with itself returns the image up to rounding,
    whatever the mask: in exact arithmetic [pyramid_blending im im mask] is
    [im] itself, for an image with samples in [[0, 1]] and a mask of its
    shape, dimensions compatible with the halvings, [1 <= max_levels] and
    filter sizes with a kernel.  (The float64 code rounds every product and
    sum, and returns [im] to within the rounding errors.) *)
Theorem pyramid_blending_same_image :
  forall (im : image) (mask : list (list bool)) (h w : nat)
         (max_levels filter_size_im filter_size_mask : Z)
         (kernel_im kernel_mask : image),
    rect im -> rect (astype_float64 mask) ->
    shape im = (h, w) -> shape (astype_float64 mask) = (h, w) ->
    in_unit im ->
    (1 <= max_levels)%Z ->
    _get_filer_row filter_size_im = Ok kernel_im ->
    _get_filer_row filter_size_mask = Ok kernel_mask ->
    halvable (Z.to_nat (max_levels - 1)) h w = true ->
    pyramid_blending im im mask max_levels filter_size_im filter_size_mask
    = Ok im.
Proof. exact blending_same_image. Qed.

(** An instance: a 36x20 checkerboard under a mask whose left half is set. *)
Lemma pyramid_blending_same_image_witness :
  pyramid_blending (checkerboard 36 20) (checkerboard 36 20)
                   (repeat (repeat true 10 ++ repeat false 10) 36) 3 5 3
  = Ok (checkerboard 36 20).
Proof.
  apply (pyramid_blending_same_image
           (checkerboard 36 20)
           (repeat (repeat true 10 ++ repeat false 10) 36) 36 20 3 5 3
           (kernel_of 5) (kernel_of 3)).
  - apply rect_mk_image.
  - repeat constructor.
  - reflexivity.
  - reflexivity.
  - apply in_unit_mk_image. intros i j.
    destruct (Nat.even (i + j)); split; apply Qcleb_le; reflexivity.
  - lia.
  - reflexivity.
  - reflexivity.
  - reflexivity.
Defined.

Section RangeOfReduce.







End RangeOfReduce.




Section ExpandBorder.

Lemma reflect_inside n c : (0 <= c < Z.of_nat n)%Z -> reflect n c = Z.to_nat c.
Proof.
  intros H. unfold reflect. rewrite Z.mod_small by lia.
  replace (c <? Z.of_nat n)%Z with true by (symmetry; apply Z.ltb_lt; lia).
  reflexivity.
Qed.

Lemma reflect_before n : 0 < n -> reflect n (-1) = 0.
Proof.
  intros H. unfold reflect.
  replace (-1 mod (2 * Z.of_nat n))%Z with (2 * Z.of_nat n - 1)%Z.
  - replace (2 * Z.of_nat n - 1 <? Z.of_nat n)%Z with false
      by (symmetry; apply Z.ltb_ge; lia).
    lia.
  - apply (Z.mod_unique _ _ (-1)); lia.
Qed.

Lemma quarter_twice :
  (Z2Qc 2 * (Z2Qc 1 / Z2Qc 4) + Z2Qc 2 * (Z2Qc 1 / Z2Qc 4) = 1)%Qc.
Proof. apply Qc_eq_bool_correct. vm_compute. reflexivity. Qed.

Lemma half_twice : (Z2Qc 2 * (Z2Qc 1 / Z2Qc 2) = 1)%Qc.
Proof. apply Qc_eq_bool_correct. vm_compute. reflexivity. Qed.

Lemma three_halves :
  (Z2Qc 3 / Z2Qc 2 = 1 + Z2Qc 2 * (Z2Qc 1 / Z2Qc 4))%Qc.
Proof. apply Qc_eq_bool_correct. vm_compute. reflexivity. Qed.

Lemma nine_quarters :
  (Z2Qc 9 / Z2Qc 4
   = (1 + Z2Qc 2 * (Z2Qc 1 / Z2Qc 4)) * (1 + Z2Qc 2 * (Z2Qc 1 / Z2Qc 4)))%Qc.
Proof. apply Qc_eq_bool_correct. vm_compute. reflexivity. Qed.

Lemma sum_upto_1 f : sum_upto 1 f = f O.
Proof. unfold sum_upto. simpl. ring. Qed.

Lemma sum_upto_3 f : sum_upto 3 f = (f O + f 1%nat + f 2%nat)%Qc.
Proof. unfold sum_upto. simpl. ring. Qed.

Variables (h w : nat) (c : Qc).
Hypothesis h_large : 2 <= h.
Hypothesis w_large : 2 <= w.

Local Abbreviation stuffed := (zero_interleave (constant_image h w c)).

Lemma get_stuffed i j :
  i < h * 2 -> j < w * 2 ->
  get stuffed i j = if Nat.even i && Nat.even j then c else 0%Qc.
Proof using h_large w_large.
  intros Hi Hj. unfold zero_interleave.
  rewrite height_constant_image, width_constant_image by lia.
  rewrite get_mk_image by assumption.
  destruct (Nat.even i && Nat.even j); [|reflexivity].
  apply get_constant_image.
  - apply Nat.Div0.div_lt_upper_bound. lia.
  - apply Nat.Div0.div_lt_upper_bound. lia.
Qed.

Lemma height_stuffed : height stuffed = h * 2.
Proof. now rewrite height_zero_interleave, height_constant_image. Qed.

Lemma width_stuffed : width stuffed = w * 2.
Proof using h_large w_large.
  rewrite width_zero_interleave, width_constant_image by lia. reflexivity.
Qed.

Variable k : image.
Hypothesis k_height : height k = 1.
Hypothesis k_width : width k = 3.
Hypothesis k_0 : get k 0 0 = (Z2Qc 1 / Z2Qc 4)%Qc.
Hypothesis k_1 : get k 0 1 = (Z2Qc 1 / Z2Qc 2)%Qc.
Hypothesis k_2 : get k 0 2 = (Z2Qc 1 / Z2Qc 4)%Qc.

Local Abbreviation rows := (convolve_reflect stuffed (scale (Z2Qc 2) k)).

Lemma get_scale_row b : get (scale (Z2Qc 2) k) 0 b = (Z2Qc 2 * get k 0 b)%Qc.
Proof using All.
  unfold scale. apply get_map_map_0. ring.
Qed.

Lemma get_scale_column a :
  a < 3 ->
  get (scale (Z2Qc 2) (transpose k)) a 0 = (Z2Qc 2 * get k 0 a)%Qc.
Proof using All.
  intros Ha. unfold scale. rewrite get_map_map_0 by ring.
  unfold transpose. rewrite get_mk_image by lia. reflexivity.
Qed.

(** The first pass, along the rows, in the columns 0 and 1. *)
Lemma rows_value i :
  i < h * 2 ->
  get rows i 0
  = (if Nat.even i then Z2Qc 3 / Z2Qc 2 * c else 0)%Qc /\
  get rows i 1 = (if Nat.even i then c else 0)%Qc.
Proof using All.
  intros Hi. unfold convolve_reflect.
  rewrite height_stuffed, width_stuffed, height_scale, width_scale.
  rewrite k_height, k_width.
  rewrite !get_mk_image by lia.
  rewrite !sum_upto_1, !sum_upto_3. cbn [Nat.sub].
  rewrite !get_scale_row, k_0, k_1, k_2.
  change (anchor 1) with 0%Z. change (anchor 3) with 1%Z.
  replace (Z.of_nat i + Z.of_nat 0 - 0)%Z with (Z.of_nat i) by lia.
  rewrite (reflect_inside (h * 2) (Z.of_nat i)) by lia.
  rewrite Nat2Z.id.
  change (Z.of_nat 0 + Z.of_nat 0 - 1)%Z with (-1)%Z.
  change (Z.of_nat 0 + Z.of_nat 1 - 1)%Z with 0%Z.
  change (Z.of_nat 0 + Z.of_nat 2 - 1)%Z with 1%Z.
  change (Z.of_nat 1 + Z.of_nat 0 - 1)%Z with 0%Z.
  change (Z.of_nat 1 + Z.of_nat 1 - 1)%Z with 1%Z.
  change (Z.of_nat 1 + Z.of_nat 2 - 1)%Z with 2%Z.
  rewrite reflect_before by lia.
  rewrite !reflect_inside by lia.
  change (Z.to_nat 0) with 0. change (Z.to_nat 1) with 1.
  change (Z.to_nat 2) with 2.
  rewrite !get_stuffed by lia.
  rewrite half_twice, three_halves.
  pose proof quarter_twice as Haa.
  set (a := (Z2Qc 2 * (Z2Qc 1 / Z2Qc 4))%Qc) in *.
  destruct (Nat.even i); cbn [andb Nat.even]; split; try ring.
  transitivity ((a + a) * c)%Qc; [ring | rewrite Haa; ring].
Qed.

(** The second pass, along the columns. *)
Lemma column_pass im i j :
  i < height im -> j < width im ->
  get (convolve_reflect im (scale (Z2Qc 2) (transpose k))) i j
  = (Z2Qc 2 * (Z2Qc 1 / Z2Qc 4)
     * get im (reflect (height im) (Z.of_nat i - 1)) j
     + get im i j
     + Z2Qc 2 * (Z2Qc 1 / Z2Qc 4)
       * get im (reflect (height im) (Z.of_nat i + 1)) j)%Qc.
Proof using All.
  intros Hi Hj. unfold convolve_reflect.
  rewrite get_mk_image by assumption.
  rewrite height_scale, width_scale, height_transpose, width_transpose
    by (rewrite k_width; discriminate).
  rewrite k_height, k_width.
  rewrite sum_upto_3, !sum_upto_1. cbn [Nat.sub].
  rewrite !get_scale_column by lia. rewrite k_0, k_1, k_2, half_twice.
  change (anchor 1) with 0%Z. change (anchor 3) with 1%Z.
  replace (Z.of_nat j + Z.of_nat 0 - 0)%Z with (Z.of_nat j) by lia.
  replace (Z.of_nat i + Z.of_nat 0 - 1)%Z with (Z.of_nat i - 1)%Z by lia.
  replace (Z.of_nat i + Z.of_nat 1 - 1)%Z with (Z.of_nat i) by lia.
  replace (Z.of_nat i + Z.of_nat 2 - 1)%Z with (Z.of_nat i + 1)%Z by lia.
  rewrite (reflect_inside (width im) (Z.of_nat j)) by lia.
  rewrite (reflect_inside (height im) (Z.of_nat i)) by lia.
  rewrite !Nat2Z.id. ring.
Qed.

(** In exact arithmetic the element (0, 0) of the expansion of a constant
    image is 9/4 of the constant, and the element (1, 1) is the constant. *)
Lemma expand_constant_elements :
  exists e,
    expand (constant_image h w c) k = Ok e /\
    get e 0 0 = (Z2Qc 9 / Z2Qc 4 * c)%Qc /\
    get e 1 1 = c.
Proof using All.
  assert (Hk : filter_ok k) by (split; [rewrite k_height | rewrite k_width];
                                 discriminate).
  rewrite (expand_Ok _ _ Hk). eexists. split; [reflexivity|].
  assert (Hh : height rows = h * 2)
    by now rewrite height_convolve_reflect, height_stuffed.
  assert (Hw : width rows = w * 2)
    by now rewrite width_convolve_reflect, width_stuffed.
  rewrite !column_pass by lia. rewrite Hh.
  change (Z.of_nat 0 - 1)%Z with (-1)%Z.
  change (Z.of_nat 0 + 1)%Z with 1%Z.
  change (Z.of_nat 1 - 1)%Z with 0%Z.
  change (Z.of_nat 1 + 1)%Z with 2%Z.
  rewrite reflect_before by lia. rewrite !reflect_inside by lia.
  change (Z.to_nat 0) with 0. change (Z.to_nat 1) with 1.
  change (Z.to_nat 2) with 2.
  destruct (rows_value 0 ltac:(lia)) as (-> & ->).
  destruct (rows_value 1 ltac:(lia)) as (-> & ->).
  destruct (rows_value 2 ltac:(lia)) as (_ & ->).
  cbn [Nat.even]. rewrite nine_quarters, three_halves.
  pose proof quarter_twice as Haa.
  set (a := (Z2Qc 2 * (Z2Qc 1 / Z2Qc 4))%Qc) in *.
  split; [ring|].
  transitivity ((a + a) * c)%Qc; [ring | rewrite Haa; ring].
Qed.

End ExpandBorder.

(** X17.  Unlike [reduce], [expand] does not keep a constant image constant:
    with the kernel of size 3 (the size that [_read_and_blend] passes) and a
    constant [c > 0], the element (0, 0) of the expansion is more than twice
    the element (1, 1).  In exact arithmetic they are [9/4 * c] and [c]: the
    border is reflected onto a sample of the zero-stuffed array that is not
    zero, so that the first row and the first column are too bright. *)
Theorem expand_constant_border :
  forall (h w : nat) (c : Qc),
    2 <= h -> 2 <= w -> (0 < c)%Qc ->
    exists e,
      expand (constant_image h w c) (kernel_of 3) = Ok e /\
      (Z2Qc 2 * get e 1 1 < get e 0 0)%Qc.
Proof.
  intros h w c Hh Hw Hc.
  destruct (expand_constant_elements h w c Hh Hw (kernel_of 3))
    as (e & He & H00 & H11);
    try reflexivity; try (apply Qc_eq_bool_correct; vm_compute; reflexivity).
  exists e. split; [exact He|]. rewrite H00, H11.
  apply Qclt_minus_iff.
  assert (E : (Z2Qc 9 / Z2Qc 4 = Z2Qc 2 + Z2Qc 1 / Z2Qc 4)%Qc)
    by (apply Qc_eq_bool_correct; vm_compute; reflexivity).
  rewrite E.
  replace ((Z2Qc 2 + Z2Qc 1 / Z2Qc 4) * c + - (Z2Qc 2 * c))%Qc
    with (Z2Qc 1 / Z2Qc 4 * c)%Qc by ring.
  rewrite <- (Qcmult_0_l c). apply Qcmult_lt_compat_r; [exact Hc|].
  reflexivity.
Qed.

(** An instance: the 2x2 image of ones. *)
Lemma expand_constant_border_witness :
  exists e,
    expand (constant_image 2 2 1%Qc) (kernel_of 3) = Ok e /\
    (Z2Qc 2 * get e 1 1 < get e 0 0)%Qc.
Proof.
  apply (expand_constant_border 2 2 1%Qc); [lia | lia | reflexivity].
Defined.


Section ColourPlanes.

Lemma length_np_empty im uninit : length (np_empty im uninit) = length im.
Proof.
  unfold np_empty. rewrite length_map, length_combine, length_seq. lia.
Qed.

Lemma nth_np_empty im uninit c :
  c < length im ->
  nth c (np_empty im uninit) []
  = mk_image (height (nth c im [])) (width (nth c im [])) (uninit c).
Proof.
  intros Hc. unfold np_empty.
  rewrite (nth_indep _ [] ((fun cp : nat * image =>
                              mk_image (height (snd cp)) (width (snd cp))
                                       (uninit (fst cp))) (0, [])))
    by (rewrite length_map, length_combine, length_seq; lia).
  rewrite (map_nth (fun cp : nat * image =>
                      mk_image (height (snd cp)) (width (snd cp))
                               (uninit (fst cp)))).
  rewrite combine_nth by now rewrite length_seq.
  rewrite seq_nth by assumption. reflexivity.
Qed.

Lemma length_set (out : list image) c v :
  c < length out -> length (firstn c out ++ v :: skipn (S c) out) = length out.
Proof.
  intros Hc. rewrite length_app, length_firstn. cbn [length].
  rewrite length_skipn. lia.
Qed.

Lemma nth_set (out : list image) c v c' :
  c < length out ->
  nth c' (firstn c out ++ v :: skipn (S c) out) []
  = if c' =? c then v else nth c' out [].
Proof.
  intros Hc.
  assert (Hlen : length (firstn c out) = c) by (rewrite length_firstn; lia).
  destruct (c' =? c) eqn:E.
  - apply Nat.eqb_eq in E. subst c'.
    rewrite app_nth2 by lia. rewrite Hlen, Nat.sub_diag. reflexivity.
  - apply Nat.eqb_neq in E.
    destruct (Nat.lt_ge_cases c' c) as [Hlt|Hge].
    + rewrite app_nth1 by lia.
      rewrite <- (firstn_skipn c out) at 2. now rewrite app_nth1 by lia.
    + rewrite app_nth2 by lia. rewrite Hlen.
      replace (c' - c) with (S (c' - S c)) by lia. cbn [nth].
      rewrite <- (firstn_skipn (S c) out) at 2.
      rewrite app_nth2 by (rewrite length_firstn; lia).
      rewrite length_firstn. f_equal. lia.
Qed.

(** Assigning an array of the shape of the plane replaces the plane. *)
Lemma set_plane_same_shape out c v :
  c < length out -> rect v ->
  height v = height (nth c out []) -> width v = width (nth c out []) ->
  set_plane out c v = Ok (firstn c out ++ v :: skipn (S c) out).
Proof.
  intros Hc Hr Hh Hw. unfold set_plane.
  rewrite (nth_error_nth' out [] Hc). unfold broadcast_to.
  rewrite <- Hh, <- Hw, !Nat.eqb_refl. cbn [orb andb bind].
  do 3 f_equal. apply mk_image_eq; [exact Hr|].
  intros i j Hi Hj. now rewrite !bidx_lt.
Qed.

Variables (im1 im2 : list image) (mask : list (list bool)) (h w : nat).
Variables (max_levels filter_size_im filter_size_mask : Z).
Variables (kernel_im kernel_mask : image).
Hypothesis mask_shape : shape (astype_float64 mask) = (h, w).
Hypothesis levels_pos : (1 <= max_levels)%Z.
Hypothesis im_kernel : _get_filer_row filter_size_im = Ok kernel_im.
Hypothesis mask_kernel : _get_filer_row filter_size_mask = Ok kernel_mask.
Hypothesis dims_halvable :
  halvable (Z.to_nat (max_levels - 1)) h w = true.

(** The loop assigns to every plane that it goes over the blend of the
    planes of the two images, and leaves the others as they are. *)
Lemma rgb_loop_spec : forall colors out,
  (forall c, In c colors ->
     c < length out /\ shape (nth c out []) = (h, w) /\
     c < length im1 /\ rect (nth c im1 []) /\ shape (nth c im1 []) = (h, w) /\
     c < length im2 /\ rect (nth c im2 []) /\ shape (nth c im2 []) = (h, w)) ->
  exists out',
    rgb_loop colors out im1 im2 mask max_levels filter_size_im
             filter_size_mask = Ok out' /\
    length out' = length out /\
    (forall c, In c colors ->
       pyramid_blending (nth c im1 []) (nth c im2 []) mask max_levels
                        filter_size_im filter_size_mask
       = Ok (nth c out' [])) /\
    (forall c, ~ In c colors -> nth c out' [] = nth c out []).
Proof using All.
  induction colors as [|color colors IH]; intros out Hv.
  - exists out. split; [reflexivity|]. split; [reflexivity|].
    split; [intros c [] | reflexivity].
  - destruct (Hv color (or_introl eq_refl))
      as (Hco & Hso & Hc1 & Hr1 & Hs1 & Hc2 & Hr2 & Hs2).
    destruct (blending_returns (nth color im1 []) (nth color im2 []) mask h w
                max_levels filter_size_im filter_size_mask
                kernel_im kernel_mask Hr1 Hr2 Hs1 Hs2 mask_shape levels_pos
                im_kernel mask_kernel dims_halvable)
      as (b & Hb & Hsb & Hrb & _).
    unfold shape in Hso, Hsb. injection Hso as Hho Hwo.
    injection Hsb as Hhb Hwb.
    set (out1 := firstn color out ++ b :: skipn (S color) out).
    assert (Hnth1 : forall c, nth c out1 [] = if c =? color then b
                                              else nth c out [])
      by (intros c; now apply nth_set).
    destruct (IH out1) as (out' & Hloop & Hlen & Hin & Hnot).
    { intros c Hc. destruct (Hv c (or_intror Hc)) as (H1 & H2 & H3).
      unfold out1. rewrite length_set by assumption.
      split; [exact H1|]. split; [|exact H3].
      fold out1. rewrite Hnth1. destruct (c =? color); [|exact H2].
      unfold shape. now rewrite Hhb, Hwb. }
    exists out'. cbn [rgb_loop].
    rewrite (py_index_nth im1 color []) by assumption.
    rewrite (py_index_nth im2 color []) by assumption. cbn [bind].
    rewrite Hb. cbn [bind].
    rewrite set_plane_same_shape by (assumption || congruence).
    cbn [bind]. fold out1. split; [exact Hloop|].
    split; [now rewrite Hlen; unfold out1; rewrite length_set|].
    split.
    + intros c [<-|Hc]; [|now apply Hin].
      destruct (in_dec Nat.eq_dec color colors) as [Hi|Hn];
        [now apply Hin|].
      now rewrite (Hnot color Hn), Hnth1, Nat.eqb_refl.
    + intros c Hc. rewrite Hnot by (intros Hi; apply Hc; now right).
      rewrite Hnth1.
      destruct (c =? color) eqn:E; [|reflexivity].
      apply Nat.eqb_eq in E. exfalso. apply Hc. now left.
Qed.

End ColourPlanes.

Section FewChannels.

(** The loop returns only when both images have every plane that it goes
    over. *)
Lemma rgb_loop_Ok im1 im2 mask max_levels filter_size_im filter_size_mask :
  forall colors out out',
    rgb_loop colors out im1 im2 mask max_levels filter_size_im
             filter_size_mask = Ok out' ->
    forall c, In c colors -> c < length im1 /\ c < length im2.
Proof.
  induction colors as [|color colors IH]; intros out out' H c Hc;
    [destruct Hc|].
  cbn [rgb_loop] in H.
  apply bind_Ok in H. destruct H as (c1 & Hc1 & H).
  apply bind_Ok in H. destruct H as (c2 & Hc2 & H).
  apply bind_Ok in H. destruct H as (b & _ & H).
  apply bind_Ok in H. destruct H as (out1 & _ & H).
  destruct Hc as [<-|Hc]; [|exact (IH _ _ H c Hc)].
  split; [exact (py_index_Ok _ _ _ Hc1) | exact (py_index_Ok _ _ _ Hc2)].
Qed.

End FewChannels.

(** X18.  [_rgb_blend] on two colour images whose planes 0, 1 and 2 (R, G and
    B) are valid input of [pyramid_blending]: it returns an array of the shape
    of [im1] whose planes 0, 1 and 2 are the blends of the planes of the two
    images, whatever the memory of [np.empty] held; a plane past the third is
    never written, and still holds that memory. *)
Theorem rgb_blend_planes :
  forall (im1 im2 : list image) (mask : list (list bool)) (h w : nat)
         (max_levels filter_size_im filter_size_mask : Z)
         (kernel_im kernel_mask : image)
         (uninit : nat -> nat -> nat -> Qc),
    3 <= length im1 -> 3 <= length im2 ->
    (forall c, c < 3 ->
       rect (nth c im1 []) /\ shape (nth c im1 []) = (h, w) /\
       rect (nth c im2 []) /\ shape (nth c im2 []) = (h, w)) ->
    shape (astype_float64 mask) = (h, w) ->
    (1 <= max_levels)%Z ->
    _get_filer_row filter_size_im = Ok kernel_im ->
    _get_filer_row filter_size_mask = Ok kernel_mask ->
    halvable (Z.to_nat (max_levels - 1)) h w = true ->
    exists out,
      _rgb_blend im1 im2 mask max_levels filter_size_im filter_size_mask uninit
      = Ok out /\
      length out = length im1 /\
      (forall c, c < 3 ->
         pyramid_blending (nth c im1 []) (nth c im2 []) mask max_levels
                          filter_size_im filter_size_mask
         = Ok (nth c out [])) /\
      (forall c, 3 <= c < length im1 ->
         nth c out []
         = mk_image (height (nth c im1 [])) (width (nth c im1 []))
                    (uninit c)).
Proof.
  intros im1 im2 mask h w ml f fm k km uninit Hl1 Hl2 Hv Hm Hml Hk Hkm Hhalv.
  assert (Hin : forall c, In c [R; G; B] <-> c < 3).
  { intros c. unfold R, G, B. simpl. lia. }
  destruct (rgb_loop_spec im1 im2 mask h w ml f fm k km Hm Hml Hk Hkm Hhalv
              [R; G; B] (np_empty im1 uninit)) as (out & Hout & Hlen & Hb & Hn).
  { intros c Hc. apply Hin in Hc.
    destruct (Hv c Hc) as (Hr1 & Hs1 & Hr2 & Hs2).
    rewrite length_np_empty, nth_np_empty by lia.
    repeat split; try assumption; try lia.
    unfold shape in Hs1 |- *. injection Hs1 as Hh1 Hw1.
    rewrite height_mk_image, width_mk_image_same. congruence. }
  exists out. split; [exact Hout|].
  split; [now rewrite Hlen, length_np_empty|].
  split.
  - intros c Hc. apply Hb, Hin, Hc.
  - intros c Hc. rewrite Hn by (rewrite Hin; lia).
    apply nth_np_empty. lia.
Qed.

(** An instance: two images of four planes of shape 4x4; the fourth plane of
    the result is the uninitialised one. *)
Lemma rgb_blend_planes_witness :
  exists out,
    _rgb_blend (repeat (checkerboard 4 4) 4) (repeat (zeros 4 4) 4)
               (all_mask true 4 4) 2 3 3 (fun _ _ _ => Z2Qc 7)
    = Ok out /\
    nth 3 out [] = constant_image 4 4 (Z2Qc 7).
Proof.
  destruct (rgb_blend_planes
              (repeat (checkerboard 4 4) 4) (repeat (zeros 4 4) 4)
              (all_mask true 4 4) 4 4 2 3 3 (kernel_of 3) (kernel_of 3)
              (fun _ _ _ => Z2Qc 7))
    as (out & Hout & _ & _ & Hrest).
  - simpl. lia.
  - simpl. lia.
  - intros [|[|[|c]]] Hc; try lia;
      (split; [apply rect_mk_image|]); (split; [reflexivity|]);
      (split; [apply rect_mk_image | reflexivity]).
  - reflexivity.
  - lia.
  - reflexivity.
  - reflexivity.
  - reflexivity.
  - exists out. split; [exact Hout|].
    rewrite (Hrest 3) by (simpl; lia). reflexivity.
Defined.

(** X19.  [_rgb_blend] reads the planes 0, 1 and 2 of both images: when one
    of them has fewer than three planes, no array is returned. *)
Theorem rgb_blend_needs_three_planes :
  forall (im1 im2 : list image) (mask : list (list bool))
         (max_levels filter_size_im filter_size_mask : Z)
         (uninit : nat -> nat -> nat -> Qc),
    length im1 < 3 \/ length im2 < 3 ->
    exists e,
      _rgb_blend im1 im2 mask max_levels filter_size_im filter_size_mask uninit
      = Raise e.
Proof.
  intros im1 im2 mask ml f fm uninit Hlen.
  destruct (_rgb_blend im1 im2 mask ml f fm uninit) as [out|e] eqn:H;
    [exfalso | now exists e].
  unfold _rgb_blend in H.
  destruct (rgb_loop_Ok _ _ _ _ _ _ _ _ _ H B) as (H1 & H2);
    [right; right; now left|].
  unfold B in H1, H2. lia.
Qed.

(** An instance: images of two planes. *)
Lemma rgb_blend_needs_three_planes_witness :
  exists e,
    _rgb_blend (repeat (checkerboard 4 4) 2) (repeat (zeros 4 4) 2)
               (all_mask true 4 4) 2 3 3 (fun _ _ _ => 0%Qc)
    = Raise e.
Proof.
  apply (rgb_blend_needs_three_planes
           (repeat (checkerboard 4 4) 2) (repeat (zeros 4 4) 2)
           (all_mask true 4 4) 2 3 3 (fun _ _ _ => 0%Qc)).
  left. simpl. lia.
Defined.
